(** * DataPlaneOthello: the data plane of an l-Othello classifier

    A shallow embedding of [src/Othello/data_plane_othello.h] and the
    properties of its bit-packed field store, its bucket mapper, its version
    counters, its lookup and its repair primitives.

    Conventions of the embedding.
    - A [uintN_t] is a [Z] in [[0, 2^N)]; every C++ conversion that can wrap
      is written out with [to_u8], [to_u32], [to_u64] or [to_char].
    - [x << n] on [uint64_t] with a count below 64 is [shl64 x n], the
      mathematical shift reduced modulo [2^64]. A count of 64 is reached in
      two kinds of places when a field is 64 bits wide, and C++ leaves the
      shift undefined there; the embedding follows the x86-64 build.
      In the initialisers of the constants [VCMASK], [CMASK] and [VMASK] the
      shift is folded at compile time to 0, so the mask of a 64-bit field is
      all ones ([shl64]). In the getters the count [width - left] is computed
      at run time and the shift instruction takes it modulo 64, so the mask
      [~(uint64_t(-1) << 64)] is 0 ([shl64_rt]). Every other shift of the
      source has a count below 64.
    - [char] is the signed 8-bit type (as on x86).
    - An argument is taken to be in the range of its C++ parameter type;
      the theorems state these ranges.
    - The methods run in a state monad over the table with four outcomes:
      normal return, a thrown exception, undefined behaviour (an index past
      the end of a [vector], a store through an integer used as an address),
      and a retry loop that is still spinning when the fuel is used up.
    - Execution is sequential: [COMPILER_BARRIER] is a no-op. *)

From Stdlib Require Import ZArith Lia Bool String.
From stdpp Require Import base list.

Local Open Scope Z_scope.

(** ** Machine integers *)

Definition to_u8 (z : Z) : Z := z mod 2 ^ 8.
Definition to_u32 (z : Z) : Z := z mod 2 ^ 32.
Definition to_u64 (z : Z) : Z := z mod 2 ^ 64.

(** Conversion to a signed 8-bit [char]. *)
Definition to_char (z : Z) : Z := (z + 128) mod 256 - 128.

(** [uint64_t(-1)] *)
Definition ones64 : Z := 2 ^ 64 - 1.

(** [x << n] and [~x] on [uint64_t]. *)
Definition shl64 (x n : Z) : Z := to_u64 (Z.shiftl x n).
Definition not64 (x : Z) : Z := to_u64 (Z.lnot x).

(** [x << n] on [uint64_t] with the count in a register: the processor
    shifts by [n mod 64], so a count of 64 shifts by nothing. *)
Definition shl64_rt (x n : Z) : Z := shl64 x (n mod 64).

(** ** The packed memory as an array of bits

    [membit m n] is bit [n] of the packed memory: bit [n mod 64] of word
    [n / 64]. *)

Definition membit (m : list Z) (n : Z) : bool :=
  Z.testbit (default 0 (m !! Z.to_nat (n / 64))) (n mod 64).

Definition u64 (w : Z) : Prop := 0 <= w < 2 ^ 64.

(** The two pairs of accessors of the source share one shape: a field of
    [W] bits at bit position [pos]. [field_read] and [field_write] are that
    shape on the bare word list ([None] for a word index past the end), the
    read with the mask of the getters and the write with a mask constant;
    [memGet_field], [memSet_field] and their value-only counterparts show
    that the accessors are instances of it. *)

Definition field_read (W pos : Z) (m : list Z) : option Z :=
  let start := to_u32 (pos / 64) in
  let offset := to_u8 (pos mod 64) in
  let left := to_char (offset + W - 64) in
  let left := to_char (if left <? 0 then 0 else left) in
  let mask := not64 (shl64_rt ones64 (W - left)) in
  match m !! Z.to_nat start with
  | None => None
  | Some w =>
      let result := Z.land (Z.shiftr w offset) mask in
      if 0 <? left then
        match m !! Z.to_nat (to_u32 (start + 1)) with
        | None => None
        | Some w1 =>
            Some (Z.lor result
                    (shl64 (Z.land w1 (not64 (shl64 ones64 left))) (W - left)))
        end
      else Some result
  end.

Definition word_modify (start : Z) (f : Z -> Z) (m : list Z) : option (list Z) :=
  match m !! Z.to_nat start with
  | None => None
  | Some w => Some (<[Z.to_nat start := f w]> m)
  end.

Definition field_write (W pos v : Z) (m : list Z) : option (list Z) :=
  let start := to_u32 (pos / 64) in
  let offset := to_u8 (pos mod 64) in
  let left := to_char (offset + W - 64) in
  let mask := not64 (shl64 (not64 (shl64 ones64 W)) offset) in
  match word_modify start (fun w => Z.land w mask) m with
  | None => None
  | Some m1 =>
      match word_modify start (fun w => Z.lor w (shl64 v offset)) m1 with
      | None => None
      | Some m2 =>
          if 0 <? left then
            match word_modify (to_u32 (start + 1))
                    (fun w => Z.land w (shl64 ones64 left)) m2 with
            | None => None
            | Some m3 =>
                word_modify (to_u32 (start + 1))
                  (fun w => Z.lor w (Z.shiftr v (W - left))) m3
            end
          else Some m2
      end
  end.

(** ** Outcomes of a method call *)

Inductive fault : Type :=
| OutOfRange                (* operator[] past the end of a vector *)
| WildPointer (addr : Z).   (* access through an integer cast to a pointer *)

Inductive exn : Type :=
| runtime_error (msg : string).

Inductive outcome (S A : Type) : Type :=
| Ret (a : A) (s : S)
| Throw (e : exn)
| Undef (f : fault)
| Spin.

Arguments Ret {S A} a s.
Arguments Throw {S A} e.
Arguments Undef {S A} f.
Arguments Spin {S A}.

Section DataPlaneOthello.

(** Template parameters: the key type, the value type with the implicit
    conversion [uint64_t -> V] of an assignment, and the widths [L] of the
    value sub-field and [CL] of the control sub-field. *)
Variable K : Type.
Variable V : Type.
Variable V_of_u64 : Z -> V.
Variables L CL : Z.

Definition VCL : Z := L + CL.
Definition VCMASK : Z := not64 (shl64 ones64 VCL).
Definition CMASK : Z := not64 (shl64 ones64 CL).
Definition VMASK : Z := not64 (shl64 ones64 L).

(** The data members. [hab] and [hd] are the hashers of the table; their
    classes are declared elsewhere, so they are taken as functions. *)
Record Table : Type := mkTable {
  mem : list Z;
  ma : Z;
  mb : Z;
  hab : K -> Z;
  hd : K -> Z;
  lock : list Z;
  versions : list Z
}.

Definition set_mem (m : list Z) (t : Table) : Table :=
  mkTable m (ma t) (mb t) (hab t) (hd t) (lock t) (versions t).

Definition set_lock (l : list Z) (t : Table) : Table :=
  mkTable (mem t) (ma t) (mb t) (hab t) (hd t) l (versions t).

(** *** The state monad of the methods *)

Definition M (A : Type) : Type := Table -> outcome Table A.

Definition ret {A : Type} (a : A) : M A := fun t => Ret a t.

Definition bind {A B : Type} (c : M A) (k : A -> M B) : M B :=
  fun t =>
    match c t with
    | Ret a t' => k a t'
    | Throw e => Throw e
    | Undef f => Undef f
    | Spin => Spin
    end.

Definition throw {A : Type} (e : exn) : M A := fun _ => Throw e.

Notation "'let*' x ':=' c 'in' k" := (bind c (fun x => k))
  (at level 10, x name, c at level 100, k at level 200).
Notation "'run*' c 'in' k" := (bind c (fun _ => k))
  (at level 10, c at level 100, k at level 200).

(** [mem[start]] as an rvalue. *)
Definition mem_at (start : Z) : M Z :=
  fun t =>
    match mem t !! Z.to_nat start with
    | Some w => Ret w t
    | None => Undef OutOfRange
    end.

(** [mem[start] = f(mem[start])], the shape of [&=] and [|=]. *)
Definition mem_modify (start : Z) (f : Z -> Z) : M unit :=
  fun t =>
    match mem t !! Z.to_nat start with
    | Some w => Ret tt (set_mem (<[Z.to_nat start := f w]> (mem t)) t)
    | None => Undef OutOfRange
    end.

(** [lock[i]] as an rvalue. *)
Definition lock_at (i : Z) : M Z :=
  fun t =>
    match lock t !! Z.to_nat i with
    | Some c => Ret c t
    | None => Undef OutOfRange
    end.

(** [lock[i]++] on a [uint8_t]. *)
Definition lock_incr (i : Z) : M unit :=
  fun t =>
    match lock t !! Z.to_nat i with
    | Some c => Ret tt (set_lock (<[Z.to_nat i := to_u8 (c + 1)]> (lock t)) t)
    | None => Undef OutOfRange
    end.

(** [*(uint16_t * ) a += 1]: a read-modify-write of the 16-bit object at the
    address [a]. The integer [a] is a slot content, not the address of any
    object, so the access has no defined behaviour. *)
Definition deref_incr16 (a : Z) : M unit := fun _ => Undef (WildPointer a).

(** *** Hash-to-bucket mapper *)

Definition multiply_high_u32 (x y : Z) : Z :=
  to_u32 (Z.shiftr (to_u64 (x * y)) 32).

Definition fast_map_to_A (t : Table) (x : Z) : Z := multiply_high_u32 x (ma t).

Definition fast_map_to_B (t : Table) (x : Z) : Z := multiply_high_u32 x (mb t).

(** Returns [(aInd, bInd)]. The arguments of the two mappers are converted
    to [uint32_t], the results are stored in [uint32_t] variables. *)
Definition getIndices (t : Table) (k : K) : Z * Z :=
  let hash := to_u64 (hab t k) in
  let bInd := to_u32 (to_u64 (fast_map_to_B t (to_u32 (Z.shiftr hash 32)) + ma t)) in
  let aInd := to_u32 (fast_map_to_A t (to_u32 hash)) in
  (aInd, bInd).

(** *** Bit-packed field store *)

Definition memSet (index value : Z) : M unit :=
  if VCL =? 0 then ret tt else
  run* lock_incr (Z.land index 8191) in
  let v := Z.land value VCMASK in
  let i := to_u64 (index * VCL) in
  let start := to_u32 (i / 64) in
  let offset := to_u8 (i mod 64) in
  let left := to_char (offset + VCL - 64) in
  let mask := not64 (shl64 VCMASK offset) in
  run* mem_modify start (fun w => Z.land w mask) in
  run* mem_modify start (fun w => Z.lor w (shl64 v offset)) in
  run* (if 0 <? left then
          let mask := shl64 ones64 left in
          run* mem_modify (to_u32 (start + 1)) (fun w => Z.land w mask) in
          mem_modify (to_u32 (start + 1)) (fun w => Z.lor w (Z.shiftr v (VCL - left)))
        else ret tt) in
  lock_incr (Z.land index 8191).

(** The mask of the first word is built with a shift by [VCL - left], which
    is 64 for a slot of 64 bits ([left] is 0 then): the run-time shift. *)
Definition memGet (index : Z) : M Z :=
  let i := to_u64 (index * VCL) in
  let start := to_u32 (i / 64) in
  let offset := to_u8 (i mod 64) in
  let left := to_char (offset + VCL - 64) in
  let left := to_char (if left <? 0 then 0 else left) in
  let mask := not64 (shl64_rt ones64 (VCL - left)) in
  let* w := mem_at start in
  let result := Z.land (Z.shiftr w offset) mask in
  if 0 <? left then
    let mask := not64 (shl64 ones64 left) in
    let* w1 := mem_at (to_u32 (start + 1)) in
    ret (Z.lor result (shl64 (Z.land w1 mask) (VCL - left)))
  else ret result.

Definition memValueSet (index value : Z) : M unit :=
  if L =? 0 then ret tt else
  run* lock_incr (Z.land index 8191) in
  let v := Z.land value VMASK in
  let i := to_u64 (index * VCL + CL) in
  let start := to_u32 (i / 64) in
  let offset := to_u8 (i mod 64) in
  let left := to_char (offset + L - 64) in
  let mask := not64 (shl64 VMASK offset) in
  run* mem_modify start (fun w => Z.land w mask) in
  run* mem_modify start (fun w => Z.lor w (shl64 v offset)) in
  run* (if 0 <? left then
          let mask := shl64 ones64 left in
          run* mem_modify (to_u32 (start + 1)) (fun w => Z.land w mask) in
          mem_modify (to_u32 (start + 1)) (fun w => Z.lor w (Z.shiftr v (L - left)))
        else ret tt) in
  lock_incr (Z.land index 8191).

(** As in [memGet], with a shift by [L - left], 64 when [L = 64]. *)
Definition memValueGet (index : Z) : M Z :=
  if L =? 0 then ret 0 else
  let i := to_u64 (index * VCL + CL) in
  let start := to_u32 (i / 64) in
  let offset := to_u8 (i mod 64) in
  let left := to_char (offset + L - 64) in
  let left := to_char (if left <? 0 then 0 else left) in
  let mask := not64 (shl64_rt ones64 (L - left)) in
  let* w := mem_at start in
  let result := Z.land (Z.shiftr w offset) mask in
  if 0 <? left then
    let mask := not64 (shl64 ones64 left) in
    let* w1 := mem_at (to_u32 (start + 1)) in
    ret (Z.lor result (shl64 (Z.land w1 mask) (L - left)))
  else ret result.

(** *** Repair primitives *)

(** The value comes first, the node second. Both parameters are
    [uint32_t]: the statements about [fillSingle] take them below [2^32]. *)
Definition fillSingle (valueToFill nodeToFill : Z) : M unit :=
  memValueSet nodeToFill valueToFill.

Definition fixSingle (nodeToFix x : Z) : M unit :=
  let* old := memValueGet nodeToFix in
  let valueToFill := Z.lxor x old in
  memValueSet nodeToFix valueToFill.

(** [xorTemplate] is a [uint32_t], taken below [2^32] by the statements
    that depend on its value; it is widened to the [uint64_t] parameter of
    [fixSingle]. *)
Fixpoint fixHalfTreeByConnectedComponent (indices : list Z) (xorTemplate : Z) : M unit :=
  match indices with
  | [] => ret tt
  | index :: rest =>
      run* fixSingle index xorTemplate in
      fixHalfTreeByConnectedComponent rest xorTemplate
  end.

(** *** Lookup *)

(** One unit of fuel per iteration of [while (true)]; [continue] is the
    recursive call. *)
Fixpoint lookUp_loop (fuel : nat) (ha hb : Z) : M (bool * V) :=
  match fuel with
  | O => fun _ => Spin
  | S fuel' =>
      let* va1 := lock_at (Z.land ha 8191) in
      let* vb1 := lock_at (Z.land hb 8191) in
      if (va1 mod 2 =? 1) || (vb1 mod 2 =? 1) then lookUp_loop fuel' ha hb else
      let* aa := memGet ha in
      let* bb := memGet hb in
      let* va2 := lock_at (Z.land ha 8191) in
      let* vb2 := lock_at (Z.land hb 8191) in
      if negb (va1 =? va2) || negb (vb1 =? vb2) then lookUp_loop fuel' ha hb else
      let vc := Z.lxor aa bb in
      let v := V_of_u64 (Z.shiftr vc CL) in
      if CL =? 0 then ret (true, v) else
      run* deref_incr16 aa in
      run* deref_incr16 bb in
      run* memSet ha aa in
      run* memSet hb bb in
      ret (true, v)
  end.

Definition lookUp (fuel : nat) (k : K) : M (bool * V) :=
  fun t =>
    let '(ha, hb) := getIndices t k in
    lookUp_loop fuel ha hb t.

(** The overload that returns the value. *)
Definition lookUp_value (fuel : nat) (k : K) : M V :=
  let* r := lookUp fuel k in
  if fst r then ret (snd r)
  else throw (runtime_error "No matched key! ").

(** *** Well-formedness and the vocabulary of the properties *)

(** The table after a bracketed write to a slot whose version counter is
    [lock[i] = c]: the new memory, and the counter incremented twice. *)
Definition written (t : Table) (i c : Z) (m' : list Z) : Table :=
  set_lock (<[Z.to_nat i := to_u8 (to_u8 (c + 1) + 1)]> (lock t)) (set_mem m' t).

(** The template parameters are [uint8_t] and [static_assert (VCL <= 64)]
    holds. *)
Definition wf_cfg : Prop := 0 <= L /\ 0 <= CL /\ VCL <= 64.

Definition all_even (t : Table) : Prop :=
  Forall (fun c => c mod 2 = 0) (lock t).

(** The memory write of a setter, between its two counter increments: a
    field of [W] bits at bit [pos] receives [v]. *)
Definition field_store (W pos v : Z) : M unit :=
  fun t =>
    match field_write W pos v (mem t) with
    | Some m' => Ret tt (set_mem m' t)
    | None => Undef OutOfRange
    end.

(** There are 8192 version counters and all of them are even. *)
Definition stable (t : Table) : Prop :=
  Z.of_nat (length (lock t)) = 8192 /\ all_even t.

(** The packed memory is sized for all [ma + mb] slots. *)
Definition mem_covers (t : Table) : Prop :=
  (ma t + mb t) * VCL <= 64 * Z.of_nat (length (mem t)).

(** The words that [memGet index] reads exist: the word of the first bit
    of the slot (read even when the slot is empty) and the word of its
    last bit. *)
Definition slot_in_mem (t : Table) (index : Z) : Prop :=
  index * VCL + Z.max 1 VCL <= 64 * Z.of_nat (length (mem t)).

(** A table as the default member initialisers leave it, with the sizes,
    hashers and memory that [fullSync] copies in. *)
Definition synced (m : list Z) (a b : Z) (h : K -> Z) (d : K -> Z) : Table :=
  mkTable m a b h d (replicate (Z.to_nat 8192) 0) [].

(** The operations of the data plane, for statements about sequences of
    calls. *)
Inductive op : Type :=
| OpMemSet (index value : Z)
| OpMemValueSet (index value : Z)
| OpFillSingle (valueToFill nodeToFill : Z)
| OpFixSingle (nodeToFix x : Z)
| OpFixHalfTree (indices : list Z) (xorTemplate : Z)
| OpLookUp (fuel : nat) (k : K).

Definition run_op (o : op) : M unit :=
  match o with
  | OpMemSet index value => memSet index value
  | OpMemValueSet index value => memValueSet index value
  | OpFillSingle v n => fillSingle v n
  | OpFixSingle n x => fixSingle n x
  | OpFixHalfTree l d => fixHalfTreeByConnectedComponent l d
  | OpLookUp fuel k => run* lookUp fuel k in ret tt
  end.

Fixpoint run_ops (os : list op) : M unit :=
  match os with
  | [] => ret tt
  | o :: os' => run* run_op o in run_ops os'
  end.

End DataPlaneOthello.

Arguments mem {K} _.
Arguments ma {K} _.
Arguments mb {K} _.
Arguments hab {K} _ _.
Arguments hd {K} _ _.
Arguments lock {K} _.
Arguments versions {K} _.
Arguments mkTable {K} _ _ _ _ _ _ _.
Arguments set_mem {K} _ _.
Arguments set_lock {K} _ _.
Arguments ret {K A} _ _.
Arguments bind {K A B} _ _ _.
Arguments throw {K A} _ _.
Arguments getIndices {K} _ _.
Arguments all_even {K} _.
Arguments stable {K} _.
Arguments field_store {K} _ _ _ _.
Arguments synced {K} _ _ _ _ _.
Arguments written {K} _ _ _ _.
Arguments mem_at {K} _ _.
Arguments mem_modify {K} _ _ _.
Arguments lock_at {K} _ _.
Arguments lock_incr {K} _ _.
Arguments deref_incr16 {K} _ _.
Arguments fast_map_to_A {K} _ _.
Arguments fast_map_to_B {K} _ _.
Arguments memSet {K} L CL _ _ _.
Arguments memGet {K} L CL _ _.
Arguments memValueSet {K} L CL _ _ _.
Arguments memValueGet {K} L CL _ _.
Arguments fillSingle {K} L CL _ _ _.
Arguments fixSingle {K} L CL _ _ _.
Arguments fixHalfTreeByConnectedComponent {K} L CL _ _ _.
Arguments lookUp_loop {K V} V_of_u64 L CL _ _ _ _.
Arguments lookUp {K V} V_of_u64 L CL _ _ _.
Arguments lookUp_value {K V} V_of_u64 L CL _ _ _.
Arguments mem_covers {K} L CL _.
Arguments slot_in_mem {K} L CL _ _.
Arguments OpMemSet {K} _ _.
Arguments OpMemValueSet {K} _ _.
Arguments OpFillSingle {K} _ _.
Arguments OpFixSingle {K} _ _.
Arguments OpFixHalfTree {K} _ _.
Arguments OpLookUp {K} _ _.
Arguments run_op {K V} V_of_u64 L CL _ _.
Arguments run_ops {K V} V_of_u64 L CL _ _.

(** ** Concrete tables

    Tables over the one-element key type, with a constant hasher, on which
    the statements below are evaluated. *)

Definition const_hash (h : Z) : unit -> Z := fun _ => h.

(** A default-constructed table: no slots, no memory. *)
Definition empty_table : Table unit :=
  synced [] 0 0 (const_hash 0) (const_hash 0).

(** [ma = 4], [mb = 4] and a key whose indices are [(1, 6)]; with [L = 8],
    [CL = 0] the eight slots fill one word. *)
Definition scenario_table (m : list Z) : Table unit :=
  synced m 4 4 (const_hash (2 ^ 63 + 2 ^ 30)) (const_hash 0).

(** [L = 8], [CL = 6], one slot in each array: slot 0 holds value 3 and
    control 5, slot 1 holds value 7 and control 9. *)
Definition filter_table : Table unit :=
  synced [(3 * 2 ^ 6 + 5) + (7 * 2 ^ 6 + 9) * 2 ^ 14] 1 1
    (const_hash 0) (const_hash 0).


(** The scenario table with 42 in slot 1 and 5 in slot 6. *)
Definition words_1_6 : Table unit := scenario_table [42 * 2 ^ 8 + 5 * 2 ^ 48].

(** A value type of 64 bits: the conversion from [uint64_t] is the identity. *)
Definition id64 : Z -> Z := fun z => z.

(** [words_1_6] while a write to slot 1 is in progress: its counter is odd. *)
Definition mid_write : Table unit :=
  set_lock (<[1%nat := 1]> (lock words_1_6)) words_1_6.

(** The largest sizes that the two [uint32_t] members can hold. *)
Definition huge_table : Table unit :=
  synced [] (2 ^ 32 - 1) (2 ^ 32 - 1) (const_hash (2 ^ 64 - 1)) (const_hash 0).

(** [L = 6], [CL = 4]: slots of 10 bits; the value sub-field of slot 12
    occupies bits 124 to 129, the end of word 1 and the start of word 2. *)
Definition straddle_table : Table unit :=
  synced [2 ^ 64 - 1; 2 ^ 64 - 1; 2 ^ 64 - 1] 8 8 (const_hash 0) (const_hash 0).

(** [L = 64], [CL = 0], the default widths for a 64-bit value type: one
    word per slot, slot 0 in [A] and slot 1 in [B]. *)
Definition wide_table : Table unit :=
  synced [5; 9] 1 1 (const_hash 0) (const_hash 0).

(** ** Construction, synchronisation and memory accounting *)

Section Construction.
Context {K : Type}.

(** The members of [ControlPlaneOthello] that [fullSync] reads. The class is
    declared in [control_plane_othello.h]; a control plane is taken as the
    values of these members. *)
Record ControlPlane : Type := mkControlPlane {
  cp_mem : list Z;
  cp_ma : Z;
  cp_mb : Z;
  cp_hab : K -> Z;
  cp_hd : K -> Z
}.

(** [fullSync] for a control plane that maintains its data-plane buffer: five
    assignments; the counters and [versions] are not touched. *)
Definition fullSync (cp : ControlPlane) : M K unit :=
  fun t =>
    Ret tt (mkTable (cp_mem cp) (cp_ma cp) (cp_mb cp) (cp_hab cp) (cp_hd cp)
              (lock t) (versions t)).

(** [DataPlaneOthello() = default]: the member initialisers, with the
    default-constructed hashers [h0] and [d0]. *)
Definition default_constructed (h0 d0 : K -> Z) : Table K :=
  mkTable [] 0 0 h0 d0 (replicate (Z.to_nat 8192) 0) [].

(** [vector<uint8_t>::resize (n)]: the first [n] elements, padded with
    zeros. *)
Definition resize (n : Z) (l : list Z) : list Z :=
  take (Z.to_nat n) l ++ replicate (Z.to_nat n - length l) 0.

(** [versions.resize (n)]. *)
Definition versions_resize (n : Z) : M K unit :=
  fun t =>
    Ret tt (mkTable (mem t) (ma t) (mb t) (hab t) (hd t) (lock t)
              (resize n (versions t))).

(** The body of the converting constructor, in a build with [NDEBUG]:
    [fullSync (cp)], then [versions.resize (ma + mb)] with the sum taken in
    [uint32_t]. It runs on the members as [default_constructed] gives them. *)
Definition construct (cp : ControlPlane) : M K unit :=
  bind (fullSync cp)
    (fun _ t => versions_resize (to_u32 (ma t + mb t)) t).

(** [getMemoryCost]: [mem.size () * sizeof (mem[0])] in [size_t], returned as
    [uint64_t]. *)
Definition getMemoryCost (t : Table K) : Z :=
  to_u64 (Z.of_nat (length (mem t)) * 8).

(** What no operation of the data plane changes: the sizes, the hashers, the
    [versions] array, and the number of words and of counters. *)
Definition same_frame (t t' : Table K) : Prop :=
  ma t' = ma t /\ mb t' = mb t /\ hab t' = hab t /\ hd t' = hd t /\
  versions t' = versions t /\
  length (mem t') = length (mem t) /\ length (lock t') = length (lock t).

End Construction.

Arguments ControlPlane K : clear implicits.

(** A control plane for the scenario table: one word of eight 8-bit slots. *)
Definition scenario_cp : ControlPlane unit :=
  mkControlPlane [42 * 2 ^ 8 + 5 * 2 ^ 48] 4 4
    (const_hash (2 ^ 63 + 2 ^ 30)) (const_hash 0).

(** * Properties *)

(** ** Machine integers and bits *)

Lemma to_u8_small z : 0 <= z < 2 ^ 8 -> to_u8 z = z.
Proof. intros H. unfold to_u8. apply Z.mod_small. exact H. Qed.

Lemma to_u32_small z : 0 <= z < 2 ^ 32 -> to_u32 z = z.
Proof. intros H. unfold to_u32. apply Z.mod_small. exact H. Qed.

Lemma to_u64_small z : 0 <= z < 2 ^ 64 -> to_u64 z = z.
Proof. intros H. unfold to_u64. apply Z.mod_small. exact H. Qed.

Lemma to_char_small z : -128 <= z < 128 -> to_char z = z.
Proof. intros H. unfold to_char. rewrite Z.mod_small; lia. Qed.

Lemma testbit_to_u64 x j :
  0 <= j -> Z.testbit (to_u64 x) j = (j <? 64) && Z.testbit x j.
Proof.
  intros Hj. unfold to_u64. destruct (Z.ltb_spec j 64).
  - rewrite Z.mod_pow2_bits_low by lia. reflexivity.
  - rewrite Z.mod_pow2_bits_high by lia. reflexivity.
Qed.

Lemma testbit_shl64 x n j :
  0 <= j -> Z.testbit (shl64 x n) j = (j <? 64) && Z.testbit x (j - n).
Proof.
  intros Hj. unfold shl64. rewrite testbit_to_u64 by lia.
  rewrite Z.shiftl_spec by lia. reflexivity.
Qed.

Lemma testbit_not64 x j :
  0 <= j -> Z.testbit (not64 x) j = (j <? 64) && negb (Z.testbit x j).
Proof.
  intros Hj. unfold not64. rewrite testbit_to_u64 by lia.
  rewrite Z.lnot_spec by lia. reflexivity.
Qed.

Lemma testbit_ones64 j : Z.testbit ones64 j = (0 <=? j) && (j <? 64).
Proof.
  change ones64 with (Z.ones 64). destruct (Z.leb_spec 0 j).
  - rewrite Z.testbit_ones_nonneg by lia. reflexivity.
  - rewrite Z.testbit_neg_r by lia. reflexivity.
Qed.

Lemma testbit_ones_full n j :
  0 <= n -> Z.testbit (Z.ones n) j = (0 <=? j) && (j <? n).
Proof.
  intros Hn. destruct (Z.leb_spec 0 j).
  - rewrite Z.testbit_ones_nonneg by lia. reflexivity.
  - rewrite Z.testbit_neg_r by lia. reflexivity.
Qed.

Lemma testbit_u64_high w j : u64 w -> 64 <= j -> Z.testbit w j = false.
Proof.
  intros Hw Hj. rewrite <- (Z.mod_small w (2 ^ 64)) by exact Hw.
  apply Z.mod_pow2_bits_high. lia.
Qed.

(** Decide the comparisons of a goal about bits and finish by arithmetic. *)
Ltac split_cmp :=
  repeat match goal with
    | |- context [?a <? ?b] => destruct (Z.ltb_spec a b)
    | |- context [?a <=? ?b] => destruct (Z.leb_spec a b)
    | |- context [?a =? ?b] => destruct (Z.eqb_spec a b)
    end.

Ltac bits :=
  repeat first
    [ rewrite testbit_to_u64 by lia
    | rewrite testbit_shl64 by lia
    | rewrite testbit_not64 by lia
    | rewrite testbit_ones64
    | rewrite Z.land_spec
    | rewrite Z.lor_spec
    | rewrite Z.lxor_spec
    | rewrite Z.shiftr_spec by lia
    | rewrite Z.shiftl_spec by lia
    | rewrite testbit_ones_full by lia ].

(** [~(uint64_t(-1) << n)]: the low [n] bits are 1, the others 0. *)
Lemma mask_low n : 0 <= n <= 64 -> not64 (shl64 ones64 n) = Z.ones n.
Proof.
  intros Hn. apply Z.bits_inj'. intros j Hj. bits.
  split_cmp; simpl; try reflexivity; try lia.
Qed.

(** The mask of the getters: the same for a count below 64, and no bit at
    all for a count of 64. *)
Lemma shl64_rt_small x n : 0 <= n < 64 -> shl64_rt x n = shl64 x n.
Proof. intros Hn. unfold shl64_rt. rewrite Z.mod_small by lia. reflexivity. Qed.

Lemma mask_rt_low n : 0 <= n < 64 -> not64 (shl64_rt ones64 n) = Z.ones n.
Proof. intros Hn. rewrite shl64_rt_small by lia. apply mask_low. lia. Qed.

Lemma mask_rt_64 : not64 (shl64_rt ones64 64) = 0.
Proof. reflexivity. Qed.

Lemma land_ones_range x n : 0 <= n -> 0 <= Z.land x (Z.ones n) < 2 ^ n.
Proof.
  intros Hn. rewrite Z.land_ones by lia. apply Z.mod_pos_bound. lia.
Qed.

Lemma testbit_high x n j : 0 <= x < 2 ^ n -> 0 <= n <= j -> Z.testbit x j = false.
Proof.
  intros Hx Hj. rewrite <- (Z.mod_small x (2 ^ n)) by exact Hx.
  apply Z.mod_pow2_bits_high. lia.
Qed.

Lemma nonneg_testbit_range x n :
  0 <= n -> 0 <= x -> (forall j, n <= j -> Z.testbit x j = false) -> x < 2 ^ n.
Proof.
  intros Hn Hx H.
  destruct (Z.eq_dec x 0) as [->|Hne]; [apply Z.pow_pos_nonneg; lia|].
  assert (Hlog : Z.log2 x < n).
  { destruct (Z.lt_ge_cases (Z.log2 x) n) as [|Hge]; [assumption|].
    specialize (H _ Hge). rewrite Z.bit_log2 in H by lia. discriminate. }
  apply Z.log2_lt_pow2; lia.
Qed.

(** ** The field store on the bare word list *)

Lemma field_geometry W pos :
  0 <= W <= 64 -> 0 <= pos < 2 ^ 38 ->
  to_u32 (pos / 64) = pos / 64 /\
  to_u8 (pos mod 64) = pos mod 64 /\
  to_char (pos mod 64 + W - 64) = pos mod 64 + W - 64.
Proof.
  intros HW Hp.
  assert (0 <= pos mod 64 < 64) by (apply Z.mod_pos_bound; lia).
  assert (0 <= pos / 64 < 2 ^ 32).
  { split; [apply Z.div_pos; lia|]. apply Z.div_lt_upper_bound; lia. }
  rewrite to_u32_small, to_u8_small, to_char_small by lia. auto.
Qed.

Lemma membit_word m s o w :
  m !! Z.to_nat s = Some w -> 0 <= s -> 0 <= o < 64 ->
  membit m (64 * s + o) = Z.testbit w o.
Proof.
  intros Hw Hs Ho. unfold membit.
  replace ((64 * s + o) / 64) with s by (Z.div_mod_to_equations; lia).
  replace ((64 * s + o) mod 64) with o by (Z.div_mod_to_equations; lia).
  rewrite Hw. reflexivity.
Qed.

Ltac close_bits :=
  split_cmp; bits; split_cmp; simpl;
  rewrite ?andb_true_r, ?andb_false_r, ?orb_false_r;
  try reflexivity; try lia; try (f_equal; lia).

(** The bits of a field that is read. A 64-bit field that starts a word is
    read through the mask with no bit. *)
Lemma field_read_bits_gen W pos m r :
  0 <= W <= 64 -> 0 <= pos -> pos + W <= 2 ^ 38 -> pos < 2 ^ 38 ->
  field_read W pos m = Some r ->
  forall j, 0 <= j ->
    Z.testbit r j =
      negb ((W =? 64) && (pos mod 64 =? 0)) && ((j <? W) && membit m (pos + j)).
Proof.
  intros HW Hp Hend Hlt Hr j Hj. unfold field_read in Hr.
  revert Hr.
  destruct (field_geometry W pos) as (-> & -> & ->); [lia..|].
  assert (Ho : 0 <= pos mod 64 < 64) by (apply Z.mod_pos_bound; lia).
  assert (Hs : 0 <= pos / 64) by (apply Z.div_pos; lia).
  pose proof (Z.div_mod pos 64 ltac:(lia)) as Hpos.
  set (s := pos / 64) in *. set (o := pos mod 64) in *.
  destruct (m !! Z.to_nat s) as [w|] eqn:Hw; [|discriminate].
  assert (Hlow : forall j, 0 <= j -> o + j < 64 ->
                 membit m (pos + j) = Z.testbit w (j + o)).
  { intros j' ? ?. replace (pos + j') with (64 * s + (o + j')) by lia.
    rewrite (membit_word _ _ _ w) by (try assumption; lia). f_equal. lia. }
  destruct (Z.ltb_spec (o + W - 64) 0) as [Hneg|Hpos'].
  - rewrite (to_char_small 0) by lia. simpl.
    rewrite Z.sub_0_r, mask_rt_low by lia.
    destruct (Z.eqb_spec W 64); [lia|]. cbn [andb negb].
    intros [= <-]. bits.
    destruct (Z.ltb_spec j W); [rewrite Hlow by lia|]; close_bits.
  - rewrite (to_char_small (o + W - 64)) by lia.
    destruct (Z.ltb_spec 0 (o + W - 64)) as [Hstr|Hfit].
    + assert (Hs1 : s + 1 < 2 ^ 32) by lia.
      rewrite (to_u32_small (s + 1)) by lia.
      destruct (m !! Z.to_nat (s + 1)) as [w1|] eqn:Hw1; [|discriminate].
      rewrite mask_rt_low, mask_low by lia.
      replace ((W =? 64) && (o =? 0)) with false
        by (destruct (Z.eqb_spec o 0); [lia|]; rewrite andb_false_r; reflexivity).
      cbn [andb negb].
      intros [= <-]. bits.
      replace (W - (o + W - 64)) with (64 - o) by lia.
      destruct (Z.ltb_spec j (64 - o)) as [Hlo|Hhi].
      * rewrite Hlow by lia.
        rewrite (Z.testbit_neg_r _ (j - (64 - o))) by lia. close_bits.
      * destruct (Z.ltb_spec j W) as [HjW|HjW].
        -- replace (pos + j) with (64 * (s + 1) + (o + j - 64)) by lia.
           rewrite (membit_word _ _ _ w1) by (try assumption; lia).
           replace (j - (64 - o)) with (o + j - 64) by lia. close_bits.
        -- close_bits.
    + assert (o + W - 64 = 0) as -> by lia.
      rewrite Z.sub_0_r.
      destruct (Z.eqb_spec W 64) as [HW64|HW64].
      * assert (o = 0) as -> by lia. subst W. cbn [Z.eqb andb negb].
        rewrite mask_rt_64, Z.land_0_r. intros [= <-]. apply Z.bits_0.
      * cbn [andb negb]. rewrite mask_rt_low by lia.
        intros [= <-]. bits.
        destruct (Z.ltb_spec j W); [rewrite Hlow by lia|]; close_bits.
Qed.

Lemma field_read_bits W pos m r :
  0 <= W < 64 -> 0 <= pos -> pos + W <= 2 ^ 38 -> pos < 2 ^ 38 ->
  field_read W pos m = Some r ->
  forall j, 0 <= j -> Z.testbit r j = (j <? W) && membit m (pos + j).
Proof.
  intros HW Hp Hend Hlt Hr j Hj.
  rewrite (field_read_bits_gen W pos m r) by (try assumption; lia).
  destruct (Z.eqb_spec W 64); [lia|]. reflexivity.
Qed.

(** A 64-bit field at the start of a word always reads 0. *)
Lemma field_read_wide pos m r :
  0 <= pos < 2 ^ 38 -> pos + 64 <= 2 ^ 38 -> pos mod 64 = 0 ->
  field_read 64 pos m = Some r -> r = 0.
Proof.
  intros Hp Hend Hmod Hr. apply Z.bits_inj'. intros j Hj.
  rewrite (field_read_bits_gen 64 pos m r) by (try assumption; lia).
  rewrite Hmod, Z.bits_0. reflexivity.
Qed.

Lemma field_read_is_Some W pos m :
  0 <= W <= 64 -> 0 <= pos < 2 ^ 38 -> pos + W <= 2 ^ 38 ->
  pos + Z.max 1 W <= 64 * Z.of_nat (length m) ->
  exists r, field_read W pos m = Some r.
Proof.
  intros HW Hp Hend Hcov. unfold field_read.
  destruct (field_geometry W pos) as (-> & -> & ->); [lia..|].
  assert (Ho : 0 <= pos mod 64 < 64) by (apply Z.mod_pos_bound; lia).
  assert (Hs : 0 <= pos / 64) by (apply Z.div_pos; lia).
  pose proof (Z.div_mod pos 64 ltac:(lia)) as Hpos.
  set (s := pos / 64) in *. set (o := pos mod 64) in *.
  destruct (lookup_lt_is_Some_2 m (Z.to_nat s)) as [w ->]; [lia|].
  destruct (Z.ltb_spec (o + W - 64) 0).
  - rewrite (to_char_small 0) by lia. simpl. eauto.
  - rewrite (to_char_small (o + W - 64)) by lia.
    destruct (Z.ltb_spec 0 (o + W - 64)); [|eauto].
    rewrite (to_u32_small (s + 1)) by lia.
    destruct (lookup_lt_is_Some_2 m (Z.to_nat (s + 1))) as [w1 ->]; [lia|].
    eauto.
Qed.

Lemma u64_bits x :
  0 <= x -> (forall j, 64 <= j -> Z.testbit x j = false) -> u64 x.
Proof.
  intros Hx H. split; [exact Hx|]. apply nonneg_testbit_range; [lia|exact Hx|exact H].
Qed.

Lemma to_u64_u64 x : u64 (to_u64 x).
Proof. unfold u64, to_u64. apply Z.mod_pos_bound. lia. Qed.

Lemma shl64_u64 x n : u64 (shl64 x n).
Proof. apply to_u64_u64. Qed.

Lemma not64_u64 x : u64 (not64 x).
Proof. apply to_u64_u64. Qed.

Lemma land_u64_l w k : u64 w -> 0 <= k -> u64 (Z.land w k).
Proof.
  intros Hw Hk. apply u64_bits.
  - apply Z.land_nonneg. left. apply Hw.
  - intros j Hj. rewrite Z.land_spec, (testbit_u64_high w) by assumption.
    reflexivity.
Qed.

Lemma lor_u64 a b : u64 a -> u64 b -> u64 (Z.lor a b).
Proof.
  intros Ha Hb. apply u64_bits.
  - apply Z.lor_nonneg. split; [apply Ha|apply Hb].
  - intros j Hj.
    rewrite Z.lor_spec, (testbit_u64_high a), (testbit_u64_high b) by assumption.
    reflexivity.
Qed.

Lemma shiftr_u64 v n : u64 v -> 0 <= n -> u64 (Z.shiftr v n).
Proof.
  intros Hv Hn. apply u64_bits.
  - apply Z.shiftr_nonneg. apply Hv.
  - intros j Hj. rewrite Z.shiftr_spec by lia.
    apply (testbit_u64_high v); [assumption|lia].
Qed.

(** The shape of the memory after a field write: the first word, and the
    second one when the field straddles. *)
Lemma field_write_shape W pos v m m' :
  0 <= W <= 64 -> 0 <= pos < 2 ^ 38 -> pos + W <= 2 ^ 38 ->
  field_write W pos v m = Some m' ->
  exists w, m !! Z.to_nat (pos / 64) = Some w /\
    let s := pos / 64 in
    let o := pos mod 64 in
    let w' := Z.lor (Z.land w (not64 (shl64 (Z.ones W) o))) (shl64 v o) in
    if 0 <? o + W - 64 then
      exists w1, m !! Z.to_nat (s + 1) = Some w1 /\
        m' = <[Z.to_nat (s + 1) :=
                 Z.lor (Z.land w1 (shl64 ones64 (o + W - 64)))
                       (Z.shiftr v (64 - o))]> (<[Z.to_nat s := w']> m)
    else m' = <[Z.to_nat s := w']> m.
Proof.
  intros HW Hp Hend. unfold field_write.
  destruct (field_geometry W pos) as (-> & -> & ->); [lia..|].
  assert (Ho : 0 <= pos mod 64 < 64) by (apply Z.mod_pos_bound; lia).
  assert (Hs : 0 <= pos / 64) by (apply Z.div_pos; lia).
  pose proof (Z.div_mod pos 64 ltac:(lia)) as Hpos.
  rewrite mask_low by lia.
  intros Hw.
  set (s := pos / 64) in *. set (o := pos mod 64) in *.
  unfold word_modify in Hw at 1.
  destruct (m !! Z.to_nat s) as [w|] eqn:Hs0; [|discriminate].
  assert (Hlen : (Z.to_nat s < length m)%nat) by (eapply lookup_lt_Some; eauto).
  exists w. split; [reflexivity|]. cbv zeta.
  unfold word_modify in Hw at 1.
  rewrite list_lookup_insert_eq, list_insert_insert_eq in Hw by assumption.
  destruct (Z.ltb_spec 0 (o + W - 64)) as [Hstr|Hfit].
  - rewrite (to_u32_small (s + 1)) in Hw by lia.
    unfold word_modify in Hw at 1.
    rewrite list_lookup_insert_ne in Hw by lia.
    destruct (m !! Z.to_nat (s + 1)) as [w1|] eqn:Hs1; [|discriminate].
    assert (Hlen1 : (Z.to_nat (s + 1) < length m)%nat)
      by (eapply lookup_lt_Some; eauto).
    exists w1. split; [reflexivity|].
    unfold word_modify in Hw.
    rewrite list_lookup_insert_eq, list_insert_insert_eq in Hw
      by (rewrite length_insert; assumption).
    replace (W - (o + W - 64)) with (64 - o) in Hw by lia.
    congruence.
  - congruence.
Qed.

Lemma word_modify_Some start f m w :
  m !! Z.to_nat start = Some w ->
  word_modify start f m = Some (<[Z.to_nat start := f w]> m).
Proof. intros H. unfold word_modify. rewrite H. reflexivity. Qed.

Lemma field_write_is_Some W pos v m :
  0 <= W <= 64 -> 0 <= pos < 2 ^ 38 -> pos + W <= 2 ^ 38 ->
  pos + Z.max 1 W <= 64 * Z.of_nat (length m) ->
  exists m', field_write W pos v m = Some m'.
Proof.
  intros HW Hp Hend Hcov. unfold field_write.
  destruct (field_geometry W pos) as (-> & -> & ->); [lia..|].
  assert (Ho : 0 <= pos mod 64 < 64) by (apply Z.mod_pos_bound; lia).
  assert (Hs : 0 <= pos / 64) by (apply Z.div_pos; lia).
  pose proof (Z.div_mod pos 64 ltac:(lia)) as Hpos.
  set (s := pos / 64) in *. set (o := pos mod 64) in *.
  assert (Hlen : (Z.to_nat s < length m)%nat) by lia.
  destruct (lookup_lt_is_Some_2 m (Z.to_nat s) Hlen) as [w Hw].
  rewrite (word_modify_Some _ _ _ _ Hw).
  erewrite word_modify_Some by (apply list_lookup_insert_eq; assumption).
  destruct (Z.ltb_spec 0 (o + W - 64)); [|eauto].
  rewrite (to_u32_small (s + 1)) by lia.
  assert (Hlen1 : (Z.to_nat (s + 1) < length m)%nat) by lia.
  destruct (lookup_lt_is_Some_2 m (Z.to_nat (s + 1)) Hlen1) as [w1 Hw1].
  erewrite word_modify_Some
    by (rewrite !list_lookup_insert_ne by lia; exact Hw1).
  erewrite word_modify_Some
    by (apply list_lookup_insert_eq; rewrite !length_insert; assumption).
  eauto.
Qed.

Lemma membit_at m k b :
  0 <= k -> 0 <= b < 64 ->
  membit m (64 * k + b) = Z.testbit (default 0 (m !! Z.to_nat k)) b.
Proof.
  intros Hk Hb. unfold membit.
  replace ((64 * k + b) / 64) with k by (Z.div_mod_to_equations; lia).
  replace ((64 * k + b) mod 64) with b by (Z.div_mod_to_equations; lia).
  reflexivity.
Qed.

Lemma field_write_length W pos v m m' :
  0 <= W <= 64 -> 0 <= pos < 2 ^ 38 -> pos + W <= 2 ^ 38 ->
  field_write W pos v m = Some m' -> length m' = length m.
Proof.
  intros HW Hp Hend Hw.
  destruct (field_write_shape _ _ _ _ _ HW Hp Hend Hw) as (w & _ & Hm').
  cbv zeta in Hm'. destruct (0 <? _).
  - destruct Hm' as (w1 & _ & ->). rewrite !length_insert. reflexivity.
  - subst m'. rewrite length_insert. reflexivity.
Qed.

Lemma field_write_u64 W pos v m m' :
  0 <= W <= 64 -> 0 <= pos < 2 ^ 38 -> pos + W <= 2 ^ 38 -> u64 v ->
  field_write W pos v m = Some m' -> Forall u64 m -> Forall u64 m'.
Proof.
  intros HW Hp Hend Hv Hw Hm.
  destruct (field_write_shape _ _ _ _ _ HW Hp Hend Hw) as (w & Hw0 & Hm').
  cbv zeta in Hm'.
  assert (Ho : 0 <= pos mod 64 < 64) by (apply Z.mod_pos_bound; lia).
  assert (u64 w) by exact (Forall_lookup_1 _ _ _ _ Hm Hw0).
  assert (Forall u64
            (<[Z.to_nat (pos / 64) :=
                 Z.lor (Z.land w (not64 (shl64 (Z.ones W) (pos mod 64))))
                       (shl64 v (pos mod 64))]> m)).
  { apply Forall_insert; [assumption|]. apply lor_u64; [|apply shl64_u64].
    apply land_u64_l; [assumption|apply not64_u64]. }
  destruct (0 <? _).
  - destruct Hm' as (w1 & Hw1 & ->).
    assert (u64 w1) by exact (Forall_lookup_1 _ _ _ _ Hm Hw1).
    apply Forall_insert; [assumption|].
    apply lor_u64; [|apply shiftr_u64; [assumption|lia]].
    apply land_u64_l; [assumption|apply shl64_u64].
  - subst m'. assumption.
Qed.

Lemma field_write_bits W pos v m m' :
  0 <= W <= 64 -> 0 <= pos < 2 ^ 38 -> pos + W <= 2 ^ 38 -> 0 <= v < 2 ^ W ->
  field_write W pos v m = Some m' ->
  forall n, 0 <= n ->
    membit m' n =
      if (pos <=? n) && (n <? pos + W) then Z.testbit v (n - pos) else membit m n.
Proof.
  intros HW Hp Hend Hv Hw n Hn.
  destruct (field_write_shape _ _ _ _ _ HW Hp Hend Hw) as (w & Hw0 & Hm').
  cbv zeta in Hm'.
  assert (Ho : 0 <= pos mod 64 < 64) by (apply Z.mod_pos_bound; lia).
  assert (Hs : 0 <= pos / 64) by (apply Z.div_pos; lia).
  pose proof (Z.div_mod pos 64 ltac:(lia)) as Hpos.
  assert (Hb : 0 <= n mod 64 < 64) by (apply Z.mod_pos_bound; lia).
  assert (Hk : 0 <= n / 64) by (apply Z.div_pos; lia).
  pose proof (Z.div_mod n 64 ltac:(lia)) as Hnk.
  set (s := pos / 64) in *. set (o := pos mod 64) in *.
  set (k := n / 64) in *. set (b := n mod 64) in *.
  assert (Hlen : (Z.to_nat s < length m)%nat) by (eapply lookup_lt_Some; eauto).
  assert (Hvhigh : forall j, W <= j -> Z.testbit v j = false).
  { intros j Hj. apply (testbit_high v W); lia. }
  rewrite Hnk, !membit_at by lia.
  replace (64 * k + b - pos) with (64 * (k - s) + (b - o)) by lia.
  destruct (Z.ltb_spec 0 (o + W - 64)) as [Hstr|Hfit].
  - destruct Hm' as (w1 & Hw1 & ->).
    assert (Hlen1 : (Z.to_nat (s + 1) < length m)%nat)
      by (eapply lookup_lt_Some; eauto).
    destruct (Z.eq_dec k (s + 1)) as [->|Hk1].
    + rewrite list_lookup_insert_eq by (rewrite length_insert; assumption).
      rewrite Hw1. simpl. bits.
      replace (64 * (s + 1 - s) + (b - o)) with (b + (64 - o)) by lia.
      destruct (Z.ltb_spec b (o + W - 64)).
      * close_bits.
      * rewrite (Hvhigh (b + (64 - o))) by lia. close_bits.
    + rewrite list_lookup_insert_ne by lia.
      destruct (Z.eq_dec k s) as [->|Hk0].
      * rewrite list_lookup_insert_eq by assumption.
        rewrite Hw0. simpl. bits.
        replace (64 * (s - s) + (b - o)) with (b - o) by lia.
        destruct (Z.ltb_spec b o).
        -- rewrite (Z.testbit_neg_r v (b - o)) by lia. close_bits.
        -- close_bits.
      * rewrite list_lookup_insert_ne by lia. close_bits.
  - subst m'.
    destruct (Z.eq_dec k s) as [->|Hk0].
    + rewrite list_lookup_insert_eq by assumption.
      rewrite Hw0. simpl. bits.
      replace (64 * (s - s) + (b - o)) with (b - o) by lia.
      destruct (Z.ltb_spec b o).
      * rewrite (Z.testbit_neg_r v (b - o)) by lia. close_bits.
      * destruct (Z.ltb_spec (b - o) W).
        -- close_bits.
        -- rewrite (Hvhigh (b - o)) by lia. close_bits.
    + rewrite list_lookup_insert_ne by lia. close_bits.
Qed.

(** ** The accessors are instances of the field functions *)

Section Accessors.
Context {K : Type} (L CL : Z).

Lemma bind_mem_modify {B} start f (k : unit -> M K B) (t0 : Table K) :
  bind (mem_modify start f) k t0 =
  match word_modify start f (mem t0) with
  | Some m' => k tt (set_mem m' t0)
  | None => Undef OutOfRange
  end.
Proof.
  unfold bind, mem_modify, word_modify. destruct (mem t0 !! _); reflexivity.
Qed.

(** The four read-modify-write statements of a setter are [field_write]. *)
Lemma write_body {B} (k : unit -> M K B) (t0 : Table K) W pos v :
  (bind (mem_modify (to_u32 (pos / 64))
           (fun w => Z.land w (not64 (shl64 (not64 (shl64 ones64 W)) (to_u8 (pos mod 64))))))
     (fun _ =>
        bind (mem_modify (to_u32 (pos / 64))
                (fun w => Z.lor w (shl64 v (to_u8 (pos mod 64)))))
          (fun _ =>
             bind
               (if 0 <? to_char (to_u8 (pos mod 64) + W - 64) then
                  bind (mem_modify (to_u32 (to_u32 (pos / 64) + 1))
                          (fun w => Z.land w (shl64 ones64 (to_char (to_u8 (pos mod 64) + W - 64)))))
                    (fun _ =>
                       mem_modify (to_u32 (to_u32 (pos / 64) + 1))
                         (fun w => Z.lor w (Z.shiftr v (W - to_char (to_u8 (pos mod 64) + W - 64)))))
                else ret tt)
               k))) t0 =
  match field_write W pos v (mem t0) with
  | Some m' => k tt (set_mem m' t0)
  | None => Undef OutOfRange
  end.
Proof.
  unfold field_write. rewrite bind_mem_modify.
  destruct (word_modify _ _ (mem t0)) as [m1|]; [|reflexivity].
  rewrite bind_mem_modify. cbn [mem set_mem].
  destruct (word_modify _ _ m1) as [m2|]; [|reflexivity].
  destruct (0 <? _); [|reflexivity].
  unfold bind at 1. rewrite bind_mem_modify. cbn [mem set_mem].
  destruct (word_modify _ _ m2) as [m3|]; [|reflexivity].
  unfold mem_modify, word_modify. cbn [mem set_mem].
  destruct (m3 !! _); reflexivity.
Qed.

Lemma lock_incr_twice (t : Table K) i c m' :
  lock t !! Z.to_nat i = Some c ->
  lock_incr i (set_mem m' (set_lock (<[Z.to_nat i := to_u8 (c + 1)]> (lock t)) t)) =
  Ret tt (written t i c m').
Proof.
  intros Hc. unfold lock_incr. cbn [lock set_mem set_lock].
  rewrite list_lookup_insert_eq by (eapply lookup_lt_Some; eauto).
  unfold written, set_lock, set_mem. cbn [lock mem ma mb hab hd versions].
  rewrite list_insert_insert_eq. reflexivity.
Qed.

Lemma memSet_field index value (t : Table K) :
  memSet L CL index value t =
  if VCL L CL =? 0 then Ret tt t else
  match lock t !! Z.to_nat (Z.land index 8191) with
  | None => Undef OutOfRange
  | Some c =>
      match field_write (VCL L CL) (to_u64 (index * VCL L CL)) (Z.land value (VCMASK L CL)) (mem t) with
      | None => Undef OutOfRange
      | Some m' => Ret tt (written t (Z.land index 8191) c m')
      end
  end.
Proof.
  unfold memSet. destruct (VCL L CL =? 0); [reflexivity|].
  unfold bind at 1. unfold lock_incr at 1.
  destruct (lock t !! _) as [c|] eqn:Hc; [|reflexivity].
  cbv zeta. unfold VCMASK. rewrite write_body. cbn [mem set_lock].
  destruct (field_write _ _ _ _) as [m'|]; [|reflexivity].
  apply lock_incr_twice. exact Hc.
Qed.

Lemma memValueSet_field index value (t : Table K) :
  memValueSet L CL index value t =
  if L =? 0 then Ret tt t else
  match lock t !! Z.to_nat (Z.land index 8191) with
  | None => Undef OutOfRange
  | Some c =>
      match field_write L (to_u64 (index * VCL L CL + CL)) (Z.land value (VMASK L)) (mem t) with
      | None => Undef OutOfRange
      | Some m' => Ret tt (written t (Z.land index 8191) c m')
      end
  end.
Proof.
  unfold memValueSet. destruct (L =? 0); [reflexivity|].
  unfold bind at 1. unfold lock_incr at 1.
  destruct (lock t !! _) as [c|] eqn:Hc; [|reflexivity].
  cbv zeta. unfold VMASK. rewrite write_body. cbn [mem set_lock].
  destruct (field_write _ _ _ _) as [m'|]; [|reflexivity].
  apply lock_incr_twice. exact Hc.
Qed.

Lemma memGet_field index (t : Table K) :
  memGet L CL index t =
  match field_read (VCL L CL) (to_u64 (index * VCL L CL)) (mem t) with
  | Some r => Ret r t
  | None => Undef OutOfRange
  end.
Proof.
  unfold memGet, field_read, bind, mem_at, ret. cbv zeta.
  destruct (mem t !! _) as [w|]; [|reflexivity].
  destruct (0 <? _); [|reflexivity].
  destruct (mem t !! _); reflexivity.
Qed.

Lemma memValueGet_field index (t : Table K) :
  memValueGet L CL index t =
  if L =? 0 then Ret 0 t else
  match field_read L (to_u64 (index * VCL L CL + CL)) (mem t) with
  | Some r => Ret r t
  | None => Undef OutOfRange
  end.
Proof.
  unfold memValueGet. destruct (L =? 0); [reflexivity|].
  unfold field_read, bind, mem_at, ret. cbv zeta.
  destruct (mem t !! _) as [w|]; [|reflexivity].
  destruct (0 <? _); [|reflexivity].
  destruct (mem t !! _); reflexivity.
Qed.

End Accessors.

Lemma field_read_nonneg W pos m r : field_read W pos m = Some r -> 0 <= r.
Proof.
  unfold field_read.
  destruct (m !! _) as [w|]; [|discriminate].
  assert (Hland : forall a x, 0 <= Z.land a (not64 x)).
  { intros a x. apply Z.land_nonneg. right. apply not64_u64. }
  destruct (0 <? _).
  - destruct (m !! _) as [w1|]; [|discriminate]. intros [= <-].
    apply Z.lor_nonneg. split; [apply Hland|apply shl64_u64].
  - intros [= <-]. apply Hland.
Qed.

Lemma field_read_range W pos m r :
  0 <= W <= 64 -> 0 <= pos < 2 ^ 38 -> pos + W <= 2 ^ 38 ->
  field_read W pos m = Some r -> 0 <= r < 2 ^ W.
Proof.
  intros HW Hp Hend Hr. split; [eapply field_read_nonneg; eauto|].
  apply nonneg_testbit_range; [lia|eapply field_read_nonneg; eauto|].
  intros j Hj. rewrite (field_read_bits_gen W pos m r) by (try assumption; lia).
  destruct (Z.ltb_spec j W); [lia|]. cbn [andb]. apply andb_false_r.
Qed.

(** A read depends on the bits of the field only. *)
Lemma field_read_ext W pos m1 m2 r1 r2 :
  0 <= W <= 64 -> 0 <= pos < 2 ^ 38 -> pos + W <= 2 ^ 38 ->
  field_read W pos m1 = Some r1 -> field_read W pos m2 = Some r2 ->
  (forall n, pos <= n < pos + W -> membit m1 n = membit m2 n) ->
  r1 = r2.
Proof.
  intros HW Hp Hend H1 H2 Hbits. apply Z.bits_inj'. intros j Hj.
  rewrite (field_read_bits_gen W pos m1 r1), (field_read_bits_gen W pos m2 r2)
    by (try assumption; lia).
  destruct (Z.ltb_spec j W); [|reflexivity].
  rewrite Hbits by lia. reflexivity.
Qed.

Lemma field_read_after_write W pos v m m' :
  0 <= W < 64 -> 0 <= pos < 2 ^ 38 -> pos + W <= 2 ^ 38 ->
  pos + Z.max 1 W <= 64 * Z.of_nat (length m) ->
  0 <= v < 2 ^ W ->
  field_write W pos v m = Some m' ->
  field_read W pos m' = Some v.
Proof.
  intros HW Hp Hend Hcov Hv Hw.
  assert (HW' : 0 <= W <= 64) by lia.
  destruct (field_read_is_Some W pos m') as [r Hr]; try assumption.
  { rewrite (field_write_length W pos v m m'); assumption. }
  rewrite Hr. f_equal. apply Z.bits_inj'. intros j Hj.
  rewrite (field_read_bits W pos m' r) by (try assumption; lia).
  destruct (Z.ltb_spec j W) as [HjW|HjW].
  - rewrite (field_write_bits W pos v m m') by (try assumption; lia).
    replace (pos + j - pos) with j by lia.
    destruct (Z.leb_spec pos (pos + j)); [|lia].
    destruct (Z.ltb_spec (pos + j) (pos + W)); [|lia]. reflexivity.
  - symmetry. apply (testbit_high v W); lia.
Qed.

(** A write leaves every field that does not overlap it as it was. *)
Lemma field_read_frame W pos v m m' W2 pos2 :
  0 <= W <= 64 -> 0 <= pos < 2 ^ 38 -> pos + W <= 2 ^ 38 ->
  0 <= v < 2 ^ W ->
  field_write W pos v m = Some m' ->
  0 <= W2 <= 64 -> 0 <= pos2 < 2 ^ 38 -> pos2 + W2 <= 2 ^ 38 ->
  pos2 + Z.max 1 W2 <= 64 * Z.of_nat (length m) ->
  pos2 + W2 <= pos \/ pos + W <= pos2 ->
  field_read W2 pos2 m' = field_read W2 pos2 m.
Proof.
  intros HW Hp Hend Hv Hw HW2 Hp2 Hend2 Hcov2 Hdisj.
  destruct (field_read_is_Some W2 pos2 m) as [r Hr]; try assumption.
  destruct (field_read_is_Some W2 pos2 m') as [r' Hr']; try assumption.
  { rewrite (field_write_length W pos v m m'); assumption. }
  rewrite Hr, Hr'. f_equal.
  apply (field_read_ext W2 pos2 m' m); try assumption.
  intros n Hn. rewrite (field_write_bits W pos v m m') by (try assumption; lia).
  destruct (Z.leb_spec pos n); destruct (Z.ltb_spec n (pos + W));
    simpl; try reflexivity; lia.
Qed.

(** Two memories of [uint64_t] words with the same bits are equal. *)
Lemma mem_ext m1 m2 :
  length m1 = length m2 -> Forall u64 m1 -> Forall u64 m2 ->
  (forall n, 0 <= n -> membit m1 n = membit m2 n) -> m1 = m2.
Proof.
  intros Hlen H1 H2 Hbits. apply list_eq. intros k.
  destruct (m1 !! k) as [w1|] eqn:E1.
  - assert (Hk : (k < length m2)%nat)
      by (rewrite <- Hlen; eapply lookup_lt_Some; eauto).
    destruct (lookup_lt_is_Some_2 m2 k Hk) as [w2 E2]. rewrite E2. f_equal.
    pose proof (Forall_lookup_1 _ _ _ _ H1 E1) as Hw1.
    pose proof (Forall_lookup_1 _ _ _ _ H2 E2) as Hw2.
    apply Z.bits_inj'. intros b Hb.
    destruct (Z.lt_ge_cases b 64) as [Hlt|Hge].
    + specialize (Hbits (64 * Z.of_nat k + b) ltac:(lia)).
      rewrite !membit_at, Nat2Z.id, E1, E2 in Hbits by lia. exact Hbits.
    + rewrite (testbit_u64_high w1), (testbit_u64_high w2) by assumption.
      reflexivity.
  - symmetry. apply lookup_ge_None. rewrite <- Hlen.
    apply lookup_ge_None. exact E1.
Qed.

Lemma land_8191 index : Z.land index 8191 = index mod 8192.
Proof. change 8191 with (Z.ones 13). rewrite Z.land_ones by lia. reflexivity. Qed.

Lemma land_8191_range index : 0 <= Z.land index 8191 < 8192.
Proof. rewrite land_8191. apply Z.mod_pos_bound. lia. Qed.

(** ** Slots *)

Section Slots.
Context {K : Type} (L CL : Z).

Lemma slot_pos index :
  wf_cfg L CL -> 0 <= index < 2 ^ 32 ->
  to_u64 (index * VCL L CL) = index * VCL L CL /\
  0 <= index * VCL L CL < 2 ^ 38 /\
  index * VCL L CL + VCL L CL <= 2 ^ 38.
Proof.
  unfold wf_cfg, VCL. intros (HL & HC & HV) Hi.
  assert (0 <= index * (L + CL) < 2 ^ 38) by nia.
  rewrite to_u64_small by lia. repeat split; try lia. nia.
Qed.

Lemma value_pos index :
  wf_cfg L CL -> 1 <= L -> 0 <= index < 2 ^ 32 ->
  to_u64 (index * VCL L CL + CL) = index * VCL L CL + CL /\
  0 <= index * VCL L CL + CL < 2 ^ 38 /\
  index * VCL L CL + CL + L <= 2 ^ 38.
Proof.
  unfold wf_cfg, VCL. intros (HL & HC & HV) HL1 Hi.
  assert (0 <= index * (L + CL) + CL < 2 ^ 38) by nia.
  rewrite to_u64_small by lia. repeat split; try lia. nia.
Qed.

Lemma covers_slot_in_mem (t : Table K) index :
  wf_cfg L CL -> 1 <= VCL L CL -> mem_covers L CL t ->
  0 <= index < ma t + mb t -> slot_in_mem L CL t index.
Proof.
  unfold wf_cfg, mem_covers, slot_in_mem. intros (HL & HC & HV) H1 Hcov Hi.
  rewrite Z.max_r by lia. nia.
Qed.

Lemma lock_lookup (t : Table K) index :
  Z.of_nat (length (lock t)) = 8192 ->
  exists c, lock t !! Z.to_nat (Z.land index 8191) = Some c.
Proof.
  intros Hlen. apply lookup_lt_is_Some_2.
  pose proof (land_8191_range index). lia.
Qed.

Lemma VMASK_ones : wf_cfg L CL -> VMASK L = Z.ones L.
Proof. unfold wf_cfg, VCL, VMASK. intros (? & ? & ?). apply mask_low. lia. Qed.

Lemma VCMASK_ones : wf_cfg L CL -> VCMASK L CL = Z.ones (VCL L CL).
Proof. unfold wf_cfg, VCL, VCMASK. intros (? & ? & ?). apply mask_low. lia. Qed.

(** A completed [memValueSet]: the field write that it performs. *)
Lemma memValueSet_written (t : Table K) index value :
  wf_cfg L CL -> 1 <= L -> 0 <= index < 2 ^ 32 ->
  Z.of_nat (length (lock t)) = 8192 -> slot_in_mem L CL t index ->
  exists c m',
    lock t !! Z.to_nat (Z.land index 8191) = Some c /\
    field_write L (index * VCL L CL + CL) (Z.land value (Z.ones L)) (mem t) = Some m' /\
    memValueSet L CL index value t = Ret tt (written t (Z.land index 8191) c m').
Proof.
  intros Hcfg HL Hi Hlock Hin.
  destruct (value_pos index Hcfg HL Hi) as (Hpos & Hp & Hend).
  destruct (lock_lookup t index Hlock) as [c Hc].
  destruct (field_write_is_Some L (index * VCL L CL + CL)
              (Z.land value (Z.ones L)) (mem t)) as [m' Hm'];
    try assumption.
  { unfold wf_cfg, VCL in *. lia. }
  { unfold slot_in_mem, wf_cfg, VCL in *. lia. }
  exists c, m'. repeat split; try assumption.
  rewrite memValueSet_field, Hpos, Hc, (VMASK_ones Hcfg), Hm'.
  destruct (Z.eqb_spec L 0); [lia|reflexivity].
Qed.

Lemma memValueGet_read (t : Table K) index :
  wf_cfg L CL -> 1 <= L -> 0 <= index < 2 ^ 32 ->
  memValueGet L CL index t =
  match field_read L (index * VCL L CL + CL) (mem t) with
  | Some r => Ret r t
  | None => Undef OutOfRange
  end.
Proof.
  intros Hcfg HL Hi.
  destruct (value_pos index Hcfg HL Hi) as (Hpos & Hp & Hend).
  rewrite memValueGet_field, Hpos.
  destruct (Z.eqb_spec L 0); [lia|reflexivity].
Qed.

Lemma memGet_read (t : Table K) index :
  wf_cfg L CL -> 0 <= index < 2 ^ 32 ->
  memGet L CL index t =
  match field_read (VCL L CL) (index * VCL L CL) (mem t) with
  | Some r => Ret r t
  | None => Undef OutOfRange
  end.
Proof.
  intros Hcfg Hi.
  destruct (slot_pos index Hcfg Hi) as (Hpos & Hp & Hend).
  rewrite memGet_field, Hpos. reflexivity.
Qed.

Lemma memGet_is_Ret (t : Table K) index :
  wf_cfg L CL -> 0 <= index < 2 ^ 32 -> slot_in_mem L CL t index ->
  exists r, field_read (VCL L CL) (index * VCL L CL) (mem t) = Some r /\
            memGet L CL index t = Ret r t /\ 0 <= r < 2 ^ VCL L CL.
Proof.
  intros Hcfg Hi Hin.
  destruct (slot_pos index Hcfg Hi) as (Hpos & Hp & Hend).
  assert (HV : 0 <= VCL L CL <= 64) by (unfold wf_cfg, VCL in *; lia).
  destruct (field_read_is_Some (VCL L CL) (index * VCL L CL) (mem t))
    as [r Hr]; [assumption..|].
  exists r. split; [assumption|]. split.
  - rewrite memGet_read, Hr by assumption. reflexivity.
  - eapply field_read_range; eauto.
Qed.

Lemma memValueGet_is_Ret (t : Table K) index :
  wf_cfg L CL -> 1 <= L -> 0 <= index < 2 ^ 32 -> slot_in_mem L CL t index ->
  exists r, field_read L (index * VCL L CL + CL) (mem t) = Some r /\
            memValueGet L CL index t = Ret r t /\ 0 <= r < 2 ^ L.
Proof.
  intros Hcfg HL Hi Hin.
  destruct (value_pos index Hcfg HL Hi) as (Hpos & Hp & Hend).
  assert (HV : 0 <= L <= 64) by (unfold wf_cfg, VCL in *; lia).
  destruct (field_read_is_Some L (index * VCL L CL + CL) (mem t))
    as [r Hr]; try assumption.
  { unfold slot_in_mem, wf_cfg, VCL in *. lia. }
  exists r. split; [assumption|]. split.
  - rewrite memValueGet_read, Hr by assumption. reflexivity.
  - eapply field_read_range; eauto.
Qed.
End Slots.

Lemma land_ones_small v n : 0 <= v < 2 ^ n -> Z.land v (Z.ones n) = v.
Proof.
  intros Hv. destruct (Z.le_gt_cases 0 n).
  - rewrite Z.land_ones by lia. apply Z.mod_small. exact Hv.
  - rewrite Z.pow_neg_r in Hv by lia. lia.
Qed.

Lemma land_lxor_ones x old n :
  0 <= n -> 0 <= old < 2 ^ n ->
  Z.land (Z.lxor x old) (Z.ones n) = Z.lxor old (x mod 2 ^ n).
Proof.
  intros Hn Hold. apply Z.bits_inj'. intros j Hj.
  rewrite <- (Z.land_ones x n) by lia. bits.
  destruct (Z.ltb_spec j n).
  - destruct (Z.leb_spec 0 j); [|lia]. simpl.
    rewrite !andb_true_r. apply xorb_comm.
  - rewrite (testbit_high old n) by lia.
    rewrite !andb_false_r. reflexivity.
Qed.

Lemma lxor_range a b n : 0 <= n -> 0 <= a < 2 ^ n -> 0 <= b < 2 ^ n -> 0 <= Z.lxor a b < 2 ^ n.
Proof.
  intros Hn Ha Hb.
  assert (0 <= Z.lxor a b) by (apply Z.lxor_nonneg; lia).
  split; [assumption|]. apply nonneg_testbit_range; [lia|assumption|].
  intros j Hj. rewrite Z.lxor_spec, (testbit_high a n), (testbit_high b n) by lia.
  reflexivity.
Qed.

Section Repair.
Context {K : Type} (L CL : Z).

Lemma written_mem (t : Table K) i c m' : mem (written t i c m') = m'.
Proof. reflexivity. Qed.

Lemma written_lock_length (t : Table K) i c m' :
  length (lock (written t i c m')) = length (lock t).
Proof. unfold written. cbn [lock set_lock]. apply length_insert. Qed.

Lemma written_ma (t : Table K) i c m' : ma (written t i c m') = ma t.
Proof. reflexivity. Qed.

Lemma written_mb (t : Table K) i c m' : mb (written t i c m') = mb t.
Proof. reflexivity. Qed.

Lemma slot_in_mem_length (t t' : Table K) index :
  length (mem t') = length (mem t) ->
  slot_in_mem L CL t index -> slot_in_mem L CL t' index.
Proof. unfold slot_in_mem. intros ->. auto. Qed.

(** A completed [fixSingle]: the value read and the field write. *)
Lemma fixSingle_written (t : Table K) index x :
  wf_cfg L CL -> 1 <= L -> 0 <= index < 2 ^ 32 ->
  Z.of_nat (length (lock t)) = 8192 -> slot_in_mem L CL t index ->
  exists old c m',
    field_read L (index * VCL L CL + CL) (mem t) = Some old /\
    0 <= old < 2 ^ L /\
    lock t !! Z.to_nat (Z.land index 8191) = Some c /\
    field_write L (index * VCL L CL + CL) (Z.lxor old (x mod 2 ^ L)) (mem t)
      = Some m' /\
    fixSingle L CL index x t = Ret tt (written t (Z.land index 8191) c m').
Proof.
  intros Hcfg HL Hi Hlock Hin.
  destruct (memValueGet_is_Ret L CL t index Hcfg HL Hi Hin)
    as (old & Hold & Hget & Hrange).
  destruct (memValueSet_written L CL t index (Z.lxor x old) Hcfg HL Hi Hlock Hin)
    as (c & m' & Hc & Hm' & Hset).
  rewrite land_lxor_ones in Hm' by lia.
  exists old, c, m'. repeat split; try assumption; try lia.
  unfold fixSingle, bind. rewrite Hget. exact Hset.
Qed.

Lemma fixSingle_L0 (t : Table K) index x :
  L = 0 -> fixSingle L CL index x t = Ret tt t.
Proof.
  intros ->. unfold fixSingle, bind, memValueGet, memValueSet. reflexivity.
Qed.
End Repair.

(** ** Round trip and repair *)

Lemma u64_small v n : 0 <= v < 2 ^ n -> n <= 64 -> u64 v.
Proof.
  intros Hv Hn. unfold u64. split; [lia|].
  destruct (Z.le_gt_cases 0 n).
  - apply Z.lt_le_trans with (2 ^ n); [lia|]. apply Z.pow_le_mono_r; lia.
  - rewrite Z.pow_neg_r in Hv by lia. lia.
Qed.

Section FieldStoreClaims.
Context {K : Type} (L CL : Z).

(** X16. With a value sub-field of fewer than 64 bits: for every slot index
    below [ma + mb] of a table whose memory covers all slots and every [v]
    in [[0, 2^L)], [memValueSet index v] completes and a following
    [memValueGet index] returns exactly [v]. The geometry of the field is
    not restricted: the value sub-field may lie in one word or straddle
    two. *)
Theorem memValueSet_memValueGet_roundtrip (t : Table K) (index v : Z) :
  wf_cfg L CL -> L < 64 ->
  Z.of_nat (length (lock t)) = 8192 ->
  0 <= index < 2 ^ 32 -> index < ma t + mb t -> mem_covers L CL t ->
  0 <= v < 2 ^ L ->
  exists t', memValueSet L CL index v t = Ret tt t' /\
             memValueGet L CL index t' = Ret v t'.
Proof.
  intros Hcfg HL64 Hlock Hi Hlt Hcov Hv.
  assert (HLs : 0 <= L < 64) by (unfold wf_cfg in Hcfg; lia).
  destruct (Z.eq_dec L 0) as [HL0|HL0].
  - exists t. subst L. assert (v = 0) as -> by lia.
    unfold memValueSet, memValueGet. split; reflexivity.
  - assert (HL : 1 <= L) by (unfold wf_cfg in Hcfg; lia).
    assert (Hin : slot_in_mem L CL t index).
    { apply covers_slot_in_mem; try assumption; [|lia].
      unfold wf_cfg, VCL in *. lia. }
    destruct (memValueSet_written L CL t index v Hcfg HL Hi Hlock Hin)
      as (c & m' & Hc & Hm' & Hset).
    destruct (value_pos L CL index Hcfg HL Hi) as (Hpos & Hp & Hend).
    rewrite land_ones_small in Hm' by assumption.
    eexists. split; [exact Hset|].
    rewrite memValueGet_read, written_mem by assumption.
    rewrite (field_read_after_write L _ v (mem t) m'); try assumption;
      try reflexivity.
    unfold slot_in_mem, wf_cfg, VCL in *. lia.
Qed.

(** X18. With a value sub-field of fewer than 64 bits: for every in-bounds
    slot and every 64-bit [x], two calls of [fixSingle index x] in
    succession complete, the value sub-field of the slot is again what it
    was, and the packed memory as a whole is the one before the first
    call. *)
Theorem fixSingle_twice_restores (t : Table K) (index x : Z) :
  wf_cfg L CL -> L < 64 ->
  Forall u64 (mem t) -> Z.of_nat (length (lock t)) = 8192 ->
  0 <= index < 2 ^ 32 -> index < ma t + mb t -> mem_covers L CL t ->
  0 <= x < 2 ^ 64 ->
  exists t1 t2 v,
    fixSingle L CL index x t = Ret tt t1 /\
    fixSingle L CL index x t1 = Ret tt t2 /\
    memValueGet L CL index t = Ret v t /\
    memValueGet L CL index t2 = Ret v t2 /\
    mem t2 = mem t.
Proof.
  intros Hcfg HL64 Hu64 Hlock Hi Hlt Hcov Hx.
  destruct (Z.eq_dec L 0) as [HL0|HL0].
  - exists t, t, 0. rewrite !fixSingle_L0 by assumption. subst L.
    unfold memValueGet. repeat split; reflexivity.
  - assert (HL : 1 <= L) by (unfold wf_cfg in Hcfg; lia).
    assert (HW : 0 <= L <= 64) by (unfold wf_cfg, VCL in Hcfg; lia).
    assert (HLs : 0 <= L < 64) by lia.
    assert (Hin : slot_in_mem L CL t index).
    { apply covers_slot_in_mem; try assumption; [|lia].
      unfold wf_cfg, VCL in *. lia. }
    destruct (value_pos L CL index Hcfg HL Hi) as (Hpos & Hp & Hend).
    assert (Hcovf : index * VCL L CL + CL + Z.max 1 L
                    <= 64 * Z.of_nat (length (mem t))).
    { unfold slot_in_mem, wf_cfg, VCL in *. lia. }
    destruct (fixSingle_written L CL t index x Hcfg HL Hi Hlock Hin)
      as (old & c & m1 & Hold & Hrange & Hc & Hm1 & Hfix1).
    set (d := x mod 2 ^ L) in *.
    assert (Hd : 0 <= d < 2 ^ L) by (apply Z.mod_pos_bound; lia).
    assert (Hv1 : 0 <= Z.lxor old d < 2 ^ L) by (apply lxor_range; lia).
    pose proof (field_write_length L _ _ _ _ HW Hp Hend Hm1) as Hlen1.
    set (t1 := written t (Z.land index 8191) c m1) in *.
    assert (Hlock1 : Z.of_nat (length (lock t1)) = 8192).
    { unfold t1. rewrite written_lock_length. exact Hlock. }
    assert (Hin1 : slot_in_mem L CL t1 index).
    { apply (slot_in_mem_length L CL t); [exact Hlen1|exact Hin]. }
    destruct (fixSingle_written L CL t1 index x Hcfg HL Hi Hlock1 Hin1)
      as (old1 & c1 & m2 & Hold1 & Hrange1 & Hc1 & Hm2 & Hfix2).
    fold d in Hm2. unfold t1 in Hold1, Hm2. rewrite written_mem in Hold1, Hm2.
    rewrite (field_read_after_write L _ (Z.lxor old d) (mem t) m1) in Hold1
      by assumption.
    injection Hold1 as <-.
    replace (Z.lxor (Z.lxor old d) d) with old in Hm2
      by (rewrite Z.lxor_assoc, Z.lxor_nilpotent, Z.lxor_0_r; reflexivity).
    pose proof (field_write_length L _ _ _ _ HW Hp Hend Hm2) as Hlen2.
    assert (Hmem : m2 = mem t).
    { apply mem_ext.
      - congruence.
      - apply (field_write_u64 L (index * VCL L CL + CL) old m1 m2);
          try assumption; [apply (u64_small old L); lia|].
        apply (field_write_u64 L (index * VCL L CL + CL) (Z.lxor old d) (mem t) m1);
          try assumption.
        apply (u64_small _ L); lia.
      - assumption.
      - intros n Hn.
        rewrite (field_write_bits L (index * VCL L CL + CL) old m1 m2)
          by assumption.
        rewrite (field_write_bits L (index * VCL L CL + CL) (Z.lxor old d) (mem t) m1)
          by assumption.
        destruct (Z.leb_spec (index * VCL L CL + CL) n);
          destruct (Z.ltb_spec n (index * VCL L CL + CL + L));
          simpl; try reflexivity.
        rewrite (field_read_bits L (index * VCL L CL + CL) (mem t) old)
          by (try assumption; lia).
        replace (n - (index * VCL L CL + CL) <? L) with true
          by (symmetry; apply Z.ltb_lt; lia).
        simpl. f_equal. lia. }
    exists t1, (written t1 (Z.land index 8191) c1 m2), old.
    split; [exact Hfix1|]. split; [exact Hfix2|].
    rewrite !memValueGet_read, written_mem, Hmem, Hold by assumption.
    repeat split; reflexivity.
Qed.
End FieldStoreClaims.

Section ComponentFix.
Context {K : Type} (L CL : Z).

Lemma slots_disjoint i j :
  wf_cfg L CL -> 0 <= i -> 0 <= j -> i <> j ->
  j * VCL L CL + VCL L CL <= i * VCL L CL + CL \/
  i * VCL L CL + CL + L <= j * VCL L CL.
Proof.
  unfold wf_cfg, VCL. intros (HL & HC & HV) Hi Hj Hne.
  destruct (Z.lt_ge_cases j i); [left|right]; nia.
Qed.

Lemma values_disjoint i j :
  wf_cfg L CL -> 0 <= i -> 0 <= j -> i <> j ->
  j * VCL L CL + CL + L <= i * VCL L CL + CL \/
  i * VCL L CL + CL + L <= j * VCL L CL + CL.
Proof.
  unfold wf_cfg, VCL. intros (HL & HC & HV) Hi Hj Hne.
  destruct (Z.lt_ge_cases j i); [left|right]; nia.
Qed.

Lemma fixHalfTree_fields (indices : list Z) (d : Z) :
  wf_cfg L CL -> 1 <= L -> L < 64 -> NoDup indices ->
  forall t : Table K,
    Z.of_nat (length (lock t)) = 8192 ->
    Forall (fun i => 0 <= i < 2 ^ 32 /\ slot_in_mem L CL t i) indices ->
    exists t',
      fixHalfTreeByConnectedComponent L CL indices d t = Ret tt t' /\
      length (mem t') = length (mem t) /\
      (forall j old, 0 <= j < 2 ^ 32 -> slot_in_mem L CL t j ->
         field_read L (j * VCL L CL + CL) (mem t) = Some old ->
         field_read L (j * VCL L CL + CL) (mem t') =
           Some (if decide (j ∈ indices) then Z.lxor old (d mod 2 ^ L) else old)) /\
      (forall j, 0 <= j < 2 ^ 32 -> slot_in_mem L CL t j -> j ∉ indices ->
         field_read (VCL L CL) (j * VCL L CL) (mem t') =
         field_read (VCL L CL) (j * VCL L CL) (mem t)).
Proof.
  intros Hcfg HL HL64 Hnd.
  induction Hnd as [|i rest Hni Hnd IH]; intros t Hlock Hall.
  - exists t. split; [reflexivity|]. split; [reflexivity|]. split.
    + intros j old _ _ Hold. rewrite Hold.
      destruct (decide (j ∈ [])) as [Hin|_]; [|reflexivity].
      apply elem_of_nil in Hin. contradiction.
    + reflexivity.
  - apply Forall_cons in Hall as [[Hi Hin] Hall].
    assert (HW : 0 <= L <= 64) by (unfold wf_cfg, VCL in Hcfg; lia).
    assert (HLs : 0 <= L < 64) by lia.
    assert (HV : 0 <= VCL L CL <= 64) by (unfold wf_cfg, VCL in *; lia).
    destruct (value_pos L CL i Hcfg HL Hi) as (_ & Hp & Hend).
    destruct (fixSingle_written L CL t i d Hcfg HL Hi Hlock Hin)
      as (old_i & c & m1 & Hold_i & Hrange & Hc & Hm1 & Hfix).
    assert (Hd : 0 <= d mod 2 ^ L < 2 ^ L) by (apply Z.mod_pos_bound; lia).
    assert (Hv1 : 0 <= Z.lxor old_i (d mod 2 ^ L) < 2 ^ L)
      by (apply lxor_range; lia).
    pose proof (field_write_length L _ _ _ _ HW Hp Hend Hm1) as Hlen1.
    set (t1 := written t (Z.land i 8191) c m1) in *.
    assert (Hlock1 : Z.of_nat (length (lock t1)) = 8192).
    { unfold t1. rewrite written_lock_length. exact Hlock. }
    assert (Hall1 : Forall (fun i => 0 <= i < 2 ^ 32 /\ slot_in_mem L CL t1 i) rest).
    { eapply Forall_impl; [exact Hall|]. intros j [Hj Hjin]. split; [exact Hj|].
      apply (slot_in_mem_length L CL t); assumption. }
    destruct (IH t1 Hlock1 Hall1) as (t' & Hrun & Hlen' & Hval & Hframe).
    exists t'. split.
    { cbn [fixHalfTreeByConnectedComponent]. unfold bind. rewrite Hfix.
      exact Hrun. }
    split; [unfold t1 in Hlen'; rewrite written_mem in Hlen'; congruence|].
    assert (Hcovf : i * VCL L CL + CL + Z.max 1 L
                    <= 64 * Z.of_nat (length (mem t))).
    { unfold slot_in_mem, wf_cfg, VCL in *. lia. }
    split.
    + intros j old Hj Hjin Hold.
      assert (Hjin1 : slot_in_mem L CL t1 j)
        by (apply (slot_in_mem_length L CL t); assumption).
      destruct (Z.eq_dec j i) as [->|Hne].
      * assert (old = old_i) as -> by congruence.
        rewrite (Hval i (Z.lxor old_i (d mod 2 ^ L)) Hi Hjin1).
        -- destruct (decide (i ∈ rest)) as [Hir|_]; [contradiction|].
           destruct (decide (i ∈ i :: rest)) as [_|Hn]; [reflexivity|].
           exfalso. apply Hn. apply elem_of_cons. left. reflexivity.
        -- unfold t1. rewrite written_mem.
           apply (field_read_after_write L (i * VCL L CL + CL) _ (mem t) m1);
             assumption.
      * destruct (value_pos L CL j Hcfg HL Hj) as (_ & Hpj & Hendj).
        rewrite (Hval j old Hj Hjin1).
        -- destruct (decide (j ∈ rest)) as [Hjr|Hjr];
             destruct (decide (j ∈ i :: rest)) as [Hj'|Hj']; try reflexivity.
           ++ exfalso. apply Hj'. apply elem_of_cons. right. exact Hjr.
           ++ exfalso. apply elem_of_cons in Hj' as [?|?]; contradiction.
        -- unfold t1. rewrite written_mem, <- Hold.
           apply (field_read_frame L (i * VCL L CL + CL)
                    (Z.lxor old_i (d mod 2 ^ L)) (mem t) m1);
             try assumption.
           ++ unfold slot_in_mem, wf_cfg, VCL in *. lia.
           ++ apply values_disjoint; try assumption; lia.
    + intros j Hj Hjin Hjn.
      assert (Hjin1 : slot_in_mem L CL t1 j)
        by (apply (slot_in_mem_length L CL t); assumption).
      assert (Hne : i <> j).
      { intros ->. apply Hjn. apply elem_of_cons. left. reflexivity. }
      assert (Hjr : j ∉ rest).
      { intros Hjr. apply Hjn. apply elem_of_cons. right. exact Hjr. }
      destruct (slot_pos L CL j Hcfg Hj) as (_ & Hpj & Hendj).
      rewrite (Hframe j Hj Hjin1 Hjr). unfold t1. rewrite written_mem.
      apply (field_read_frame L (i * VCL L CL + CL)
               (Z.lxor old_i (d mod 2 ^ L)) (mem t) m1);
        try assumption.
      apply slots_disjoint; try assumption; lia.
Qed.

Lemma fixHalfTree_L0 (indices : list Z) (d : Z) (t : Table K) :
  L = 0 -> fixHalfTreeByConnectedComponent L CL indices d t = Ret tt t.
Proof.
  intros HL. induction indices as [|i rest IH]; [reflexivity|].
  cbn [fixHalfTreeByConnectedComponent]. unfold bind.
  rewrite fixSingle_L0 by assumption. exact IH.
Qed.

(** X17. With slots of fewer than 64 bits: for pairwise distinct in-bounds
    indices and a 32-bit [d], [fixHalfTreeByConnectedComponent indices d]
    completes; afterwards the value sub-field of each listed slot is its
    previous value XOR the low [L] bits of [d], the value sub-field of every
    other slot is as before, and so is the whole content of every slot that
    is not listed. *)
Theorem fixHalfTreeByConnectedComponent_xors (t : Table K) (indices : list Z) (d : Z) :
  wf_cfg L CL -> VCL L CL < 64 ->
  Z.of_nat (length (lock t)) = 8192 -> mem_covers L CL t ->
  NoDup indices ->
  Forall (fun i => 0 <= i < 2 ^ 32 /\ i < ma t + mb t) indices ->
  0 <= d < 2 ^ 32 ->
  exists t',
    fixHalfTreeByConnectedComponent L CL indices d t = Ret tt t' /\
    (forall j, 0 <= j < 2 ^ 32 -> j < ma t + mb t ->
       exists old,
         memValueGet L CL j t = Ret old t /\
         memValueGet L CL j t' =
           Ret (if decide (j ∈ indices) then Z.lxor old (d mod 2 ^ L) else old) t') /\
    (forall j, 0 <= j < 2 ^ 32 -> slot_in_mem L CL t j -> j ∉ indices ->
       exists s, memGet L CL j t = Ret s t /\ memGet L CL j t' = Ret s t').
Proof.
  intros Hcfg HV64 Hlock Hcov Hnd Hall Hd.
  assert (HL64 : L < 64) by (unfold wf_cfg, VCL in *; lia).
  destruct (Z.eq_dec L 0) as [HL0|HL0].
  - exists t. split; [apply fixHalfTree_L0; assumption|]. split.
    + intros j Hj Hlt. exists 0. subst L. unfold memValueGet. cbn [Z.eqb ret].
      split; [reflexivity|].
      destruct (decide (j ∈ indices)); [|reflexivity].
      rewrite Z.pow_0_r, Z.mod_1_r. reflexivity.
    + intros j Hj Hjin _.
      destruct (memGet_is_Ret L CL t j Hcfg Hj Hjin) as (s & _ & Hs & _).
      exists s. split; exact Hs.
  - assert (HL : 1 <= L) by (unfold wf_cfg in Hcfg; lia).
    assert (HV1 : 1 <= VCL L CL) by (unfold wf_cfg, VCL in *; lia).
    assert (Hall' : Forall (fun i => 0 <= i < 2 ^ 32 /\ slot_in_mem L CL t i) indices).
    { eapply Forall_impl; [exact Hall|]. intros j [Hj Hjlt]. split; [exact Hj|].
      apply covers_slot_in_mem; try assumption. lia. }
    destruct (fixHalfTree_fields indices d Hcfg HL HL64 Hnd t Hlock Hall')
      as (t' & Hrun & Hlen & Hval & Hframe).
    exists t'. split; [exact Hrun|]. split.
    + intros j Hj Hjlt.
      assert (Hjin : slot_in_mem L CL t j)
        by (apply covers_slot_in_mem; try assumption; lia).
      destruct (memValueGet_is_Ret L CL t j Hcfg HL Hj Hjin)
        as (old & Hold & Hget & _).
      exists old. split; [exact Hget|].
      rewrite memValueGet_read, (Hval j old Hj Hjin Hold) by assumption.
      reflexivity.
    + intros j Hj Hjin Hjn.
      destruct (memGet_is_Ret L CL t j Hcfg Hj Hjin) as (s & Hs & Hget & _).
      exists s. split; [exact Hget|].
      rewrite memGet_read, (Hframe j Hj Hjin Hjn), Hs by assumption.
      reflexivity.
Qed.
End ComponentFix.

(** ** Hash-to-bucket mapper *)

Lemma multiply_high_u32_shift x y :
  0 <= x < 2 ^ 32 -> 0 <= y < 2 ^ 32 ->
  multiply_high_u32 x y = Z.shiftr (x * y) 32.
Proof.
  intros Hx Hy. unfold multiply_high_u32.
  assert (0 <= x * y < 2 ^ 64) by nia.
  rewrite (to_u64_small (x * y)) by assumption.
  rewrite Z.shiftr_div_pow2 by lia.
  apply to_u32_small. split; [apply Z.div_pos; lia|].
  apply Z.div_lt_upper_bound; [lia|]. nia.
Qed.

Lemma multiply_high_u32_range x count :
  0 <= x < 2 ^ 32 -> 1 <= count < 2 ^ 32 ->
  0 <= multiply_high_u32 x count < count.
Proof.
  intros Hx Hc. rewrite multiply_high_u32_shift by lia.
  rewrite Z.shiftr_div_pow2 by lia. split; [apply Z.div_pos; nia|].
  apply Z.div_lt_upper_bound; [lia|]. nia.
Qed.

Section Mapper.
Context {K : Type}.

(** C7 (amended). For sizes [ma, mb >= 1]: the two mappers return
    [(x * count) >> 32], which lies in [[0, count)], for every 32-bit [x];
    [getIndices] yields [aInd] in [[0, ma)], computed from the low 32 bits of
    the hash; and, when [ma + mb <= 2^32], [bInd] in [[ma, ma + mb)], computed
    from the high 32 bits of the hash plus [ma]. *)
Theorem getIndices_ranges (t : Table K) (k : K) :
  1 <= ma t < 2 ^ 32 -> 1 <= mb t < 2 ^ 32 ->
  (forall x, 0 <= x < 2 ^ 32 ->
     fast_map_to_A t x = Z.shiftr (x * ma t) 32 /\
     0 <= fast_map_to_A t x < ma t /\
     fast_map_to_B t x = Z.shiftr (x * mb t) 32 /\
     0 <= fast_map_to_B t x < mb t) /\
  let hash := to_u64 (hab t k) in
  let aInd := fst (getIndices t k) in
  let bInd := snd (getIndices t k) in
  aInd = fast_map_to_A t (hash mod 2 ^ 32) /\ 0 <= aInd < ma t /\
  (ma t + mb t <= 2 ^ 32 ->
   bInd = fast_map_to_B t (Z.shiftr hash 32) + ma t /\
   ma t <= bInd < ma t + mb t).
Proof.
  intros Ha Hb. split.
  - intros x Hx. unfold fast_map_to_A, fast_map_to_B.
    rewrite !multiply_high_u32_shift by lia.
    pose proof (multiply_high_u32_range x (ma t) Hx Ha) as HA.
    pose proof (multiply_high_u32_range x (mb t) Hx Hb) as HB.
    rewrite multiply_high_u32_shift in HA, HB by lia. auto.
  - cbv zeta. unfold getIndices. cbn [fst snd].
    set (hash := to_u64 (hab t k)).
    assert (Hh : 0 <= hash < 2 ^ 64) by apply to_u64_u64.
    assert (Hlo : 0 <= to_u32 hash < 2 ^ 32)
      by (apply Z.mod_pos_bound; lia).
    assert (Hhi : 0 <= Z.shiftr hash 32 < 2 ^ 32).
    { rewrite Z.shiftr_div_pow2 by lia. split; [apply Z.div_pos; lia|].
      apply Z.div_lt_upper_bound; lia. }
    rewrite (to_u32_small (Z.shiftr hash 32)) by assumption.
    pose proof (multiply_high_u32_range _ (ma t) Hlo Ha) as HA.
    pose proof (multiply_high_u32_range _ (mb t) Hhi Hb) as HB.
    fold (fast_map_to_A t (to_u32 hash)) in HA.
    fold (fast_map_to_B t (Z.shiftr hash 32)) in HB.
    rewrite (to_u32_small (fast_map_to_A t _)) by lia.
    split; [reflexivity|]. split; [lia|]. intros Hsum.
    rewrite (to_u64_small (fast_map_to_B t _ + ma t)) by lia.
    rewrite (to_u32_small (fast_map_to_B t _ + ma t)) by lia.
    split; [reflexivity|lia].
Qed.
End Mapper.

Lemma bump_twice_even c : c mod 2 = 0 -> to_u8 (to_u8 (c + 1) + 1) mod 2 = 0.
Proof. unfold to_u8. intros Hc. Z.div_mod_to_equations. lia. Qed.

Lemma bump_twice c : to_u8 (to_u8 (c + 1) + 1) = (c + 2) mod 2 ^ 8.
Proof.
  unfold to_u8. rewrite Z.add_mod_idemp_l by lia. f_equal. lia.
Qed.

(** ** Version counters and lookup *)

Section Versions.
Context {K V : Type} (V_of_u64 : Z -> V) (L CL : Z).

Lemma written_stable (t : Table K) i c m' :
  lock t !! Z.to_nat i = Some c -> stable t -> stable (written t i c m').
Proof.
  intros Hc [Hlen Hev]. split.
  - rewrite written_lock_length. exact Hlen.
  - unfold all_even, written in *. cbn [lock set_lock set_mem].
    apply Forall_insert; [exact Hev|]. apply bump_twice_even.
    exact (Forall_lookup_1 _ _ _ _ Hev Hc).
Qed.

Lemma memSet_effect (t t' : Table K) index value :
  memSet L CL index value t = Ret tt t' ->
  (VCL L CL = 0 /\ t' = t) \/
  (VCL L CL <> 0 /\
   exists c m', lock t !! Z.to_nat (Z.land index 8191) = Some c /\
                t' = written t (Z.land index 8191) c m').
Proof.
  rewrite memSet_field. destruct (Z.eqb_spec (VCL L CL) 0) as [H0|H0].
  - intros [= <-]. left. auto.
  - destruct (lock t !! _) as [c|]; [|discriminate].
    destruct (field_write _ _ _ _) as [m'|]; [|discriminate].
    intros [= <-]. right. eauto.
Qed.

Lemma memValueSet_effect (t t' : Table K) index value :
  memValueSet L CL index value t = Ret tt t' ->
  (L = 0 /\ t' = t) \/
  (L <> 0 /\
   exists c m', lock t !! Z.to_nat (Z.land index 8191) = Some c /\
                t' = written t (Z.land index 8191) c m').
Proof.
  rewrite memValueSet_field. destruct (Z.eqb_spec L 0) as [H0|H0].
  - intros [= <-]. left. auto.
  - destruct (lock t !! _) as [c|]; [|discriminate].
    destruct (field_write _ _ _ _) as [m'|]; [|discriminate].
    intros [= <-]. right. eauto.
Qed.

Lemma memGet_state (t t' : Table K) index r :
  memGet L CL index t = Ret r t' -> t' = t.
Proof.
  rewrite memGet_field. destruct (field_read _ _ _); [|discriminate].
  intros [= _ <-]. reflexivity.
Qed.

Lemma memValueGet_state (t t' : Table K) index r :
  memValueGet L CL index t = Ret r t' -> t' = t.
Proof.
  rewrite memValueGet_field. destruct (L =? 0); [intros [= _ <-]; reflexivity|].
  destruct (field_read _ _ _); [|discriminate].
  intros [= _ <-]. reflexivity.
Qed.

Lemma memSet_stable (t t' : Table K) index value :
  memSet L CL index value t = Ret tt t' -> stable t -> stable t'.
Proof.
  intros H Hst. apply memSet_effect in H as [[_ ->]|(_ & c & m' & Hc & ->)];
    [assumption|]. apply written_stable; assumption.
Qed.

Lemma memValueSet_stable (t t' : Table K) index value :
  memValueSet L CL index value t = Ret tt t' -> stable t -> stable t'.
Proof.
  intros H Hst.
  apply memValueSet_effect in H as [[_ ->]|(_ & c & m' & Hc & ->)];
    [assumption|]. apply written_stable; assumption.
Qed.

Lemma fixSingle_stable (t t' : Table K) index x :
  fixSingle L CL index x t = Ret tt t' -> stable t -> stable t'.
Proof.
  unfold fixSingle, bind. destruct (memValueGet L CL index t) as [old t0| | |] eqn:Hget;
    try discriminate.
  apply memValueGet_state in Hget as ->. apply memValueSet_stable.
Qed.

Lemma fixHalfTree_stable indices d :
  forall t t' : Table K,
    fixHalfTreeByConnectedComponent L CL indices d t = Ret tt t' ->
    stable t -> stable t'.
Proof.
  induction indices as [|i rest IH]; intros t t'.
  - intros [= <-]. auto.
  - cbn [fixHalfTreeByConnectedComponent]. unfold bind.
    destruct (fixSingle L CL i d t) as [[] t1| | |] eqn:Hfix; try discriminate.
    intros Hrest Hst. apply (IH t1 t' Hrest).
    apply (fixSingle_stable t t1 i d); assumption.
Qed.

(** A lookup that returns does so with [true] and, as the only path to the
    write-back goes through [deref_incr16], with the table as it was. *)
Lemma lookUp_loop_Ret fuel ha hb :
  forall (t t' : Table K) b v,
    lookUp_loop V_of_u64 L CL fuel ha hb t = Ret (b, v) t' ->
    b = true /\ t' = t.
Proof.
  induction fuel as [|fuel IH]; intros t t' b v; [discriminate|].
  cbn [lookUp_loop]. unfold bind, lock_at.
  destruct (lock t !! Z.to_nat (Z.land ha 8191)) as [va|]; [|discriminate].
  destruct (lock t !! Z.to_nat (Z.land hb 8191)) as [vb|]; [|discriminate].
  destruct ((va mod 2 =? 1) || (vb mod 2 =? 1)); [apply IH|].
  destruct (memGet L CL ha t) as [aa t1| | |] eqn:Ha; try discriminate.
  apply memGet_state in Ha as ->.
  destruct (memGet L CL hb t) as [bb t1| | |] eqn:Hb; try discriminate.
  apply memGet_state in Hb as ->.
  destruct (lock t !! Z.to_nat (Z.land ha 8191)) as [va2|]; [|discriminate].
  destruct (lock t !! Z.to_nat (Z.land hb 8191)) as [vb2|]; [|discriminate].
  destruct (negb (va =? va2) || negb (vb =? vb2)); [apply IH|].
  destruct (CL =? 0); [|discriminate].
  intros [= <- _ <-]. auto.
Qed.

Lemma lookUp_loop_no_Throw fuel ha hb :
  forall (t : Table K) e, lookUp_loop V_of_u64 L CL fuel ha hb t <> Throw e.
Proof.
  induction fuel as [|fuel IH]; intros t e; [discriminate|].
  cbn [lookUp_loop]. unfold bind, lock_at.
  destruct (lock t !! Z.to_nat (Z.land ha 8191)) as [va|]; [|discriminate].
  destruct (lock t !! Z.to_nat (Z.land hb 8191)) as [vb|]; [|discriminate].
  destruct ((va mod 2 =? 1) || (vb mod 2 =? 1)); [apply IH|].
  rewrite memGet_field.
  destruct (field_read _ _ _) as [aa|]; [|discriminate].
  rewrite memGet_field.
  destruct (field_read _ _ _) as [bb|]; [|discriminate].
  destruct (lock t !! Z.to_nat (Z.land ha 8191)) as [va2|]; [|discriminate].
  destruct (lock t !! Z.to_nat (Z.land hb 8191)) as [vb2|]; [|discriminate].
  destruct (negb (va =? va2) || negb (vb =? vb2)); [apply IH|].
  destruct (CL =? 0); discriminate.
Qed.

Lemma lookUp_Ret fuel k (t t' : Table K) b v :
  lookUp V_of_u64 L CL fuel k t = Ret (b, v) t' -> b = true /\ t' = t.
Proof.
  unfold lookUp. destruct (getIndices t k) as [ha hb]. apply lookUp_loop_Ret.
Qed.

(** The accepted snapshot when there is no control sub-field. *)
Lemma lookUp_loop_CL0 fuel ha hb (t : Table K) va vb aa bb :
  CL = 0 ->
  lock t !! Z.to_nat (Z.land ha 8191) = Some va -> va mod 2 = 0 ->
  lock t !! Z.to_nat (Z.land hb 8191) = Some vb -> vb mod 2 = 0 ->
  memGet L CL ha t = Ret aa t -> memGet L CL hb t = Ret bb t ->
  lookUp_loop V_of_u64 L CL (S fuel) ha hb t =
    Ret (true, V_of_u64 (Z.shiftr (Z.lxor aa bb) CL)) t.
Proof.
  intros HCL Hva Heva Hvb Hevb Ha Hb.
  cbn [lookUp_loop]. unfold bind, lock_at. rewrite Hva, Hvb.
  replace (va mod 2 =? 1) with false by (symmetry; apply Z.eqb_neq; lia).
  replace (vb mod 2 =? 1) with false by (symmetry; apply Z.eqb_neq; lia).
  cbn [orb]. rewrite Ha, Hb, Hva, Hvb, !Z.eqb_refl. cbn [negb orb].
  subst CL. reflexivity.
Qed.

Lemma stable_lookup (t : Table K) index :
  stable t ->
  exists c, lock t !! Z.to_nat (Z.land index 8191) = Some c /\ c mod 2 = 0.
Proof.
  intros [Hlen Hev]. destruct (lock_lookup t index Hlen) as [c Hc].
  exists c. split; [exact Hc|]. exact (Forall_lookup_1 _ _ _ _ Hev Hc).
Qed.

Lemma run_op_stable o (t t' : Table K) :
  run_op V_of_u64 L CL o t = Ret tt t' -> stable t -> stable t'.
Proof.
  destruct o as [i v|i v|v n|n x|l d|fuel k]; cbn [run_op].
  - apply memSet_stable.
  - apply memValueSet_stable.
  - apply memValueSet_stable.
  - apply fixSingle_stable.
  - apply fixHalfTree_stable.
  - unfold bind.
    destruct (lookUp V_of_u64 L CL fuel k t) as [[b v] t1| | |] eqn:Hl;
      try discriminate.
    apply lookUp_Ret in Hl as [_ ->]. intros [= <-]. auto.
Qed.

Lemma run_ops_stable os :
  forall t t' : Table K,
    run_ops V_of_u64 L CL os t = Ret tt t' -> stable t -> stable t'.
Proof.
  induction os as [|o os IH]; intros t t'.
  - intros [= <-]. auto.
  - cbn [run_ops]. unfold bind.
    destruct (run_op V_of_u64 L CL o t) as [[] t1| | |] eqn:Ho; try discriminate.
    intros Hrest Hst. apply (IH t1 t' Hrest).
    apply (run_op_stable o t t1); assumption.
Qed.
End Versions.

(** ** Lookup *)

Section LookupClaims.
Context {K V : Type} (V_of_u64 : Z -> V) (L CL : Z).

Lemma getIndices_u32 (t : Table K) (k : K) :
  0 <= fst (getIndices t k) < 2 ^ 32 /\ 0 <= snd (getIndices t k) < 2 ^ 32.
Proof.
  unfold getIndices. cbn [fst snd]. split; apply Z.mod_pos_bound; lia.
Qed.

(** With a B array and slots of at least one bit, a memory that covers all
    [ma + mb] slots holds the two slots of every key. *)
Lemma getIndices_slots_in_mem (t : Table K) (k : K) :
  wf_cfg L CL -> 1 <= VCL L CL ->
  0 <= ma t < 2 ^ 32 -> 1 <= mb t < 2 ^ 32 -> mem_covers L CL t ->
  slot_in_mem L CL t (fst (getIndices t k)) /\
  slot_in_mem L CL t (snd (getIndices t k)).
Proof.
  intros Hcfg HV Ha Hb Hcov.
  destruct (getIndices_u32 t k) as [Hra Hrb].
  assert (Hlo : 0 <= to_u32 (to_u64 (hab t k)) < 2 ^ 32)
    by (apply Z.mod_pos_bound; lia).
  assert (Hhi : 0 <= to_u32 (Z.shiftr (to_u64 (hab t k)) 32) < 2 ^ 32)
    by (apply Z.mod_pos_bound; lia).
  split; apply covers_slot_in_mem; try assumption; (split; [lia|]).
  - unfold getIndices, fast_map_to_A. cbn [fst].
    destruct (Z.eq_dec (ma t) 0) as [H0|H0].
    + replace (multiply_high_u32 (to_u32 (to_u64 (hab t k))) (ma t)) with 0
        by (rewrite H0; unfold multiply_high_u32; rewrite Z.mul_0_r; reflexivity).
      change (to_u32 0) with 0. lia.
    + pose proof (multiply_high_u32_range _ (ma t) Hlo ltac:(lia)) as HA.
      rewrite to_u32_small by lia. lia.
  - unfold getIndices, fast_map_to_B. cbn [snd].
    pose proof (multiply_high_u32_range _ (mb t) Hhi Hb) as HB.
    rewrite (to_u64_small (_ + ma t)) by lia.
    apply Z.le_lt_trans with (multiply_high_u32
                                (to_u32 (Z.shiftr (to_u64 (hab t k)) 32)) (mb t) + ma t);
      [|lia].
    apply Z.mod_le; lia.
Qed.

(** The snapshot that [lookUp] takes of the two slots of a key. *)
Lemma lookUp_snapshot (t : Table K) (k : K) :
  wf_cfg L CL -> stable t ->
  slot_in_mem L CL t (fst (getIndices t k)) ->
  slot_in_mem L CL t (snd (getIndices t k)) ->
  exists va vb aa bb,
    lock t !! Z.to_nat (Z.land (fst (getIndices t k)) 8191) = Some va /\
    va mod 2 = 0 /\
    lock t !! Z.to_nat (Z.land (snd (getIndices t k)) 8191) = Some vb /\
    vb mod 2 = 0 /\
    memGet L CL (fst (getIndices t k)) t = Ret aa t /\
    memGet L CL (snd (getIndices t k)) t = Ret bb t.
Proof.
  intros Hcfg Hst Ha Hb.
  destruct (getIndices_u32 t k) as [Hra Hrb].
  destruct (stable_lookup t (fst (getIndices t k)) Hst) as (va & Hva & Heva).
  destruct (stable_lookup t (snd (getIndices t k)) Hst) as (vb & Hvb & Hevb).
  destruct (memGet_is_Ret L CL t _ Hcfg Hra Ha) as (aa & _ & Haa & _).
  destruct (memGet_is_Ret L CL t _ Hcfg Hrb Hb) as (bb & _ & Hbb & _).
  exists va, vb, aa, bb. auto 10.
Qed.

Lemma lookUp_CL0 (t : Table K) (k : K) :
  CL = 0 -> wf_cfg L CL -> stable t ->
  slot_in_mem L CL t (fst (getIndices t k)) ->
  slot_in_mem L CL t (snd (getIndices t k)) ->
  exists aa bb,
    memGet L CL (fst (getIndices t k)) t = Ret aa t /\
    memGet L CL (snd (getIndices t k)) t = Ret bb t /\
    forall fuel,
      lookUp V_of_u64 L CL (S fuel) k t =
        Ret (true, V_of_u64 (Z.shiftr (Z.lxor aa bb) CL)) t.
Proof.
  intros HCL Hcfg Hst Ha Hb.
  destruct (lookUp_snapshot t k Hcfg Hst Ha Hb)
    as (va & vb & aa & bb & Hva & Heva & Hvb & Hevb & Haa & Hbb).
  exists aa, bb. split; [exact Haa|]. split; [exact Hbb|].
  intros fuel. unfold lookUp.
  destruct (getIndices t k) as [ha hb]. cbn [fst snd] in *.
  apply (lookUp_loop_CL0 V_of_u64 L CL fuel ha hb t va vb); assumption.
Qed.

(** With a control sub-field the accepted snapshot is followed by the
    store through [aa]. *)
Lemma lookUp_CL_pos (t : Table K) (k : K) :
  CL <> 0 -> wf_cfg L CL -> stable t ->
  slot_in_mem L CL t (fst (getIndices t k)) ->
  slot_in_mem L CL t (snd (getIndices t k)) ->
  exists aa,
    memGet L CL (fst (getIndices t k)) t = Ret aa t /\
    forall fuel,
      lookUp V_of_u64 L CL (S fuel) k t = Undef (WildPointer aa).
Proof.
  intros HCL Hcfg Hst Ha Hb.
  destruct (lookUp_snapshot t k Hcfg Hst Ha Hb)
    as (va & vb & aa & bb & Hva & Heva & Hvb & Hevb & Haa & Hbb).
  exists aa. split; [exact Haa|].
  intros fuel. unfold lookUp.
  destruct (getIndices t k) as [ha hb]. cbn [fst snd] in *.
  cbn [lookUp_loop]. unfold bind at 1 2, lock_at. rewrite Hva, Hvb.
  replace (va mod 2 =? 1) with false by (symmetry; apply Z.eqb_neq; lia).
  replace (vb mod 2 =? 1) with false by (symmetry; apply Z.eqb_neq; lia).
  cbn [orb]. unfold bind at 1. rewrite Haa. unfold bind at 1. rewrite Hbb.
  unfold bind at 1 2. rewrite Hva, Hvb, !Z.eqb_refl. cbn [negb orb].
  destruct (Z.eqb_spec CL 0); [contradiction|]. reflexivity.
Qed.


(** C5 (amended). In every configuration and on every table, a [lookUp]
    that returns returns [true], and the value-returning overload never
    throws. Without a control sub-field, on a table whose version counters
    are all even and whose memory holds the two slots of the key, both
    overloads return, in the first iteration of the loop. *)
Theorem lookUp_no_failing_path (t : Table K) (k : K) :
  (forall fuel b v t',
     lookUp V_of_u64 L CL fuel k t = Ret (b, v) t' -> b = true) /\
  (forall fuel e, lookUp_value V_of_u64 L CL fuel k t <> Throw e) /\
  (CL = 0 -> wf_cfg L CL -> stable t ->
   slot_in_mem L CL t (fst (getIndices t k)) ->
   slot_in_mem L CL t (snd (getIndices t k)) ->
   forall fuel, exists v,
     lookUp V_of_u64 L CL (S fuel) k t = Ret (true, v) t /\
     lookUp_value V_of_u64 L CL (S fuel) k t = Ret v t).
Proof.
  split; [|split].
  - intros fuel b v t' H. apply lookUp_Ret in H. apply H.
  - intros fuel e. unfold lookUp_value, bind.
    destruct (lookUp V_of_u64 L CL fuel k t) as [[b v] t1|e'| |] eqn:Hl;
      try discriminate.
    + apply lookUp_Ret in Hl as [-> _]. discriminate.
    + exfalso. revert Hl. unfold lookUp.
      destruct (getIndices t k) as [ha hb]. apply lookUp_loop_no_Throw.
  - intros HCL Hcfg Hst Ha Hb fuel.
    destruct (lookUp_CL0 t k HCL Hcfg Hst Ha Hb) as (aa & bb & _ & _ & Hl).
    eexists. split; [apply Hl|].
    unfold lookUp_value, bind. rewrite Hl. reflexivity.
Qed.

(** C9. When [CL = 0], a [lookUp] leaves the whole table (packed memory,
    version counters and every other member) exactly as it found it; and it
    does return on a table whose counters are even and whose memory holds the
    two slots of the key. *)
Theorem lookUp_writes_nothing_CL0 (t : Table K) (k : K) :
  CL = 0 ->
  (forall fuel r t', lookUp V_of_u64 L CL fuel k t = Ret r t' -> t' = t) /\
  (wf_cfg L CL -> stable t ->
   slot_in_mem L CL t (fst (getIndices t k)) ->
   slot_in_mem L CL t (snd (getIndices t k)) ->
   forall fuel, exists v, lookUp V_of_u64 L CL (S fuel) k t = Ret (true, v) t).
Proof.
  intros HCL. split.
  - intros fuel [b v] t'. unfold lookUp.
    destruct (getIndices t k) as [ha hb].
    revert t'. induction fuel as [|fuel IH]; intros t'; [discriminate|].
    cbn [lookUp_loop]. unfold bind, lock_at.
    destruct (lock t !! Z.to_nat (Z.land ha 8191)) as [va|]; [|discriminate].
    destruct (lock t !! Z.to_nat (Z.land hb 8191)) as [vb|]; [|discriminate].
    destruct ((va mod 2 =? 1) || (vb mod 2 =? 1)); [apply IH|].
    destruct (memGet L CL ha t) as [aa t1| | |] eqn:Ha; try discriminate.
    apply memGet_state in Ha as ->.
    destruct (memGet L CL hb t) as [bb t1| | |] eqn:Hb; try discriminate.
    apply memGet_state in Hb as ->.
    destruct (lock t !! Z.to_nat (Z.land ha 8191)) as [va2|]; [|discriminate].
    destruct (lock t !! Z.to_nat (Z.land hb 8191)) as [vb2|]; [|discriminate].
    destruct (negb (va =? va2) || negb (vb =? vb2)); [apply IH|].
    rewrite HCL. cbn [Z.eqb]. intros [= _ _ <-]. reflexivity.
  - intros Hcfg Hst Ha Hb fuel.
    destruct (lookUp_CL0 t k HCL Hcfg Hst Ha Hb) as (aa & bb & _ & _ & Hl).
    eexists. apply Hl.
Qed.
End LookupClaims.

Section SlotApi.
Context {K : Type} (L CL : Z).

Lemma written_hab (t : Table K) i c m' : hab (written t i c m') = hab t.
Proof. reflexivity. Qed.

Lemma getIndices_written (t : Table K) i c m' k :
  getIndices (written t i c m') k = getIndices t k.
Proof. reflexivity. Qed.

(** Without a control sub-field a slot is its value sub-field. *)
Lemma memGet_memValueGet (t : Table K) index :
  CL = 0 -> L <> 0 -> memGet L CL index t = memValueGet L CL index t.
Proof.
  intros -> HL. rewrite memGet_field, memValueGet_field.
  destruct (Z.eqb_spec L 0); [contradiction|].
  unfold VCL. rewrite !Z.add_0_r. reflexivity.
Qed.

(** What a completed [memValueSet] leaves behind, slot by slot. *)
Lemma memValueSet_slots (t : Table K) index v :
  wf_cfg L CL -> 1 <= L -> L < 64 -> 0 <= index < 2 ^ 32 -> stable t ->
  slot_in_mem L CL t index -> 0 <= v < 2 ^ L ->
  exists c m',
    memValueSet L CL index v t = Ret tt (written t (Z.land index 8191) c m') /\
    stable (written t (Z.land index 8191) c m') /\
    length m' = length (mem t) /\
    memValueGet L CL index (written t (Z.land index 8191) c m') =
      Ret v (written t (Z.land index 8191) c m') /\
    (forall j, 0 <= j < 2 ^ 32 -> j <> index -> slot_in_mem L CL t j ->
       field_read L (j * VCL L CL + CL) m' =
         field_read L (j * VCL L CL + CL) (mem t) /\
       field_read (VCL L CL) (j * VCL L CL) m' =
         field_read (VCL L CL) (j * VCL L CL) (mem t)).
Proof.
  intros Hcfg HL HL64 Hi Hst Hin Hv.
  assert (HW : 0 <= L <= 64) by (unfold wf_cfg, VCL in *; lia).
  assert (HLs : 0 <= L < 64) by lia.
  assert (HV : 0 <= VCL L CL <= 64) by (unfold wf_cfg, VCL in *; lia).
  destruct (value_pos L CL index Hcfg HL Hi) as (_ & Hp & Hend).
  destruct (memValueSet_written L CL t index v Hcfg HL Hi (proj1 Hst) Hin)
    as (c & m' & Hc & Hm' & Hset).
  rewrite land_ones_small in Hm' by assumption.
  assert (Hcovf : index * VCL L CL + CL + Z.max 1 L
                  <= 64 * Z.of_nat (length (mem t))).
  { unfold slot_in_mem, wf_cfg, VCL in *. lia. }
  exists c, m'. split; [exact Hset|].
  split; [apply written_stable; assumption|].
  split; [exact (field_write_length L _ _ _ _ HW Hp Hend Hm')|].
  split.
  - rewrite memValueGet_read, written_mem by assumption.
    rewrite (field_read_after_write L (index * VCL L CL + CL) v (mem t) m')
      by assumption.
    reflexivity.
  - intros j Hj Hne Hjin.
    destruct (value_pos L CL j Hcfg HL Hj) as (_ & Hpj & Hendj).
    destruct (slot_pos L CL j Hcfg Hj) as (_ & Hsj & Hsendj).
    split.
    + apply (field_read_frame L (index * VCL L CL + CL) v (mem t) m');
        try assumption.
      * unfold slot_in_mem, wf_cfg, VCL in *. lia.
      * apply values_disjoint; try assumption; lia.
    + apply (field_read_frame L (index * VCL L CL + CL) v (mem t) m');
        try assumption.
      apply slots_disjoint; try assumption; lia.
Qed.
End SlotApi.

(** ** The fill-then-fix scenario *)

Section Scenario.
Context {K V : Type} (V_of_u64 : Z -> V).

Lemma lookUp_of_values (L : Z) (t : Table K) (k : K) a b x y :
  wf_cfg L 0 -> 1 <= L -> stable t ->
  getIndices t k = (a, b) ->
  slot_in_mem L 0 t a -> slot_in_mem L 0 t b ->
  memValueGet L 0 a t = Ret x t -> memValueGet L 0 b t = Ret y t ->
  forall fuel,
    lookUp V_of_u64 L 0 (S fuel) k t = Ret (true, V_of_u64 (Z.lxor x y)) t.
Proof.
  intros Hcfg HL Hst Hidx Ha Hb Hx Hy fuel.
  destruct (lookUp_CL0 V_of_u64 L 0 t k eq_refl Hcfg Hst) as (aa & bb & Haa & Hbb & Hl);
    rewrite ?Hidx; try assumption.
  rewrite Hidx in Haa, Hbb. cbn [fst snd] in Haa, Hbb.
  rewrite memGet_memValueGet in Haa, Hbb by lia.
  assert (aa = x) as -> by congruence.
  assert (bb = y) as -> by congruence.
  rewrite Hl, Z.shiftr_0_r. reflexivity.
Qed.

(** C3 (amended). With [ma = 4], [mb = 4], [L = 8], [CL = 0] and a key whose
    indices are [(1, 6)]: after [fillSingle (42, 1)] and [fillSingle (0, 6)],
    value first and node second, [lookUp] returns 42; after a further
    [fixSingle (6, 42 ^ 7)] it returns 7. *)
Theorem fill_then_fix_scenario (t : Table K) (k1 : K) :
  ma t = 4 -> mb t = 4 -> getIndices t k1 = (1, 6) ->
  stable t -> mem_covers 8 0 t ->
  exists t1 t2 t3,
    fillSingle 8 0 42 1 t = Ret tt t1 /\
    fillSingle 8 0 0 6 t1 = Ret tt t2 /\
    (forall fuel,
       lookUp V_of_u64 8 0 (S fuel) k1 t2 = Ret (true, V_of_u64 42) t2) /\
    fixSingle 8 0 6 (Z.lxor 42 7) t2 = Ret tt t3 /\
    (forall fuel,
       lookUp V_of_u64 8 0 (S fuel) k1 t3 = Ret (true, V_of_u64 7) t3).
Proof.
  intros Hma Hmb Hidx Hst Hcov.
  assert (Hcfg : wf_cfg 8 0) by (unfold wf_cfg, VCL; lia).
  assert (Hslot : forall j, 0 <= j < 8 -> slot_in_mem 8 0 t j).
  { intros j Hj. apply covers_slot_in_mem; try assumption;
      [unfold VCL; lia|lia]. }
  destruct (memValueSet_slots 8 0 t 1 42 Hcfg) as (c1 & m1 & Hset1 & Hst1 & Hlen1 & Hget1 & Hfr1);
    try assumption; try lia; [apply Hslot; lia|].
  set (t1 := written t (Z.land 1 8191) c1 m1) in *.
  assert (Hslot1 : forall j, 0 <= j < 8 -> slot_in_mem 8 0 t1 j).
  { intros j Hj. apply (slot_in_mem_length 8 0 t); [exact Hlen1|apply Hslot; lia]. }
  destruct (memValueSet_slots 8 0 t1 6 0 Hcfg) as (c2 & m2 & Hset2 & Hst2 & Hlen2 & Hget2 & Hfr2);
    try assumption; try lia; [apply Hslot1; lia|].
  set (t2 := written t1 (Z.land 6 8191) c2 m2) in *.
  assert (Hslot2 : forall j, 0 <= j < 8 -> slot_in_mem 8 0 t2 j).
  { intros j Hj. apply (slot_in_mem_length 8 0 t1); [exact Hlen2|apply Hslot1; lia]. }
  assert (Hget12 : memValueGet 8 0 1 t2 = Ret 42 t2).
  { rewrite memValueGet_read in Hget1 |- * by (try assumption; lia).
    unfold t2 at 1. rewrite written_mem.
    destruct (Hfr2 1 ltac:(lia) ltac:(lia) (Hslot1 1 ltac:(lia))) as [-> _].
    destruct (field_read 8 _ (mem t1)) as [r|]; [|discriminate].
    injection Hget1 as ->. reflexivity. }
  destruct (memValueSet_slots 8 0 t2 6 45 Hcfg)
    as (c3 & m3 & Hset3 & Hst3 & Hlen3 & Hget3 & Hfr3);
    try assumption; try lia; [apply Hslot2; lia|].
  set (t3 := written t2 (Z.land 6 8191) c3 m3) in *.
  assert (Hslot3 : forall j, 0 <= j < 8 -> slot_in_mem 8 0 t3 j).
  { intros j Hj. apply (slot_in_mem_length 8 0 t2); [exact Hlen3|apply Hslot2; lia]. }
  assert (Hget13 : memValueGet 8 0 1 t3 = Ret 42 t3).
  { rewrite memValueGet_read in Hget12 |- * by (try assumption; lia).
    unfold t3 at 1. rewrite written_mem.
    destruct (Hfr3 1 ltac:(lia) ltac:(lia) (Hslot2 1 ltac:(lia))) as [-> _].
    destruct (field_read 8 _ (mem t2)) as [r|]; [|discriminate].
    injection Hget12 as ->. reflexivity. }
  exists t1, t2, t3.
  split; [exact Hset1|]. split; [exact Hset2|]. split.
  - intros fuel.
    apply (lookUp_of_values 8 t2 k1 1 6 42 0); try assumption; try lia;
      try (apply Hslot2; lia).
  - split.
    + unfold fixSingle, bind. rewrite Hget2. exact Hset3.
    + intros fuel.
      apply (lookUp_of_values 8 t3 k1 1 6 42 45);
        try assumption; try lia; try (apply Hslot3; lia).
Qed.
End Scenario.

(** ** The write bracket *)

Section VersionClaims.
Context {K V : Type} (V_of_u64 : Z -> V) (L CL : Z).

Lemma synced_stable m a b (h d : K -> Z) : stable (synced m a b h d).
Proof.
  split; [reflexivity|]. unfold all_even, synced. cbn [lock].
  apply Forall_replicate. reflexivity.
Qed.

Lemma bind_field_store {B} W pos v (k : unit -> M K B) (t0 : Table K) :
  bind (field_store W pos v) k t0 =
  match field_write W pos v (mem t0) with
  | Some m' => k tt (set_mem m' t0)
  | None => Undef OutOfRange
  end.
Proof.
  unfold bind, field_store. destruct (field_write W pos v (mem t0)); reflexivity.
Qed.

Lemma bracket_store (t : Table K) i W pos v :
  bind (lock_incr i)
    (fun _ => bind (field_store W pos v) (fun _ => lock_incr i)) t =
  match lock t !! Z.to_nat i with
  | None => Undef OutOfRange
  | Some c =>
      match field_write W pos v (mem t) with
      | None => Undef OutOfRange
      | Some m' => Ret tt (written t i c m')
      end
  end.
Proof.
  unfold bind at 1. unfold lock_incr at 1.
  destruct (lock t !! Z.to_nat i) as [c|] eqn:Hc; [|reflexivity].
  rewrite bind_field_store. cbn [mem set_lock].
  destruct (field_write W pos v (mem t)) as [m'|]; [|reflexivity].
  apply lock_incr_twice. exact Hc.
Qed.

Lemma written_lock (t : Table K) i c m' :
  lock (written t i c m') = <[Z.to_nat i := (c + 2) mod 2 ^ 8]> (lock t).
Proof. unfold written. cbn [lock set_lock]. rewrite bump_twice. reflexivity. Qed.

(** C8 (amended). A setter of a field of non-zero width ([memSet] when
    [VCL <> 0], [memValueSet] when [L <> 0]) is: increment the counter at
    [index mod 8192], write the field, increment the same counter again; a
    completed call leaves that counter two higher (modulo 256). A setter of a
    zero-width field returns at once and touches nothing. From the counters
    of a fresh table, every sequence of completed operations ends with 8192
    counters, all even. *)
Theorem version_counter_bracket :
  (forall (t : Table K) index value,
      VCL L CL <> 0 ->
      memSet L CL index value t =
        bind (lock_incr (index mod 8192))
          (fun _ =>
             bind (field_store (VCL L CL) (to_u64 (index * VCL L CL))
                     (Z.land value (VCMASK L CL)))
               (fun _ => lock_incr (index mod 8192))) t) /\
  (forall (t : Table K) index value,
      L <> 0 ->
      memValueSet L CL index value t =
        bind (lock_incr (index mod 8192))
          (fun _ =>
             bind (field_store L (to_u64 (index * VCL L CL + CL))
                     (Z.land value (VMASK L)))
               (fun _ => lock_incr (index mod 8192))) t) /\
  (forall (t t' : Table K) index value,
      VCL L CL <> 0 -> memSet L CL index value t = Ret tt t' ->
      exists c, lock t !! Z.to_nat (index mod 8192) = Some c /\
                lock t' = <[Z.to_nat (index mod 8192) := (c + 2) mod 2 ^ 8]> (lock t)) /\
  (forall (t t' : Table K) index value,
      L <> 0 -> memValueSet L CL index value t = Ret tt t' ->
      exists c, lock t !! Z.to_nat (index mod 8192) = Some c /\
                lock t' = <[Z.to_nat (index mod 8192) := (c + 2) mod 2 ^ 8]> (lock t)) /\
  (forall (t : Table K) index value,
      VCL L CL = 0 -> memSet L CL index value t = Ret tt t) /\
  (forall (t : Table K) index value,
      L = 0 -> memValueSet L CL index value t = Ret tt t) /\
  (forall os m a b (h d : K -> Z) t',
      run_ops V_of_u64 L CL os (synced m a b h d) = Ret tt t' -> stable t').
Proof.
  repeat apply conj.
  - intros t index value H0.
    rewrite <- land_8191, bracket_store, memSet_field.
    destruct (Z.eqb_spec (VCL L CL) 0); [contradiction|reflexivity].
  - intros t index value H0.
    rewrite <- land_8191, bracket_store, memValueSet_field.
    destruct (Z.eqb_spec L 0); [contradiction|reflexivity].
  - intros t t' index value H0 H. rewrite <- land_8191.
    apply memSet_effect in H as [[H _]|(_ & c & m' & Hc & ->)]; [contradiction|].
    exists c. split; [exact Hc|]. apply written_lock.
  - intros t t' index value H0 H. rewrite <- land_8191.
    apply memValueSet_effect in H as [[H _]|(_ & c & m' & Hc & ->)];
      [contradiction|].
    exists c. split; [exact Hc|]. apply written_lock.
  - intros t index value H0. unfold memSet. rewrite H0. reflexivity.
  - intros t index value H0. unfold memValueSet. rewrite H0. reflexivity.
  - intros os m a b h d t' H.
    apply (run_ops_stable V_of_u64 L CL os _ t' H). apply synced_stable.
Qed.
End VersionClaims.

(** ** The write-back of a lookup *)

Section WriteBack.
Context {K : Type} (L CL : Z).

(** Storing into a slot of fewer than 64 bits the content that was read
    from it leaves the packed memory as it was (and the counter of the slot
    two higher). *)
Lemma memSet_memGet_id (t : Table K) (index aa : Z) :
  wf_cfg L CL -> VCL L CL < 64 ->
  Forall u64 (mem t) -> Z.of_nat (length (lock t)) = 8192 ->
  0 <= index < 2 ^ 32 -> slot_in_mem L CL t index ->
  memGet L CL index t = Ret aa t ->
  exists t', memSet L CL index aa t = Ret tt t' /\ mem t' = mem t.
Proof.
  intros Hcfg HV64 Hu64 Hlock Hi Hin Hget.
  destruct (Z.eq_dec (VCL L CL) 0) as [H0|H0].
  { exists t. split; [|reflexivity]. unfold memSet. rewrite H0. reflexivity. }
  assert (HV : 0 <= VCL L CL <= 64) by (unfold wf_cfg, VCL in *; lia).
  destruct (slot_pos L CL index Hcfg Hi) as (Hpos & Hp & Hend).
  destruct (memGet_is_Ret L CL t index Hcfg Hi Hin) as (r & Hr & Hget' & Hrange).
  assert (r = aa) as -> by congruence.
  destruct (lock_lookup t index Hlock) as [c Hc].
  destruct (field_write_is_Some (VCL L CL) (index * VCL L CL) aa (mem t))
    as [m' Hm']; [assumption..|].
  exists (written t (Z.land index 8191) c m'). split.
  - rewrite memSet_field, Hpos, Hc, (VCMASK_ones L CL Hcfg).
    rewrite land_ones_small by assumption. rewrite Hm'.
    destruct (Z.eqb_spec (VCL L CL) 0); [contradiction|reflexivity].
  - rewrite written_mem. apply mem_ext.
    + exact (field_write_length _ _ _ _ _ HV Hp Hend Hm').
    + apply (field_write_u64 (VCL L CL) (index * VCL L CL) aa (mem t) m');
        try assumption.
      apply (u64_small aa (VCL L CL)); lia.
    + assumption.
    + intros n Hn.
      rewrite (field_write_bits (VCL L CL) (index * VCL L CL) aa (mem t) m')
        by assumption.
      destruct (Z.leb_spec (index * VCL L CL) n);
        destruct (Z.ltb_spec n (index * VCL L CL + VCL L CL));
        simpl; try reflexivity.
      rewrite (field_read_bits (VCL L CL) (index * VCL L CL) (mem t) aa)
        by (try assumption; lia).
      replace (n - index * VCL L CL <? VCL L CL) with true
        by (symmetry; apply Z.ltb_lt; lia).
      simpl. f_equal. lia.
Qed.
End WriteBack.

(** ** The field store, continued: lengths, overwriting, commutation *)

Lemma word_modify_length start f m m' :
  word_modify start f m = Some m' -> length m' = length m.
Proof.
  unfold word_modify. destruct (m !! _); [|discriminate].
  intros [= <-]. apply length_insert.
Qed.

(** No hypothesis on the geometry: a write never changes the number of
    words. *)
Lemma field_write_same_length W pos v m m' :
  field_write W pos v m = Some m' -> length m' = length m.
Proof.
  unfold field_write.
  destruct (word_modify _ _ m) as [m1|] eqn:H1; [|discriminate].
  destruct (word_modify _ _ m1) as [m2|] eqn:H2; [|discriminate].
  apply word_modify_length in H1, H2.
  destruct (0 <? _).
  - destruct (word_modify _ _ m2) as [m3|] eqn:H3; [|discriminate].
    intros H4. apply word_modify_length in H3, H4. congruence.
  - intros [= <-]. congruence.
Qed.

(** A read that succeeds found its words: the field lies in the memory. *)
Lemma field_read_Some_covered W pos m r :
  0 <= W <= 64 -> 0 <= pos < 2 ^ 38 -> pos + W <= 2 ^ 38 ->
  field_read W pos m = Some r ->
  pos + Z.max 1 W <= 64 * Z.of_nat (length m).
Proof.
  intros HW Hp Hend. unfold field_read.
  destruct (field_geometry W pos) as (-> & -> & ->); [lia..|].
  assert (Ho : 0 <= pos mod 64 < 64) by (apply Z.mod_pos_bound; lia).
  assert (Hs : 0 <= pos / 64) by (apply Z.div_pos; lia).
  pose proof (Z.div_mod pos 64 ltac:(lia)) as Hpos.
  set (s := pos / 64) in *. set (o := pos mod 64) in *.
  destruct (m !! Z.to_nat s) as [w|] eqn:Hw; [|discriminate].
  apply lookup_lt_Some in Hw.
  destruct (Z.ltb_spec (o + W - 64) 0).
  - rewrite (to_char_small 0) by lia. simpl. intros _. lia.
  - rewrite (to_char_small (o + W - 64)) by lia.
    destruct (Z.ltb_spec 0 (o + W - 64)); [|intros _; lia].
    rewrite (to_u32_small (s + 1)) by lia.
    destruct (m !! Z.to_nat (s + 1)) as [w1|] eqn:Hw1; [|discriminate].
    apply lookup_lt_Some in Hw1. intros _. lia.
Qed.

Section FieldStoreMore.
Context {K : Type} (L CL : Z).

(** A completed [memSet]: the field write that it performs. *)
Lemma memSet_written (t : Table K) index value :
  wf_cfg L CL -> 1 <= VCL L CL -> 0 <= index < 2 ^ 32 ->
  Z.of_nat (length (lock t)) = 8192 -> slot_in_mem L CL t index ->
  exists c m',
    lock t !! Z.to_nat (Z.land index 8191) = Some c /\
    field_write (VCL L CL) (index * VCL L CL)
      (Z.land value (Z.ones (VCL L CL))) (mem t) = Some m' /\
    memSet L CL index value t = Ret tt (written t (Z.land index 8191) c m').
Proof.
  intros Hcfg HV Hi Hlock Hin.
  destruct (slot_pos L CL index Hcfg Hi) as (Hpos & Hp & Hend).
  destruct (lock_lookup t index Hlock) as [c Hc].
  destruct (field_write_is_Some (VCL L CL) (index * VCL L CL)
              (Z.land value (Z.ones (VCL L CL))) (mem t)) as [m' Hm'];
    try assumption.
  { unfold wf_cfg, VCL in *. lia. }
  exists c, m'. repeat split; try assumption.
  rewrite memSet_field, Hpos, Hc, (VCMASK_ones L CL Hcfg), Hm'.
  destruct (Z.eqb_spec (VCL L CL) 0); [lia|reflexivity].
Qed.

(** X1. With slots of fewer than 64 bits: for a slot held in memory and a
    64-bit [value], [memSet] completes, a following [memGet] of the slot
    returns the low [VCL] bits of [value], and [memGet] of every other slot
    returns what it returned before. *)
Theorem memSet_memGet_roundtrip (t : Table K) (index value : Z) :
  wf_cfg L CL -> VCL L CL < 64 -> Z.of_nat (length (lock t)) = 8192 ->
  0 <= index < 2 ^ 32 -> slot_in_mem L CL t index ->
  0 <= value < 2 ^ 64 ->
  exists t',
    memSet L CL index value t = Ret tt t' /\
    memGet L CL index t' = Ret (value mod 2 ^ VCL L CL) t' /\
    forall j, 0 <= j < 2 ^ 32 -> j <> index -> slot_in_mem L CL t j ->
      exists s, memGet L CL j t = Ret s t /\ memGet L CL j t' = Ret s t'.
Proof.
  intros Hcfg HV64 Hlock Hi Hin Hval.
  assert (HV : 0 <= VCL L CL <= 64) by (unfold wf_cfg, VCL in *; lia).
  assert (HVs : 0 <= VCL L CL < 64) by lia.
  destruct (Z.eq_dec (VCL L CL) 0) as [H0|H0].
  - exists t. split; [unfold memSet; rewrite H0; reflexivity|]. split.
    + destruct (memGet_is_Ret L CL t index Hcfg Hi Hin) as (r & _ & Hr & Hrange).
      rewrite H0 in *. rewrite Z.mod_1_r. replace r with 0 in Hr by lia. exact Hr.
    + intros j Hj _ Hjin.
      destruct (memGet_is_Ret L CL t j Hcfg Hj Hjin) as (s & _ & Hs & _). eauto.
  - destruct (slot_pos L CL index Hcfg Hi) as (_ & Hp & Hend).
    destruct (memSet_written t index value Hcfg ltac:(lia) Hi Hlock Hin)
      as (c & m' & Hc & Hm' & Hset).
    rewrite Z.land_ones in Hm' by lia.
    assert (Hv : 0 <= value mod 2 ^ VCL L CL < 2 ^ VCL L CL)
      by (apply Z.mod_pos_bound; lia).
    exists (written t (Z.land index 8191) c m').
    split; [exact Hset|]. split.
    + rewrite memGet_read, written_mem by assumption.
      rewrite (field_read_after_write (VCL L CL) (index * VCL L CL)
                 (value mod 2 ^ VCL L CL) (mem t) m')
        by assumption.
      reflexivity.
    + intros j Hj Hne Hjin.
      destruct (memGet_is_Ret L CL t j Hcfg Hj Hjin) as (s & Hs & Hget & _).
      exists s. split; [exact Hget|].
      destruct (slot_pos L CL j Hcfg Hj) as (_ & Hpj & Hendj).
      rewrite memGet_read, written_mem by assumption.
      rewrite (field_read_frame (VCL L CL) (index * VCL L CL)
                 (value mod 2 ^ VCL L CL) (mem t) m'),
        Hs; try assumption; try reflexivity.
      unfold wf_cfg, VCL in *.
      destruct (Z.lt_ge_cases j index); [left|right]; nia.
Qed.

(** X2. With slots of fewer than 64 bits, the value sub-field is the slot
    without its low [CL] bits: for a slot held in memory [memGet] returns
    some [s] below [2^VCL] and [memValueGet] returns [s >> CL]. *)
Theorem memValueGet_is_memGet_shifted (t : Table K) (index : Z) :
  wf_cfg L CL -> VCL L CL < 64 ->
  0 <= index < 2 ^ 32 -> slot_in_mem L CL t index ->
  exists s,
    memGet L CL index t = Ret s t /\ 0 <= s < 2 ^ VCL L CL /\
    memValueGet L CL index t = Ret (Z.shiftr s CL) t.
Proof.
  intros Hcfg HV64 Hi Hin.
  destruct (memGet_is_Ret L CL t index Hcfg Hi Hin) as (s & Hs & Hget & Hrange).
  exists s. split; [exact Hget|]. split; [exact Hrange|].
  assert (HC : 0 <= CL) by (unfold wf_cfg in Hcfg; lia).
  destruct (slot_pos L CL index Hcfg Hi) as (_ & Hp & Hend).
  assert (HV : 0 <= VCL L CL <= 64) by (unfold wf_cfg, VCL in *; lia).
  destruct (Z.eq_dec L 0) as [HL0|HL0].
  - rewrite memValueGet_field. subst L. cbn [Z.eqb]. f_equal.
    unfold VCL in Hrange. rewrite Z.add_0_l in Hrange.
    destruct (Z.eq_dec s 0) as [->|]; [rewrite Z.shiftr_0_l; reflexivity|].
    symmetry. apply Z.shiftr_eq_0; [lia|]. apply Z.log2_lt_pow2; lia.
  - assert (HL : 1 <= L) by (unfold wf_cfg in Hcfg; lia).
    destruct (memValueGet_is_Ret L CL t index Hcfg HL Hi Hin)
      as (r & Hr & Hvget & Hrrange).
    rewrite Hvget. f_equal.
    destruct (value_pos L CL index Hcfg HL Hi) as (_ & Hvp & Hvend).
    apply Z.bits_inj'. intros j Hj.
    rewrite (field_read_bits L (index * VCL L CL + CL) (mem t) r)
      by (try assumption; unfold wf_cfg, VCL in *; lia).
    rewrite Z.shiftr_spec by lia.
    rewrite (field_read_bits (VCL L CL) (index * VCL L CL) (mem t) s)
      by (try assumption; lia).
    replace (index * VCL L CL + (j + CL)) with (index * VCL L CL + CL + j) by lia.
    unfold VCL.
    destruct (Z.ltb_spec j L); destruct (Z.ltb_spec (j + CL) (L + CL));
      try reflexivity; lia.
Qed.
End FieldStoreMore.

Section ValueField.
Context {K : Type} (L CL : Z).

(** X3. With slots of fewer than 64 bits, [memValueSet] with any 64-bit
    [value] stores its low [L] bits and nothing else: afterwards the slot
    holds these bits above its old control sub-field, [memValueGet] returns
    them, and every other slot is as it was. *)
Theorem memValueSet_keeps_control (t : Table K) (index value : Z) :
  wf_cfg L CL -> VCL L CL < 64 -> Z.of_nat (length (lock t)) = 8192 ->
  0 <= index < 2 ^ 32 -> slot_in_mem L CL t index ->
  0 <= value < 2 ^ 64 ->
  exists s t',
    memGet L CL index t = Ret s t /\
    memValueSet L CL index value t = Ret tt t' /\
    memGet L CL index t' =
      Ret (Z.lor (Z.shiftl (value mod 2 ^ L) CL) (s mod 2 ^ CL)) t' /\
    memValueGet L CL index t' = Ret (value mod 2 ^ L) t' /\
    forall j, 0 <= j < 2 ^ 32 -> j <> index -> slot_in_mem L CL t j ->
      exists s', memGet L CL j t = Ret s' t /\ memGet L CL j t' = Ret s' t'.
Proof.
  intros Hcfg HV64 Hlock Hi Hin Hval.
  assert (HC : 0 <= CL) by (unfold wf_cfg in Hcfg; lia).
  assert (HV : 0 <= VCL L CL <= 64) by (unfold wf_cfg, VCL in *; lia).
  assert (HLs : 0 <= L < 64) by (unfold wf_cfg, VCL in *; lia).
  destruct (slot_pos L CL index Hcfg Hi) as (_ & Hp & Hend).
  destruct (memGet_is_Ret L CL t index Hcfg Hi Hin) as (s & Hs & Hget & Hrange).
  exists s.
  destruct (Z.eq_dec L 0) as [HL0|HL0].
  - exists t. split; [exact Hget|].
    split; [unfold memValueSet; rewrite HL0; reflexivity|].
    subst L. rewrite Z.pow_0_r, Z.mod_1_r, Z.shiftl_0_l, Z.lor_0_l.
    unfold VCL in Hrange. rewrite Z.add_0_l in Hrange.
    rewrite Z.mod_small by lia.
    split; [exact Hget|]. split; [reflexivity|].
    intros j Hj _ Hjin.
    destruct (memGet_is_Ret 0 CL t j Hcfg Hj Hjin) as (s' & _ & Hs' & _). eauto.
  - assert (HL : 1 <= L) by (unfold wf_cfg in Hcfg; lia).
    assert (HW : 0 <= L <= 64) by (unfold wf_cfg, VCL in *; lia).
    destruct (value_pos L CL index Hcfg HL Hi) as (_ & Hvp & Hvend).
    destruct (memValueSet_written L CL t index value Hcfg HL Hi Hlock Hin)
      as (c & m' & Hc & Hm' & Hset).
    rewrite Z.land_ones in Hm' by lia.
    set (v := value mod 2 ^ L) in *.
    assert (Hv : 0 <= v < 2 ^ L) by (apply Z.mod_pos_bound; lia).
    assert (Hcovf : index * VCL L CL + CL + Z.max 1 L
                    <= 64 * Z.of_nat (length (mem t))).
    { unfold slot_in_mem, wf_cfg, VCL in *. lia. }
    pose proof (field_write_length L _ _ _ _ HW Hvp Hvend Hm') as Hlen.
    exists (written t (Z.land index 8191) c m').
    split; [exact Hget|]. split; [exact Hset|]. split; [|split].
    + rewrite memGet_read, written_mem by assumption.
      destruct (field_read_is_Some (VCL L CL) (index * VCL L CL) m')
        as [s1 Hs1]; try assumption.
      { rewrite Hlen. exact Hin. }
      rewrite Hs1. f_equal. apply Z.bits_inj'. intros j Hj.
      rewrite (field_read_bits (VCL L CL) (index * VCL L CL) m' s1)
        by (try assumption; lia).
      rewrite Z.lor_spec, Z.shiftl_spec by lia.
      rewrite <- (Z.land_ones s CL) by lia.
      rewrite Z.land_spec, testbit_ones_full by lia.
      rewrite (field_read_bits (VCL L CL) (index * VCL L CL) (mem t) s)
        by (try assumption; lia).
      destruct (Z.ltb_spec j (VCL L CL)) as [HjV|HjV].
      * rewrite (field_write_bits L (index * VCL L CL + CL) v (mem t) m')
          by (try assumption; lia).
        replace (index * VCL L CL + j - (index * VCL L CL + CL)) with (j - CL)
          by lia.
        unfold VCL in *.
        destruct (Z.ltb_spec j CL).
        -- rewrite (Z.testbit_neg_r v) by lia. close_bits.
        -- close_bits.
      * unfold VCL in *. rewrite (testbit_high v L) by lia. close_bits.
    + rewrite memValueGet_read, written_mem by assumption.
      rewrite (field_read_after_write L (index * VCL L CL + CL) v (mem t) m')
        by assumption.
      reflexivity.
    + intros j Hj Hne Hjin.
      destruct (memGet_is_Ret L CL t j Hcfg Hj Hjin) as (s' & Hs' & Hget' & _).
      exists s'. split; [exact Hget'|].
      destruct (slot_pos L CL j Hcfg Hj) as (_ & Hpj & Hendj).
      rewrite memGet_read, written_mem by assumption.
      rewrite (field_read_frame L (index * VCL L CL + CL) v (mem t) m'), Hs';
        try assumption; try reflexivity.
      apply slots_disjoint; try assumption; lia.
Qed.

(** X4. [memGet] returns exactly when the words of the slot exist, leaving
    the table as it is, and otherwise it indexes past the end of [mem]. *)
Theorem memGet_defined_iff (t : Table K) (index : Z) :
  wf_cfg L CL -> 0 <= index < 2 ^ 32 ->
  (slot_in_mem L CL t index <-> exists r, memGet L CL index t = Ret r t) /\
  (~ slot_in_mem L CL t index -> memGet L CL index t = Undef OutOfRange).
Proof.
  intros Hcfg Hi.
  assert (HV : 0 <= VCL L CL <= 64) by (unfold wf_cfg, VCL in *; lia).
  destruct (slot_pos L CL index Hcfg Hi) as (_ & Hp & Hend).
  assert (Hback : forall r, memGet L CL index t = Ret r t ->
                            slot_in_mem L CL t index).
  { intros r. rewrite memGet_read by assumption.
    destruct (field_read _ _ _) as [r'|] eqn:Hr; [|discriminate]. intros _.
    exact (field_read_Some_covered _ _ _ _ HV Hp Hend Hr). }
  split; [split|].
  - intros Hin. destruct (memGet_is_Ret L CL t index Hcfg Hi Hin) as (r & _ & Hr & _).
    eauto.
  - intros [r Hr]. eauto.
  - intros Hn. rewrite memGet_read by assumption.
    destruct (field_read _ _ _) as [r|] eqn:Hr; [|reflexivity].
    exfalso. apply Hn. exact (field_read_Some_covered _ _ _ _ HV Hp Hend Hr).
Qed.
End ValueField.

(** The last write to a field wins. *)
Lemma field_write_write W pos v1 v2 m m1 m2 m3 :
  0 <= W <= 64 -> 0 <= pos < 2 ^ 38 -> pos + W <= 2 ^ 38 ->
  0 <= v1 < 2 ^ W -> 0 <= v2 < 2 ^ W -> Forall u64 m ->
  field_write W pos v1 m = Some m1 ->
  field_write W pos v2 m1 = Some m2 ->
  field_write W pos v2 m = Some m3 ->
  m2 = m3.
Proof.
  intros HW Hp Hend Hv1 Hv2 Hm H1 H2 H3.
  assert (Hu1 : Forall u64 m1).
  { apply (field_write_u64 W pos v1 m m1); try assumption.
    apply (u64_small v1 W); lia. }
  apply mem_ext.
  - rewrite (field_write_same_length _ _ _ _ _ H2),
      (field_write_same_length _ _ _ _ _ H1),
      (field_write_same_length _ _ _ _ _ H3). reflexivity.
  - apply (field_write_u64 W pos v2 m1 m2); try assumption.
    apply (u64_small v2 W); lia.
  - apply (field_write_u64 W pos v2 m m3); try assumption.
    apply (u64_small v2 W); lia.
  - intros n Hn.
    rewrite (field_write_bits W pos v2 m1 m2), (field_write_bits W pos v1 m m1),
      (field_write_bits W pos v2 m m3) by assumption.
    destruct ((pos <=? n) && (n <? pos + W)); reflexivity.
Qed.

(** Writes to fields that do not overlap commute. *)
Lemma field_write_commute W1 pos1 v1 W2 pos2 v2 m m1 m12 m2 m21 :
  0 <= W1 <= 64 -> 0 <= pos1 < 2 ^ 38 -> pos1 + W1 <= 2 ^ 38 -> 0 <= v1 < 2 ^ W1 ->
  0 <= W2 <= 64 -> 0 <= pos2 < 2 ^ 38 -> pos2 + W2 <= 2 ^ 38 -> 0 <= v2 < 2 ^ W2 ->
  pos2 + W2 <= pos1 \/ pos1 + W1 <= pos2 ->
  Forall u64 m ->
  field_write W1 pos1 v1 m = Some m1 -> field_write W2 pos2 v2 m1 = Some m12 ->
  field_write W2 pos2 v2 m = Some m2 -> field_write W1 pos1 v1 m2 = Some m21 ->
  m12 = m21.
Proof.
  intros HW1 Hp1 He1 Hv1 HW2 Hp2 He2 Hv2 Hdis Hm H1 H12 H2 H21.
  assert (Hu1 : Forall u64 m1).
  { apply (field_write_u64 W1 pos1 v1 m m1); try assumption.
    apply (u64_small v1 W1); lia. }
  assert (Hu2 : Forall u64 m2).
  { apply (field_write_u64 W2 pos2 v2 m m2); try assumption.
    apply (u64_small v2 W2); lia. }
  apply mem_ext.
  - rewrite (field_write_same_length _ _ _ _ _ H12),
      (field_write_same_length _ _ _ _ _ H1),
      (field_write_same_length _ _ _ _ _ H21),
      (field_write_same_length _ _ _ _ _ H2). reflexivity.
  - apply (field_write_u64 W2 pos2 v2 m1 m12); try assumption.
    apply (u64_small v2 W2); lia.
  - apply (field_write_u64 W1 pos1 v1 m2 m21); try assumption.
    apply (u64_small v1 W1); lia.
  - intros n Hn.
    rewrite (field_write_bits W2 pos2 v2 m1 m12), (field_write_bits W1 pos1 v1 m m1),
      (field_write_bits W1 pos1 v1 m2 m21), (field_write_bits W2 pos2 v2 m m2)
      by assumption.
    destruct (Z.leb_spec pos1 n); destruct (Z.ltb_spec n (pos1 + W1));
      destruct (Z.leb_spec pos2 n); destruct (Z.ltb_spec n (pos2 + W2));
      simpl; try reflexivity; lia.
Qed.

(** ** The order of writes *)

(** Two bracketed counter updates on one counter array commute. *)
Lemma bracket_commute (l : list Z) (a b : nat) ca cb ca' cb' :
  l !! a = Some ca -> l !! b = Some cb ->
  <[a:=to_u8 (to_u8 (ca + 1) + 1)]> l !! b = Some cb' ->
  <[b:=to_u8 (to_u8 (cb + 1) + 1)]> l !! a = Some ca' ->
  <[b:=to_u8 (to_u8 (cb' + 1) + 1)]> (<[a:=to_u8 (to_u8 (ca + 1) + 1)]> l) =
  <[a:=to_u8 (to_u8 (ca' + 1) + 1)]> (<[b:=to_u8 (to_u8 (cb + 1) + 1)]> l).
Proof.
  intros Ha Hb Hb' Ha'.
  destruct (decide (a = b)) as [->|Hab].
  - assert (ca = cb) by congruence. subst cb.
    rewrite list_lookup_insert_eq in Hb' by (eapply lookup_lt_Some; eauto).
    rewrite list_lookup_insert_eq in Ha' by (eapply lookup_lt_Some; eauto).
    congruence.
  - rewrite list_lookup_insert_ne in Hb' by congruence.
    rewrite list_lookup_insert_ne in Ha' by congruence.
    assert (cb' = cb) by congruence. assert (ca' = ca) by congruence.
    subst. apply list_insert_insert_ne. congruence.
Qed.

Section Commutation.
Context {K : Type} (L CL : Z).

(** What a table has to satisfy for the setters to be defined on it, and
    what they preserve. *)
Lemma written_frame (t : Table K) W pos v i c m' :
  0 <= W <= 64 -> 0 <= pos < 2 ^ 38 -> pos + W <= 2 ^ 38 -> 0 <= v < 2 ^ W ->
  field_write W pos v (mem t) = Some m' ->
  Forall u64 (mem t) ->
  Forall u64 (mem (written t i c m')) /\
  length (mem (written t i c m')) = length (mem t) /\
  length (lock (written t i c m')) = length (lock t).
Proof.
  intros HW Hp He Hv Hw Hm. rewrite written_mem, written_lock_length.
  repeat apply conj; [|eapply field_write_same_length; eauto|reflexivity].
  apply (field_write_u64 W pos v (mem t) m'); try assumption.
  apply (u64_small v W); lia.
Qed.

(** Value writes to two different slots commute: the table is the same
    whichever is done first. *)
Lemma memValueSet_commute (t : Table K) i v j w :
  wf_cfg L CL -> 1 <= L -> 0 <= i < 2 ^ 32 -> 0 <= j < 2 ^ 32 -> i <> j ->
  Z.of_nat (length (lock t)) = 8192 -> Forall u64 (mem t) ->
  slot_in_mem L CL t i -> slot_in_mem L CL t j ->
  exists ti tj t',
    memValueSet L CL i v t = Ret tt ti /\ memValueSet L CL j w ti = Ret tt t' /\
    memValueSet L CL j w t = Ret tt tj /\ memValueSet L CL i v tj = Ret tt t'.
Proof.
  intros Hwf HL Hi Hj Hij Hlock Hm Hsi Hsj.
  destruct (value_pos L CL i Hwf HL Hi) as (_ & Hpi & Hei).
  destruct (value_pos L CL j Hwf HL Hj) as (_ & Hpj & Hej).
  assert (HLw : 0 <= L <= 64) by (unfold wf_cfg, VCL in Hwf; lia).
  pose proof (land_ones_range v L ltac:(lia)) as Hv.
  pose proof (land_ones_range w L ltac:(lia)) as Hw.
  destruct (memValueSet_written L CL t i v Hwf HL Hi Hlock Hsi)
    as (ci & mi & Hci & Hwi & Hsti).
  destruct (memValueSet_written L CL t j w Hwf HL Hj Hlock Hsj)
    as (cj & mj & Hcj & Hwj & Hstj).
  destruct (written_frame t L _ _ (Z.land i 8191) ci mi HLw Hpi Hei Hv Hwi Hm)
    as (Hmi & Hli & Hki).
  destruct (written_frame t L _ _ (Z.land j 8191) cj mj HLw Hpj Hej Hw Hwj Hm)
    as (Hmj & Hlj & Hkj).
  set (ti := written t (Z.land i 8191) ci mi) in *.
  set (tj := written t (Z.land j 8191) cj mj) in *.
  destruct (memValueSet_written L CL ti j w Hwf HL Hj)
    as (cj' & mij & Hcj' & Hwij & Hstij).
  { rewrite Hki. exact Hlock. }
  { apply (slot_in_mem_length L CL t); assumption. }
  destruct (memValueSet_written L CL tj i v Hwf HL Hi)
    as (ci' & mji & Hci' & Hwji & Hstji).
  { rewrite Hkj. exact Hlock. }
  { apply (slot_in_mem_length L CL t); assumption. }
  exists ti, tj, (written ti (Z.land j 8191) cj' mij).
  repeat apply conj; try assumption.
  rewrite Hstji. f_equal.
  assert (Hmem : mij = mji).
  { apply (field_write_commute L (i * VCL L CL + CL) (Z.land v (Z.ones L))
             L (j * VCL L CL + CL) (Z.land w (Z.ones L)) (mem t) mi mij mj mji);
      try assumption.
    apply values_disjoint; try assumption; lia. }
  assert (Hlk : lock (written ti (Z.land j 8191) cj' mij) =
                lock (written tj (Z.land i 8191) ci' mji)).
  { subst ti tj. unfold written in Hcj', Hci' |- *.
    cbn [lock set_lock set_mem] in Hcj', Hci' |- *.
    apply bracket_commute; assumption. }
  unfold written in Hlk |- *. unfold set_lock, set_mem in *. cbn in *.
  rewrite Hmem. f_equal. symmetry. exact Hlk.
Qed.

(** A value write leaves the value of every other slot as it was. *)
Lemma memValueGet_other (t t' : Table K) i v j old :
  wf_cfg L CL -> 1 <= L -> 0 <= i < 2 ^ 32 -> 0 <= j < 2 ^ 32 -> i <> j ->
  Z.of_nat (length (lock t)) = 8192 ->
  slot_in_mem L CL t i -> slot_in_mem L CL t j ->
  memValueSet L CL i v t = Ret tt t' ->
  memValueGet L CL j t = Ret old t ->
  memValueGet L CL j t' = Ret old t'.
Proof.
  intros Hwf HL Hi Hj Hij Hlock Hsi Hsj Hset Hget.
  destruct (value_pos L CL i Hwf HL Hi) as (_ & Hpi & Hei).
  destruct (value_pos L CL j Hwf HL Hj) as (_ & Hpj & Hej).
  assert (HLw : 0 <= L <= 64) by (unfold wf_cfg, VCL in Hwf; lia).
  destruct (memValueSet_written L CL t i v Hwf HL Hi Hlock Hsi)
    as (ci & mi & Hci & Hwi & Hsti).
  rewrite Hsti in Hset. injection Hset as <-.
  rewrite (memValueGet_read L CL t j Hwf HL Hj) in Hget.
  rewrite (memValueGet_read L CL _ j Hwf HL Hj).
  rewrite written_mem.
  rewrite (field_read_frame L (i * VCL L CL + CL) (Z.land v (Z.ones L)) (mem t) mi
             L (j * VCL L CL + CL)); try assumption.
  - destruct (field_read L _ (mem t)); [|discriminate].
    injection Hget as ->. reflexivity.
  - apply land_ones_range; lia.
  - unfold slot_in_mem, VCL in Hsj |- *. lia.
  - destruct (values_disjoint L CL i j Hwf) as [H|H]; try lia.
Qed.

(** [fixSingle] is the value write of the patched value. *)
Lemma fixSingle_as_write (t : Table K) i x old :
  memValueGet L CL i t = Ret old t ->
  fixSingle L CL i x t = memValueSet L CL i (Z.lxor x old) t.
Proof. intros H. unfold fixSingle, bind. rewrite H. reflexivity. Qed.

(** After a completed [fixSingle] the setters are defined as before. *)
Lemma fixSingle_frame (t : Table K) i x :
  wf_cfg L CL -> 1 <= L -> 0 <= i < 2 ^ 32 ->
  Z.of_nat (length (lock t)) = 8192 -> Forall u64 (mem t) ->
  slot_in_mem L CL t i ->
  exists t', fixSingle L CL i x t = Ret tt t' /\
    Forall u64 (mem t') /\ length (mem t') = length (mem t) /\
    length (lock t') = length (lock t).
Proof.
  intros Hwf HL Hi Hlock Hm Hsi.
  destruct (value_pos L CL i Hwf HL Hi) as (_ & Hpi & Hei).
  assert (HLw : 0 <= L <= 64) by (unfold wf_cfg, VCL in Hwf; lia).
  destruct (fixSingle_written L CL t i x Hwf HL Hi Hlock Hsi)
    as (old & c & m' & Hr & Hold & Hc & Hw & Hfix).
  exists (written t (Z.land i 8191) c m'). split; [exact Hfix|].
  apply (written_frame t L (i * VCL L CL + CL) (Z.lxor old (x mod 2 ^ L)));
    try assumption.
  apply lxor_range; try lia. apply Z.mod_pos_bound. lia.
Qed.

(** Patches of two different slots commute. *)
Lemma fixSingle_commute (t : Table K) i x j y :
  wf_cfg L CL -> 1 <= L -> 0 <= i < 2 ^ 32 -> 0 <= j < 2 ^ 32 -> i <> j ->
  Z.of_nat (length (lock t)) = 8192 -> Forall u64 (mem t) ->
  slot_in_mem L CL t i -> slot_in_mem L CL t j ->
  exists ti tj t',
    fixSingle L CL i x t = Ret tt ti /\ fixSingle L CL j y ti = Ret tt t' /\
    fixSingle L CL j y t = Ret tt tj /\ fixSingle L CL i x tj = Ret tt t'.
Proof.
  intros Hwf HL Hi Hj Hij Hlock Hm Hsi Hsj.
  destruct (memValueGet_is_Ret L CL t i Hwf HL Hi Hsi) as (oi & _ & Hgi & _).
  destruct (memValueGet_is_Ret L CL t j Hwf HL Hj Hsj) as (oj & _ & Hgj & _).
  destruct (memValueSet_commute t i (Z.lxor x oi) j (Z.lxor y oj))
    as (ti & tj & t' & H1 & H2 & H3 & H4); try assumption.
  exists ti, tj, t'.
  rewrite (fixSingle_as_write t i x oi Hgi), (fixSingle_as_write t j y oj Hgj).
  rewrite (fixSingle_as_write ti j y oj), (fixSingle_as_write tj i x oi).
  - repeat apply conj; assumption.
  - apply (memValueGet_other t tj j (Z.lxor y oj) i oi); try assumption.
    congruence.
  - apply (memValueGet_other t ti i (Z.lxor x oi) j oj); assumption.
Qed.

(** The component fix-up completes on a table that holds the listed
    slots, and the setters are defined afterwards as before. *)
Lemma fixHalfTree_frame (l : list Z) d :
  wf_cfg L CL -> 1 <= L ->
  forall t : Table K,
  Z.of_nat (length (lock t)) = 8192 -> Forall u64 (mem t) ->
  Forall (fun i => 0 <= i < 2 ^ 32 /\ slot_in_mem L CL t i) l ->
  exists t', fixHalfTreeByConnectedComponent L CL l d t = Ret tt t' /\
    Forall u64 (mem t') /\ length (mem t') = length (mem t) /\
    length (lock t') = length (lock t).
Proof.
  intros Hwf HL. induction l as [|a l IH]; intros t Hlock Hm Hall.
  - exists t. auto.
  - apply Forall_cons in Hall as [[Ha Hsa] Hall].
    destruct (fixSingle_frame t a d Hwf HL Ha Hlock Hm Hsa)
      as (t1 & Hfix & Hm1 & Hlen1 & Hlk1).
    destruct (IH t1) as (t' & Hrun & Hm' & Hlen' & Hlk');
      [congruence|assumption| |].
    { eapply Forall_impl; [exact Hall|]. intros i [? ?]. split; [assumption|].
      apply (slot_in_mem_length L CL t); assumption. }
    exists t'. cbn [fixHalfTreeByConnectedComponent]. unfold bind. rewrite Hfix.
    repeat apply conj; congruence.
Qed.

(** The component fix-up does not depend on the order in which the slots
    are listed. *)
Lemma fixHalfTree_permutation (l l' : list Z) d :
  wf_cfg L CL -> 1 <= L -> Permutation l l' ->
  forall t : Table K,
  Z.of_nat (length (lock t)) = 8192 -> Forall u64 (mem t) ->
  Forall (fun i => 0 <= i < 2 ^ 32 /\ slot_in_mem L CL t i) l ->
  fixHalfTreeByConnectedComponent L CL l d t =
  fixHalfTreeByConnectedComponent L CL l' d t.
Proof.
  intros Hwf HL Hperm.
  induction Hperm as [|a l l' Hp IH|a b l|l l' l'' Hp1 IH1 Hp2 IH2];
    intros t Hlock Hm Hall.
  - reflexivity.
  - apply Forall_cons in Hall as [[Ha Hsa] Hall].
    destruct (fixSingle_frame t a d Hwf HL Ha Hlock Hm Hsa)
      as (t1 & Hfix & Hm1 & Hlen1 & Hlk1).
    cbn [fixHalfTreeByConnectedComponent]. unfold bind. rewrite Hfix.
    apply IH; [congruence|assumption|].
    eapply Forall_impl; [exact Hall|]. intros i [? ?]. split; [assumption|].
    apply (slot_in_mem_length L CL t); assumption.
  - apply Forall_cons in Hall as [[Hb Hsb] Hall].
    apply Forall_cons in Hall as [[Ha Hsa] Hall].
    destruct (decide (a = b)) as [->|Hab]; [reflexivity|].
    destruct (fixSingle_commute t b d a d)
      as (tb & ta & t' & H1 & H2 & H3 & H4); try assumption; [congruence|].
    cbn [fixHalfTreeByConnectedComponent]. unfold bind.
    rewrite H1, H2, H3, H4. reflexivity.
  - rewrite (IH1 t Hlock Hm Hall). apply IH2; try assumption.
    rewrite <- Hp1. exact Hall.
Qed.

End Commutation.

Lemma lxor_mod_pow2 x y n :
  0 <= n -> Z.lxor x y mod 2 ^ n = Z.lxor (x mod 2 ^ n) (y mod 2 ^ n).
Proof.
  intros Hn. rewrite <- !Z.land_ones by lia.
  apply Z.bits_inj'. intros j Hj.
  rewrite !Z.land_spec, !Z.lxor_spec, !Z.land_spec.
  destruct (Z.testbit (Z.ones n) j), (Z.testbit x j), (Z.testbit y j); reflexivity.
Qed.

Section WriteOrder.
Context {K : Type} (L CL : Z).

(** X5. With a value sub-field of fewer than 64 bits, two patches of one
    slot compose by XOR: [fixSingle(i, x)] followed by [fixSingle(i, y)]
    leaves the packed memory that [fixSingle(i, x ^ y)] leaves. *)
Theorem fixSingle_composes_by_xor (t : Table K) index x y :
  wf_cfg L CL -> L < 64 ->
  Z.of_nat (length (lock t)) = 8192 -> Forall u64 (mem t) ->
  0 <= index < 2 ^ 32 -> slot_in_mem L CL t index ->
  exists t1 t2 t3,
    fixSingle L CL index x t = Ret tt t1 /\
    fixSingle L CL index y t1 = Ret tt t2 /\
    fixSingle L CL index (Z.lxor x y) t = Ret tt t3 /\
    mem t2 = mem t3.
Proof.
  intros Hwf HL64 Hlock Hm Hi Hs.
  destruct (Z.eq_dec L 0) as [HL0|HL0].
  { exists t, t, t. rewrite !(fixSingle_L0 L CL t index _ HL0). auto. }
  assert (HL : 1 <= L) by (unfold wf_cfg in Hwf; lia).
  destruct (value_pos L CL index Hwf HL Hi) as (_ & Hp & He).
  assert (HLw : 0 <= L <= 64) by (unfold wf_cfg, VCL in Hwf; lia).
  assert (HLs : 0 <= L < 64) by lia.
  assert (Hcov : index * VCL L CL + CL + Z.max 1 L <= 64 * Z.of_nat (length (mem t))).
  { unfold slot_in_mem, VCL in Hs |- *. unfold wf_cfg in Hwf. lia. }
  destruct (fixSingle_written L CL t index x Hwf HL Hi Hlock Hs)
    as (old & c & m1 & Hr & Hold & Hc & Hw1 & Hfix1).
  assert (Hx : 0 <= Z.lxor old (x mod 2 ^ L) < 2 ^ L).
  { apply lxor_range; try lia. apply Z.mod_pos_bound. lia. }
  destruct (written_frame t L _ _ (Z.land index 8191) c m1 HLw Hp He Hx Hw1 Hm)
    as (Hm1 & Hl1 & Hk1).
  set (t1 := written t (Z.land index 8191) c m1) in *.
  destruct (fixSingle_written L CL t1 index y Hwf HL Hi)
    as (old1 & c1 & m2 & Hr1 & Hold1 & Hc1 & Hw2 & Hfix2).
  { rewrite Hk1. exact Hlock. }
  { apply (slot_in_mem_length L CL t); assumption. }
  destruct (fixSingle_written L CL t index (Z.lxor x y) Hwf HL Hi Hlock Hs)
    as (old3 & c3 & m3 & Hr3 & Hold3 & Hc3 & Hw3 & Hfix3).
  exists t1, (written t1 (Z.land index 8191) c1 m2),
    (written t (Z.land index 8191) c3 m3).
  repeat apply conj; try assumption.
  rewrite !written_mem.
  assert (old3 = old) by congruence. subst old3.
  assert (old1 = Z.lxor old (x mod 2 ^ L)).
  { subst t1. rewrite written_mem in Hr1.
    rewrite (field_read_after_write L _ (Z.lxor old (x mod 2 ^ L)) (mem t) m1)
      in Hr1 by assumption.
    congruence. }
  subst old1.
  replace (Z.lxor old (Z.lxor x y mod 2 ^ L))
    with (Z.lxor (Z.lxor old (x mod 2 ^ L)) (y mod 2 ^ L)) in Hw3
    by (rewrite lxor_mod_pow2 by lia; apply Z.lxor_assoc).
  apply (field_write_write L (index * VCL L CL + CL) (Z.lxor old (x mod 2 ^ L))
           (Z.lxor (Z.lxor old (x mod 2 ^ L)) (y mod 2 ^ L)) (mem t) m1);
    try assumption.
  apply lxor_range; try lia. apply Z.mod_pos_bound. lia.
Qed.

(** X6. With a value sub-field of fewer than 64 bits and 32-bit values,
    filling one node twice: the later value wins, the packed memory is the
    one that the second call alone leaves, and [memValueGet] returns the low
    [L] bits of the second value. *)
Theorem fillSingle_last_wins (t : Table K) node v1 v2 :
  wf_cfg L CL -> L < 64 ->
  Z.of_nat (length (lock t)) = 8192 -> Forall u64 (mem t) ->
  0 <= node < 2 ^ 32 -> slot_in_mem L CL t node ->
  0 <= v1 < 2 ^ 32 -> 0 <= v2 < 2 ^ 32 ->
  exists t1 t2 t3,
    fillSingle L CL v1 node t = Ret tt t1 /\
    fillSingle L CL v2 node t1 = Ret tt t2 /\
    fillSingle L CL v2 node t = Ret tt t3 /\
    mem t2 = mem t3 /\
    memValueGet L CL node t2 = Ret (v2 mod 2 ^ L) t2.
Proof.
  intros Hwf HL64 Hlock Hm Hi Hs Hr1 Hr2. unfold fillSingle.
  destruct (Z.eq_dec L 0) as [HL0|HL0].
  { exists t, t, t. rewrite !memValueSet_field, memValueGet_field.
    subst L. simpl. rewrite Z.mod_1_r. auto. }
  assert (HL : 1 <= L) by (unfold wf_cfg in Hwf; lia).
  destruct (value_pos L CL node Hwf HL Hi) as (_ & Hp & He).
  assert (HLw : 0 <= L <= 64) by (unfold wf_cfg, VCL in Hwf; lia).
  assert (HLs : 0 <= L < 64) by lia.
  assert (Hcov : node * VCL L CL + CL + Z.max 1 L <= 64 * Z.of_nat (length (mem t))).
  { unfold slot_in_mem, VCL in Hs |- *. unfold wf_cfg in Hwf. lia. }
  pose proof (land_ones_range v1 L ltac:(lia)) as Hv1.
  pose proof (land_ones_range v2 L ltac:(lia)) as Hv2.
  destruct (memValueSet_written L CL t node v1 Hwf HL Hi Hlock Hs)
    as (c & m1 & Hc & Hw1 & Hset1).
  destruct (written_frame t L _ _ (Z.land node 8191) c m1 HLw Hp He Hv1 Hw1 Hm)
    as (Hm1 & Hl1 & Hk1).
  set (t1 := written t (Z.land node 8191) c m1) in *.
  destruct (memValueSet_written L CL t1 node v2 Hwf HL Hi)
    as (c1 & m2 & Hc1 & Hw2 & Hset2).
  { rewrite Hk1. exact Hlock. }
  { apply (slot_in_mem_length L CL t); assumption. }
  destruct (memValueSet_written L CL t node v2 Hwf HL Hi Hlock Hs)
    as (c3 & m3 & Hc3 & Hw3 & Hset3).
  exists t1, (written t1 (Z.land node 8191) c1 m2),
    (written t (Z.land node 8191) c3 m3).
  repeat apply conj; try assumption.
  - rewrite !written_mem.
    apply (field_write_write L (node * VCL L CL + CL) (Z.land v1 (Z.ones L))
             (Z.land v2 (Z.ones L)) (mem t) m1); assumption.
  - rewrite (memValueGet_read L CL _ node Hwf HL Hi), written_mem.
    rewrite (field_read_after_write L _ (Z.land v2 (Z.ones L)) (mem t1) m2);
      try assumption.
    + rewrite Z.land_ones by lia. reflexivity.
    + rewrite Hl1. exact Hcov.
Qed.

(** X7. Fills of two different nodes commute: the table (packed memory and
    version counters) is the same whichever call is made first. *)
Theorem fillSingle_commutes (t : Table K) n1 v1 n2 v2 :
  wf_cfg L CL -> Z.of_nat (length (lock t)) = 8192 -> Forall u64 (mem t) ->
  0 <= n1 < 2 ^ 32 -> 0 <= n2 < 2 ^ 32 -> n1 <> n2 ->
  slot_in_mem L CL t n1 -> slot_in_mem L CL t n2 ->
  exists t',
    bind (fillSingle L CL v1 n1) (fun _ => fillSingle L CL v2 n2) t = Ret tt t' /\
    bind (fillSingle L CL v2 n2) (fun _ => fillSingle L CL v1 n1) t = Ret tt t'.
Proof.
  intros Hwf Hlock Hm H1 H2 Hne Hs1 Hs2. unfold fillSingle, bind.
  destruct (Z.eq_dec L 0) as [HL0|HL0].
  { exists t. rewrite !memValueSet_field. subst L. simpl.
    rewrite !memValueSet_field. simpl. auto. }
  assert (HL : 1 <= L) by (unfold wf_cfg in Hwf; lia).
  destruct (memValueSet_commute L CL t n1 v1 n2 v2)
    as (ta & tb & t' & Ha & Hab & Hb & Hba); try assumption.
  exists t'. rewrite Ha, Hb. auto.
Qed.

(** X8. The component fix-up does not depend on the order in which the
    slots are listed (repetitions included): any rearrangement of the list
    ends in the same table. *)
Theorem fixHalfTreeByConnectedComponent_any_order (t : Table K) l l' d :
  wf_cfg L CL -> Z.of_nat (length (lock t)) = 8192 -> Forall u64 (mem t) ->
  Forall (fun i => 0 <= i < 2 ^ 32 /\ slot_in_mem L CL t i) l ->
  Permutation l l' ->
  exists t',
    fixHalfTreeByConnectedComponent L CL l d t = Ret tt t' /\
    fixHalfTreeByConnectedComponent L CL l' d t = Ret tt t'.
Proof.
  intros Hwf Hlock Hm Hall Hperm.
  destruct (Z.eq_dec L 0) as [HL0|HL0].
  { exists t. rewrite !(fixHalfTree_L0 L CL _ d t HL0). auto. }
  assert (HL : 1 <= L) by (unfold wf_cfg in Hwf; lia).
  destruct (fixHalfTree_frame L CL l d Hwf HL t Hlock Hm Hall) as (t' & Hrun & _).
  exists t'. split; [exact Hrun|].
  rewrite <- (fixHalfTree_permutation L CL l l' d Hwf HL Hperm t Hlock Hm Hall).
  exact Hrun.
Qed.

End WriteOrder.

(** ** What no operation changes; a lookup against a write *)

Section Frame.
Context {K V : Type} (V_of_u64 : Z -> V) (L CL : Z).

Lemma same_frame_refl (t : Table K) : same_frame t t.
Proof. unfold same_frame. auto 10. Qed.

Lemma same_frame_trans (t1 t2 t3 : Table K) :
  same_frame t1 t2 -> same_frame t2 t3 -> same_frame t1 t3.
Proof.
  unfold same_frame. intros (?&?&?&?&?&?&?) (?&?&?&?&?&?&?).
  repeat apply conj; congruence.
Qed.

Lemma written_same_frame (t : Table K) W pos v i c m' :
  field_write W pos v (mem t) = Some m' ->
  same_frame t (written t i c m').
Proof.
  intros Hw. unfold same_frame.
  rewrite written_mem, written_lock_length.
  repeat apply conj; try reflexivity.
  eapply field_write_same_length; eauto.
Qed.

Lemma memSet_frame (t t' : Table K) index value :
  memSet L CL index value t = Ret tt t' -> same_frame t t'.
Proof.
  rewrite memSet_field. destruct (VCL L CL =? 0).
  - intros [= <-]. apply same_frame_refl.
  - destruct (lock t !! _) as [c|]; [|discriminate].
    destruct (field_write _ _ _ _) as [m'|] eqn:Hw; [|discriminate].
    intros [= <-]. eapply written_same_frame; eauto.
Qed.

Lemma memValueSet_frame (t t' : Table K) index value :
  memValueSet L CL index value t = Ret tt t' -> same_frame t t'.
Proof.
  rewrite memValueSet_field. destruct (L =? 0).
  - intros [= <-]. apply same_frame_refl.
  - destruct (lock t !! _) as [c|]; [|discriminate].
    destruct (field_write _ _ _ _) as [m'|] eqn:Hw; [|discriminate].
    intros [= <-]. eapply written_same_frame; eauto.
Qed.

Lemma fixSingle_same_frame (t t' : Table K) index x :
  fixSingle L CL index x t = Ret tt t' -> same_frame t t'.
Proof.
  unfold fixSingle, bind.
  destruct (memValueGet L CL index t) as [old t1| | |] eqn:Hg; try discriminate.
  apply memValueGet_state in Hg. subst t1. apply memValueSet_frame.
Qed.

Lemma fixHalfTree_same_frame indices d :
  forall t t' : Table K,
  fixHalfTreeByConnectedComponent L CL indices d t = Ret tt t' -> same_frame t t'.
Proof.
  induction indices as [|i l IH]; intros t t'.
  - intros [= <-]. apply same_frame_refl.
  - cbn [fixHalfTreeByConnectedComponent]. unfold bind.
    destruct (fixSingle L CL i d t) as [[] t1| | |] eqn:Hf; try discriminate.
    intros Hrest. eapply same_frame_trans.
    + eapply fixSingle_same_frame; eauto.
    + apply IH. exact Hrest.
Qed.

Lemma run_op_frame o (t t' : Table K) :
  run_op V_of_u64 L CL o t = Ret tt t' -> same_frame t t'.
Proof.
  destruct o as [i v|i v|v n|n x|l d|fuel k]; cbn [run_op].
  - apply memSet_frame.
  - apply memValueSet_frame.
  - apply memValueSet_frame.
  - apply fixSingle_same_frame.
  - apply fixHalfTree_same_frame.
  - unfold bind.
    destruct (lookUp V_of_u64 L CL fuel k t) as [[b v] t1| | |] eqn:Hl;
      try discriminate.
    apply lookUp_Ret in Hl as [_ ->]. intros [= <-]. apply same_frame_refl.
Qed.

Lemma run_ops_frame os :
  forall t t' : Table K,
  run_ops V_of_u64 L CL os t = Ret tt t' -> same_frame t t'.
Proof.
  induction os as [|o os IH]; intros t t'.
  - intros [= <-]. apply same_frame_refl.
  - cbn [run_ops]. unfold bind.
    destruct (run_op V_of_u64 L CL o t) as [[] t1| | |] eqn:Ho; try discriminate.
    intros Hrest. eapply same_frame_trans.
    + eapply run_op_frame; eauto.
    + apply IH. exact Hrest.
Qed.

Lemma getIndices_same_frame (t t' : Table K) k :
  same_frame t t' -> getIndices t' k = getIndices t k.
Proof.
  unfold same_frame. intros (Hma & Hmb & Hhab & _).
  unfold getIndices, fast_map_to_A, fast_map_to_B.
  rewrite Hma, Hmb, Hhab. reflexivity.
Qed.

(** X9. No completed sequence of data-plane operations changes the geometry
    of the table: the memory cost, the slot indices of every key, the
    [versions] array and the number of counters are as before. *)
Theorem run_ops_keeps_geometry os (t t' : Table K) :
  run_ops V_of_u64 L CL os t = Ret tt t' ->
  getMemoryCost t' = getMemoryCost t /\
  (forall k, getIndices t' k = getIndices t k) /\
  versions t' = versions t /\
  length (lock t') = length (lock t).
Proof.
  intros Hrun. pose proof (run_ops_frame os t t' Hrun) as Hf.
  repeat apply conj.
  - unfold getMemoryCost. destruct Hf as (_&_&_&_&_&->&_). reflexivity.
  - intros k. apply getIndices_same_frame. exact Hf.
  - apply Hf.
  - apply Hf.
Qed.

(** X10. While the version counter of one of the two slots of a key is odd
    (a write is in progress), a lookup of the key never returns: for every
    number of iterations it is still in its loop, and without a writer that
    completes it stays there. *)
Theorem lookUp_spins_while_counter_odd fuel k (t : Table K) c :
  Z.of_nat (length (lock t)) = 8192 ->
  lock t !! Z.to_nat (Z.land (getIndices t k).1 8191) = Some c \/
  lock t !! Z.to_nat (Z.land (getIndices t k).2 8191) = Some c ->
  c mod 2 = 1 ->
  lookUp V_of_u64 L CL fuel k t = Spin.
Proof.
  intros Hlock Hc Hodd. unfold lookUp.
  destruct (getIndices t k) as [ha hb]. cbn [fst snd] in Hc.
  destruct (lock_lookup t ha Hlock) as (va & Hva).
  destruct (lock_lookup t hb Hlock) as (vb & Hvb).
  induction fuel as [|fuel IH]; [reflexivity|].
  cbn [lookUp_loop]. unfold bind, lock_at. rewrite Hva, Hvb.
  assert (Ho : (va mod 2 =? 1) || (vb mod 2 =? 1) = true).
  { apply orb_true_iff.
    destruct Hc as [Hc|Hc]; [left|right]; apply Z.eqb_eq; congruence. }
  rewrite Ho. exact IH.
Qed.

(** X11. With a control sub-field ([CL <> 0], the filter configuration,
    slots of fewer than 64 bits), on a table with even counters that holds
    the two slots of a key, every lookup of the key gets as far as line 212
    of the source: it stores through the content of the key's first slot
    taken as an address, an access without defined behaviour, before any
    write-back. *)
Theorem lookUp_filter_reaches_wild_store (t : Table K) (k : K) :
  CL <> 0 -> wf_cfg L CL -> VCL L CL < 64 -> stable t ->
  slot_in_mem L CL t (getIndices t k).1 ->
  slot_in_mem L CL t (getIndices t k).2 ->
  exists aa,
    memGet L CL (getIndices t k).1 t = Ret aa t /\
    forall fuel, lookUp V_of_u64 L CL (S fuel) k t = Undef (WildPointer aa).
Proof.
  intros HCL Hwf _ Hst Ha Hb.
  exact (lookUp_CL_pos V_of_u64 L CL t k HCL Hwf Hst Ha Hb).
Qed.

End Frame.

(** ** Lookup after the component fix-up *)

Lemma lxor_cancel_both x y d : Z.lxor (Z.lxor x d) (Z.lxor y d) = Z.lxor x y.
Proof.
  apply Z.bits_inj'. intros j Hj. rewrite !Z.lxor_spec.
  destruct (Z.testbit x j), (Z.testbit y j), (Z.testbit d j); reflexivity.
Qed.

Lemma lxor_move_left x y d : Z.lxor (Z.lxor x d) y = Z.lxor (Z.lxor x y) d.
Proof.
  apply Z.bits_inj'. intros j Hj. rewrite !Z.lxor_spec.
  destruct (Z.testbit x j), (Z.testbit y j), (Z.testbit d j); reflexivity.
Qed.

Section ComponentLookup.
Context {K V : Type} (V_of_u64 : Z -> V) (L : Z).

(** X12. The invariant behind the repair ([CL = 0], values of fewer than 64
    bits, a 32-bit template [d]): after the component fix-up with template
    [d] over distinct slots, the lookup of a key with exactly one of its two
    slots in the component returns its former value XOR [d] (in [L] bits);
    the lookup of a key with both slots or no slot in the component returns
    what it returned before. Every lookup value is below [2^L]. *)
Theorem lookUp_after_component_fix (t : Table K) (k : K) indices d :
  wf_cfg L 0 -> 1 <= L -> L < 64 -> 0 <= d < 2 ^ 32 ->
  stable t -> NoDup indices ->
  Forall (fun i => 0 <= i < 2 ^ 32 /\ slot_in_mem L 0 t i) indices ->
  slot_in_mem L 0 t (getIndices t k).1 ->
  slot_in_mem L 0 t (getIndices t k).2 ->
  exists v t',
    0 <= v < 2 ^ L /\
    fixHalfTreeByConnectedComponent L 0 indices d t = Ret tt t' /\
    forall fuel,
      lookUp V_of_u64 L 0 (S fuel) k t = Ret (true, V_of_u64 v) t /\
      lookUp V_of_u64 L 0 (S fuel) k t' =
        Ret (true,
             V_of_u64 (if xorb (bool_decide ((getIndices t k).1 ∈ indices))
                               (bool_decide ((getIndices t k).2 ∈ indices))
                       then Z.lxor v (d mod 2 ^ L) else v)) t'.
Proof.
  intros Hwf HL HL64 Hd Hst Hnd Hall Hsa Hsb.
  destruct (getIndices_u32 t k) as [Ha Hb].
  destruct (getIndices t k) as [a b] eqn:Hidx. cbn [fst snd] in *.
  destruct Hst as [Hlock Heven].
  destruct (fixHalfTree_fields L 0 indices d Hwf HL HL64 Hnd t Hlock Hall)
    as (t' & Hrun & Hlen & Hval & _).
  destruct (memValueGet_is_Ret L 0 t a Hwf HL Ha Hsa) as (x & Hrx & Hgx & Hx).
  destruct (memValueGet_is_Ret L 0 t b Hwf HL Hb Hsb) as (y & Hry & Hgy & Hy).
  assert (Hst' : stable t').
  { apply (fixHalfTree_stable L 0 indices d t t' Hrun). split; assumption. }
  pose proof (fixHalfTree_same_frame L 0 indices d t t' Hrun) as Hf.
  pose proof (Hval a x Ha Hsa Hrx) as Hrx'.
  pose proof (Hval b y Hb Hsb Hry) as Hry'.
  exists (Z.lxor x y), t'. split; [apply lxor_range; lia|].
  split; [exact Hrun|]. intros fuel. split.
  - apply (lookUp_of_values V_of_u64 L t k a b x y); try assumption.
    split; assumption.
  - rewrite (lookUp_of_values V_of_u64 L t' k a b
               (if decide (a ∈ indices) then Z.lxor x (d mod 2 ^ L) else x)
               (if decide (b ∈ indices) then Z.lxor y (d mod 2 ^ L) else y));
      try assumption.
    + do 3 f_equal.
      destruct (decide (a ∈ indices)) as [Hia|Hia],
        (decide (b ∈ indices)) as [Hib|Hib];
        rewrite ?(bool_decide_eq_true_2 _ Hia), ?(bool_decide_eq_false_2 _ Hia),
          ?(bool_decide_eq_true_2 _ Hib), ?(bool_decide_eq_false_2 _ Hib);
        cbn [xorb].
      * apply lxor_cancel_both.
      * apply lxor_move_left.
      * symmetry. apply Z.lxor_assoc.
      * reflexivity.
    + rewrite (getIndices_same_frame t t' k Hf). exact Hidx.
    + apply (slot_in_mem_length L 0 t); assumption.
    + apply (slot_in_mem_length L 0 t); assumption.
    + rewrite (memValueGet_read L 0 t' a Hwf HL Ha), Hrx'. reflexivity.
    + rewrite (memValueGet_read L 0 t' b Hwf HL Hb), Hry'. reflexivity.
Qed.

End ComponentLookup.

(** ** Counter wrap-around, construction, and the mapper onto its range *)

Section CounterWrap.
Context {K V : Type} (V_of_u64 : Z -> V) (L CL : Z).

(** [n + 1] completed writes of one value to one slot: the memory of the
    first write, and the counter of the slot advanced by [2 (n + 1)]. *)
Lemma repeated_memValueSet n index value :
  wf_cfg L CL -> 1 <= L -> 0 <= index < 2 ^ 32 ->
  forall (t : Table K) c m1,
  Z.of_nat (length (lock t)) = 8192 -> Forall u64 (mem t) ->
  slot_in_mem L CL t index ->
  lock t !! Z.to_nat (Z.land index 8191) = Some c ->
  field_write L (index * VCL L CL + CL) (Z.land value (Z.ones L)) (mem t) = Some m1 ->
  exists t',
    run_ops V_of_u64 L CL (replicate (S n) (OpMemValueSet index value)) t = Ret tt t' /\
    mem t' = m1 /\
    lock t' = <[Z.to_nat (Z.land index 8191) := (c + 2 * Z.of_nat (S n)) mod 2 ^ 8]> (lock t).
Proof.
  intros Hwf HL Hi.
  destruct (value_pos L CL index Hwf HL Hi) as (_ & Hp & He).
  assert (HLw : 0 <= L <= 64) by (unfold wf_cfg, VCL in Hwf; lia).
  pose proof (land_ones_range value L ltac:(lia)) as Hv.
  induction n as [|n IH]; intros t c m1 Hlock Hm Hs Hc Hw;
    destruct (memValueSet_written L CL t index value Hwf HL Hi Hlock Hs)
      as (c0 & m0 & Hc0 & Hw0 & Hset);
    assert (c0 = c) by congruence; assert (m0 = m1) by congruence; subst c0 m0.
  - exists (written t (Z.land index 8191) c m1).
    cbn [replicate run_ops run_op]. unfold bind. rewrite Hset.
    repeat apply conj; [reflexivity|reflexivity|].
    rewrite written_lock. do 2 f_equal.
  - destruct (written_frame t L _ _ (Z.land index 8191) c m1 HLw Hp He Hv Hw Hm)
      as (Hm1 & Hl1 & Hk1).
    set (t1 := written t (Z.land index 8191) c m1) in *.
    assert (Hs1 : slot_in_mem L CL t1 index)
      by (apply (slot_in_mem_length L CL t); assumption).
    assert (Hlock1 : Z.of_nat (length (lock t1)) = 8192) by (rewrite Hk1; exact Hlock).
    assert (Hc1 : lock t1 !! Z.to_nat (Z.land index 8191) = Some ((c + 2) mod 2 ^ 8)).
    { subst t1. rewrite written_lock. apply list_lookup_insert_eq.
      eapply lookup_lt_Some; eauto. }
    destruct (field_write_is_Some L (index * VCL L CL + CL)
                (Z.land value (Z.ones L)) (mem t1)) as (m2 & Hw2); try assumption.
    { rewrite Hl1. unfold slot_in_mem, VCL in Hs |- *. unfold wf_cfg in Hwf. lia. }
    destruct (IH t1 _ m2 Hlock1 Hm1 Hs1 Hc1 Hw2) as (t' & Hrun & Hmem & Hlk).
    exists t'. repeat apply conj.
    + change (replicate (S (S n)) (OpMemValueSet (K:=K) index value))
        with (OpMemValueSet (K:=K) index value :: replicate (S n) (OpMemValueSet index value)).
      cbn [run_ops run_op]. unfold bind. rewrite Hset. exact Hrun.
    + rewrite Hmem.
      apply (field_write_write L (index * VCL L CL + CL) (Z.land value (Z.ones L))
               (Z.land value (Z.ones L)) (mem t) m1); try assumption.
    + rewrite Hlk. subst t1. rewrite written_lock, list_insert_insert_eq.
      f_equal. rewrite Zplus_mod_idemp_l. f_equal. lia.
Qed.

(** X13. The version counters are 8 bits wide and a write adds two: after
    128 completed writes to one slot the counter array is exactly what it
    was before the first of them, while the packed memory is the one the
    write leaves. *)
Theorem version_counter_wraps_after_128_writes (t : Table K) index value :
  wf_cfg L CL -> 1 <= L -> 0 <= index < 2 ^ 32 ->
  Z.of_nat (length (lock t)) = 8192 ->
  Forall (fun c => 0 <= c < 2 ^ 8) (lock t) ->
  Forall u64 (mem t) -> slot_in_mem L CL t index ->
  exists t1 t',
    memValueSet L CL index value t = Ret tt t1 /\
    run_ops V_of_u64 L CL (replicate 128 (OpMemValueSet index value)) t = Ret tt t' /\
    mem t' = mem t1 /\
    lock t' = lock t.
Proof.
  intros Hwf HL Hi Hlock Hu8 Hm Hs.
  destruct (memValueSet_written L CL t index value Hwf HL Hi Hlock Hs)
    as (c & m1 & Hc & Hw & Hset).
  destruct (repeated_memValueSet 127 index value Hwf HL Hi t c m1 Hlock Hm Hs Hc Hw)
    as (t' & Hrun & Hmem & Hlk).
  exists (written t (Z.land index 8191) c m1), t'.
  repeat apply conj; try assumption.
  rewrite Hlk. apply list_insert_id.
  pose proof (Forall_lookup_1 _ _ _ _ Hu8 Hc) as Hcr. cbn beta in Hcr.
  rewrite Hc. f_equal.
  change (2 * Z.of_nat 128) with (1 * 2 ^ 8).
  rewrite Z.mod_add by lia. symmetry. apply Z.mod_small. exact Hcr.
Qed.

End CounterWrap.

Section Constructed.
Context {K V : Type} (V_of_u64 : Z -> V) (L : Z).

(** X14. A data plane constructed from a control plane whose memory holds
    its [ma + mb] slots ([CL = 0], at least one slot in [B]) is ready: it
    has the memory of the control plane, 8192 even counters and a [versions]
    array of [ma + mb] zeros, and the lookup of every key returns. *)
Theorem construct_then_lookUp (cp : ControlPlane K) (h0 d0 : K -> Z) (k : K) :
  wf_cfg L 0 -> 1 <= L ->
  0 <= cp_ma cp < 2 ^ 32 -> 1 <= cp_mb cp < 2 ^ 32 ->
  (cp_ma cp + cp_mb cp) * L <= 64 * Z.of_nat (length (cp_mem cp)) ->
  exists t v,
    construct cp (default_constructed h0 d0) = Ret tt t /\
    mem t = cp_mem cp /\ stable t /\
    getMemoryCost t = to_u64 (Z.of_nat (length (cp_mem cp)) * 8) /\
    versions t = replicate (Z.to_nat (to_u32 (cp_ma cp + cp_mb cp))) 0 /\
    0 <= v < 2 ^ L /\
    forall fuel, lookUp V_of_u64 L 0 (S fuel) k t = Ret (true, V_of_u64 v) t.
Proof.
  intros Hwf HL Hma Hmb Hcov.
  set (t := mkTable (cp_mem cp) (cp_ma cp) (cp_mb cp) (cp_hab cp) (cp_hd cp)
              (replicate (Z.to_nat 8192) 0)
              (replicate (Z.to_nat (to_u32 (cp_ma cp + cp_mb cp))) 0)).
  assert (Hst : stable t).
  { split.
    - cbn [lock t]. rewrite length_replicate. reflexivity.
    - unfold all_even. cbn [lock t]. apply Forall_replicate. reflexivity. }
  assert (HV : VCL L 0 = L) by (unfold VCL; lia).
  destruct (getIndices_slots_in_mem L 0 t k) as [Hsa Hsb]; try assumption.
  { rewrite HV. exact HL. }
  { unfold mem_covers. rewrite HV. exact Hcov. }
  destruct (getIndices_u32 t k) as [Ha Hb].
  destruct (getIndices t k) as [a b] eqn:Hidx. cbn [fst snd] in *.
  destruct (memValueGet_is_Ret L 0 t a Hwf HL Ha Hsa) as (x & _ & Hgx & Hx).
  destruct (memValueGet_is_Ret L 0 t b Hwf HL Hb Hsb) as (y & _ & Hgy & Hy).
  exists t, (Z.lxor x y).
  split.
  { unfold construct, bind, fullSync, versions_resize, default_constructed, resize.
    cbn [ma mb mem hab hd lock versions]. subst t. do 2 f_equal.
    rewrite take_nil. cbn [length app]. f_equal. lia. }
  split; [reflexivity|]. split; [exact Hst|].
  split; [reflexivity|]. split; [reflexivity|].
  split; [apply lxor_range; lia|].
  intros fuel. apply (lookUp_of_values V_of_u64 L t k a b x y); assumption.
Qed.

End Constructed.

(** X15. The reduction of a 32-bit hash to a slot index is monotone in the
    hash and reaches every index: each of the [count] slots of an array is
    the image of some 32-bit hash. *)
Theorem multiply_high_u32_monotone_onto count :
  1 <= count < 2 ^ 32 ->
  (forall x y, 0 <= x <= y -> y < 2 ^ 32 ->
     multiply_high_u32 x count <= multiply_high_u32 y count) /\
  (forall r, 0 <= r < count ->
     exists x, 0 <= x < 2 ^ 32 /\ multiply_high_u32 x count = r).
Proof.
  intros Hc. split.
  - intros x y Hxy Hy.
    rewrite !multiply_high_u32_shift, !Z.shiftr_div_pow2 by lia.
    apply Z.div_le_mono; nia.
  - intros r Hr.
    set (x := (r * 2 ^ 32 + count - 1) / count).
    pose proof (Z.div_mod (r * 2 ^ 32 + count - 1) count ltac:(lia)) as Hdm.
    pose proof (Z.mod_pos_bound (r * 2 ^ 32 + count - 1) count ltac:(lia)) as Hrem.
    fold x in Hdm.
    set (rem := (r * 2 ^ 32 + count - 1) mod count) in *.
    assert (Hlo : r * 2 ^ 32 <= x * count) by lia.
    assert (Hhi : x * count < (r + 1) * 2 ^ 32) by lia.
    assert (Hx : 0 <= x < 2 ^ 32) by nia.
    exists x. split; [exact Hx|].
    rewrite multiply_high_u32_shift, Z.shiftr_div_pow2 by lia.
    symmetry. apply (Z.div_unique_pos _ _ r (x * count - r * 2 ^ 32)); lia.
Qed.

(** ** Evaluations on the concrete tables *)

Example multiply_high_u32_quarter : multiply_high_u32 (2 ^ 30) 4 = 1.
Proof. reflexivity. Qed.

Example getIndices_scenario : getIndices (scenario_table [0]) tt = (1, 6).
Proof. reflexivity. Qed.

Example memGet_words_1_6 :
  memGet 8 0 1 words_1_6 = Ret 42 words_1_6 /\
  memGet 8 0 6 words_1_6 = Ret 5 words_1_6.
Proof. split; reflexivity. Qed.

Example lookUp_words_1_6 :
  lookUp id64 8 0 1 tt words_1_6 = Ret (true, 47) words_1_6.
Proof. reflexivity. Qed.

(** A reader that meets an odd counter and no writer to make it even retries
    for as long as it is given fuel. *)
Example lookUp_mid_write_spins : lookUp id64 8 0 100 tt mid_write = Spin.
Proof. reflexivity. Qed.

Example memGet_filter_table :
  memValueGet 8 6 0 filter_table = Ret 3 filter_table /\
  memValueGet 8 6 1 filter_table = Ret 7 filter_table /\
  memGet 8 6 1 filter_table = Ret (7 * 2 ^ 6 + 9) filter_table.
Proof. repeat split; reflexivity. Qed.


(** C5 as stated, on a default-constructed table: the counters are even,
    and neither overload returns. *)
Lemma lookUp_value_empty_table_undefined :
  stable empty_table /\
  lookUp id64 16 0 1 tt empty_table = Undef OutOfRange /\
  lookUp_value id64 16 0 1 tt empty_table = Undef OutOfRange /\
  ~ exists fuel v t', lookUp id64 16 0 fuel tt empty_table = Ret (true, v) t'.
Proof.
  split; [apply synced_stable|]. split; [reflexivity|]. split; [reflexivity|].
  intros (fuel & v & t' & H). destruct fuel as [|fuel]; [discriminate|].
  vm_compute in H. discriminate.
Qed.

(** C3 as stated: [fillSingle (1, 42)] writes the value 1 to node 42. With
    the one-word memory of eight 8-bit slots that is past the end of [mem];
    with a memory of eight words the calls complete and the lookup returns
    0. *)
Lemma scenario_as_written_fails :
  getIndices (scenario_table [0]) tt = (1, 6) /\
  mem_covers 8 0 (scenario_table [0]) /\
  fillSingle 8 0 1 42 (scenario_table [0]) = Undef OutOfRange /\
  match
    bind (fillSingle 8 0 1 42)
      (fun _ => bind (fillSingle 8 0 6 0)
         (fun _ => lookUp id64 8 0 1 tt))
      (scenario_table (replicate 8 0))
  with
  | Ret (b, v) _ => b = true /\ v = 0
  | _ => False
  end.
Proof.
  split; [reflexivity|]. split; [vm_compute; discriminate|].
  split; [reflexivity|]. vm_compute. split; reflexivity.
Qed.

(** C4. On [filter_table] ([L = 8], [CL = 6]) the snapshot of the two slots
    is [aa = 197], [bb = 457]; [lookUp] then stores through [aa] taken as an
    address. The local [aa] and [bb] are not changed by that statement: the
    write-back of the two slots that follows it in the source puts back the
    contents that were read (in general, [memSet_memGet_id]), so no control
    sub-field is incremented. *)
Theorem lookUp_filter_table_wild_store :
  memGet 8 6 0 filter_table = Ret 197 filter_table /\
  memGet 8 6 1 filter_table = Ret 457 filter_table /\
  lookUp id64 8 6 1 tt filter_table = Undef (WildPointer 197) /\
  match
    bind (memSet 8 6 0 197) (fun _ => memSet 8 6 1 457) filter_table
  with
  | Ret _ t' => mem t' = mem filter_table
  | _ => False
  end.
Proof.
  split; [reflexivity|]. split; [reflexivity|]. split; [reflexivity|].
  vm_compute. reflexivity.
Qed.

(** C2. On [wide_table] ([L = 64], [CL = 0]) [memValueSet (1, 3)] stores 3 in
    slot 1, and the [memValueGet (1)] that follows returns 0, not 3: the mask
    [~(uint64_t(-1) << (L - left))] of the getter is built with a shift by
    64 and has no bit. *)
Theorem memValueGet_width_64_reads_zero :
  exists t',
    memValueSet 64 0 1 3 wide_table = Ret tt t' /\
    mem t' = [5; 3] /\
    memValueGet 64 0 1 t' = Ret 0 t'.
Proof.
  eexists. split; [vm_compute; reflexivity|].
  split; vm_compute; reflexivity.
Qed.

(** C6. On [wide_table] the component fix-up of slot 1 with [d = 3] reads
    the value of the slot as 0 and leaves 3 in it, where the previous
    value XOR [d] is [9 ^ 3 = 10]. *)
Theorem fixHalfTreeByConnectedComponent_width_64_overwrites :
  mem wide_table = [5; 9] /\
  Z.lxor 9 (3 mod 2 ^ 64) = 10 /\
  exists t',
    fixHalfTreeByConnectedComponent 64 0 [1] 3 wide_table = Ret tt t' /\
    mem t' = [5; 3].
Proof.
  split; [reflexivity|]. split; [reflexivity|].
  eexists. split; vm_compute; reflexivity.
Qed.

(** C10. On [wide_table] two calls of [fixSingle (1, 3)] in succession leave
    3 in slot 1: each call reads the value of the slot as 0, so the second
    does not undo the first and the 9 of the slot is lost. *)
Theorem fixSingle_twice_width_64_not_restored :
  exists t1 t2,
    fixSingle 64 0 1 3 wide_table = Ret tt t1 /\
    fixSingle 64 0 1 3 t1 = Ret tt t2 /\
    mem t2 = [5; 3] /\
    mem t2 <> mem wide_table.
Proof.
  eexists. eexists. split; [vm_compute; reflexivity|].
  split; [vm_compute; reflexivity|].
  split; [vm_compute; reflexivity|].
  vm_compute. discriminate.
Qed.

(** C7 as stated, with [ma = mb = 2^32 - 1]: [bInd] wraps in its 32-bit
    variable and falls below [ma]. *)
Lemma getIndices_wraps_on_huge_table :
  1 <= ma huge_table /\ 1 <= mb huge_table /\
  snd (getIndices huge_table tt) = 2 ^ 32 - 3 /\
  snd (getIndices huge_table tt) < ma huge_table.
Proof.
  split; [cbn; lia|]. split; [cbn; lia|]. split; [reflexivity|].
  vm_compute. reflexivity.
Qed.

(** C8 as stated, with [L = 0]: [memValueSet] returns at its guard; the
    counter of the slot is not incremented. *)
Lemma memValueSet_zero_width_skips_counter :
  lock (scenario_table [0]) !! 3%nat = Some 0 /\
  memValueSet 0 6 3 5 (scenario_table [0]) = Ret tt (scenario_table [0]).
Proof. split; reflexivity. Qed.

(** ** The theorems at concrete inputs *)

Ltac by_eval := vm_compute; first [reflexivity | discriminate].


Lemma memValueSet_memValueGet_roundtrip_witness :
  exists t', memValueSet 6 4 12 37 straddle_table = Ret tt t' /\
             memValueGet 6 4 12 t' = Ret 37 t'.
Proof.
  apply (memValueSet_memValueGet_roundtrip 6 4 straddle_table 12 37).
  - unfold wf_cfg, VCL. lia.
  - lia.
  - reflexivity.
  - lia.
  - by_eval.
  - by_eval.
  - lia.
Defined.

Lemma fill_then_fix_scenario_witness :
  exists t1 t2 t3,
    fillSingle 8 0 42 1 words_1_6 = Ret tt t1 /\
    fillSingle 8 0 0 6 t1 = Ret tt t2 /\
    (forall fuel, lookUp id64 8 0 (S fuel) tt t2 = Ret (true, id64 42) t2) /\
    fixSingle 8 0 6 (Z.lxor 42 7) t2 = Ret tt t3 /\
    (forall fuel, lookUp id64 8 0 (S fuel) tt t3 = Ret (true, id64 7) t3).
Proof.
  apply (fill_then_fix_scenario id64 words_1_6 tt).
  - reflexivity.
  - reflexivity.
  - reflexivity.
  - split; [reflexivity|]. apply Forall_replicate. reflexivity.
  - by_eval.
Defined.

Lemma lookUp_no_failing_path_witness :
  exists v,
    lookUp id64 8 0 1 tt words_1_6 = Ret (true, v) words_1_6 /\
    lookUp_value id64 8 0 1 tt words_1_6 = Ret v words_1_6.
Proof.
  apply (proj2 (proj2 (lookUp_no_failing_path id64 8 0 words_1_6 tt))).
  - reflexivity.
  - unfold wf_cfg, VCL. lia.
  - split; [reflexivity|]. apply Forall_replicate. reflexivity.
  - by_eval.
  - by_eval.
Defined.

Lemma fixHalfTreeByConnectedComponent_xors_witness :
  exists t',
    fixHalfTreeByConnectedComponent 8 0 [2; 5; 7] 11 words_1_6 = Ret tt t' /\
    (forall j, 0 <= j < 2 ^ 32 -> j < ma words_1_6 + mb words_1_6 ->
       exists old,
         memValueGet 8 0 j words_1_6 = Ret old words_1_6 /\
         memValueGet 8 0 j t' =
           Ret (if decide (j ∈ [2; 5; 7]) then Z.lxor old (11 mod 2 ^ 8) else old) t') /\
    (forall j, 0 <= j < 2 ^ 32 -> slot_in_mem 8 0 words_1_6 j -> j ∉ [2; 5; 7] ->
       exists s, memGet 8 0 j words_1_6 = Ret s words_1_6 /\ memGet 8 0 j t' = Ret s t').
Proof.
  apply (fixHalfTreeByConnectedComponent_xors 8 0 words_1_6 [2; 5; 7] 11).
  - unfold wf_cfg, VCL. lia.
  - unfold VCL. lia.
  - reflexivity.
  - by_eval.
  - apply (bool_decide_unpack _). vm_compute. exact I.
  - repeat (constructor; [split; [lia|by_eval]|]). constructor.
  - lia.
Defined.

Lemma getIndices_ranges_witness :
  (forall x, 0 <= x < 2 ^ 32 ->
     fast_map_to_A words_1_6 x = Z.shiftr (x * ma words_1_6) 32 /\
     0 <= fast_map_to_A words_1_6 x < ma words_1_6 /\
     fast_map_to_B words_1_6 x = Z.shiftr (x * mb words_1_6) 32 /\
     0 <= fast_map_to_B words_1_6 x < mb words_1_6) /\
  let hash := to_u64 (hab words_1_6 tt) in
  let aInd := fst (getIndices words_1_6 tt) in
  let bInd := snd (getIndices words_1_6 tt) in
  aInd = fast_map_to_A words_1_6 (hash mod 2 ^ 32) /\ 0 <= aInd < ma words_1_6 /\
  bInd = fast_map_to_B words_1_6 (Z.shiftr hash 32) + ma words_1_6 /\
  ma words_1_6 <= bInd < ma words_1_6 + mb words_1_6.
Proof.
  destruct (getIndices_ranges words_1_6 tt) as (Hmap & Ha & Hra & Hb).
  - cbn. lia.
  - cbn. lia.
  - split; [exact Hmap|]. split; [exact Ha|]. split; [exact Hra|].
    apply Hb. by_eval.
Defined.

Lemma version_counter_bracket_witness :
  exists t',
    run_ops id64 8 0
      [OpFillSingle 42 1; OpFixSingle 6 45; OpLookUp 1%nat tt;
       OpFixHalfTree [2; 5; 7] 11; OpMemSet 3 9]
      (scenario_table [0]) = Ret tt t' /\
    stable t'.
Proof.
  eexists. split.
  - vm_compute. reflexivity.
  - apply (proj2 (proj2 (proj2 (proj2 (proj2 (proj2
             (version_counter_bracket (K := unit) id64 8 0)))))))
      with (os := [OpFillSingle 42 1; OpFixSingle 6 45; OpLookUp 1%nat tt;
                   OpFixHalfTree [2; 5; 7] 11; OpMemSet 3 9])
           (m := [0]) (a := 4) (b := 4)
           (h := const_hash (2 ^ 63 + 2 ^ 30)) (d := const_hash 0).
    vm_compute. reflexivity.
Defined.

Lemma lookUp_writes_nothing_CL0_witness :
  (forall fuel r t', lookUp id64 8 0 fuel tt words_1_6 = Ret r t' -> t' = words_1_6) /\
  exists v, lookUp id64 8 0 1 tt words_1_6 = Ret (true, v) words_1_6.
Proof.
  destruct (lookUp_writes_nothing_CL0 id64 8 0 words_1_6 tt eq_refl) as [H1 H2].
  split; [exact H1|]. apply H2.
  - unfold wf_cfg, VCL. lia.
  - split; [reflexivity|]. apply Forall_replicate. reflexivity.
  - by_eval.
  - by_eval.
Defined.

Lemma fixSingle_twice_restores_witness :
  exists t1 t2 v,
    fixSingle 6 4 12 45 straddle_table = Ret tt t1 /\
    fixSingle 6 4 12 45 t1 = Ret tt t2 /\
    memValueGet 6 4 12 straddle_table = Ret v straddle_table /\
    memValueGet 6 4 12 t2 = Ret v t2 /\
    mem t2 = mem straddle_table.
Proof.
  apply (fixSingle_twice_restores 6 4 straddle_table 12 45).
  - unfold wf_cfg, VCL. lia.
  - lia.
  - repeat constructor; by_eval.
  - reflexivity.
  - lia.
  - by_eval.
  - by_eval.
  - lia.
Defined.

(** The value sub-field of slot 12 of [straddle_table] lies across two
    words; the store and the load meet there. *)
Example memValueSet_straddles :
  match memValueSet 6 4 12 37 straddle_table with
  | Ret _ t' =>
      mem t' = [2 ^ 64 - 1; 2 ^ 60 - 1 + 5 * 2 ^ 60; 2 ^ 64 - 4 + 2] /\
      memValueGet 6 4 12 t' = Ret 37 t'
  | _ => False
  end.
Proof. vm_compute. split; reflexivity. Qed.

(** ** The further properties at concrete inputs *)

Ltac words_u64 := repeat (constructor; [unfold u64; lia|]); constructor.

Lemma memSet_memGet_roundtrip_witness :
  exists t',
    memSet 6 4 12 37 straddle_table = Ret tt t' /\
    memGet 6 4 12 t' = Ret (37 mod 2 ^ VCL 6 4) t' /\
    forall j, 0 <= j < 2 ^ 32 -> j <> 12 -> slot_in_mem 6 4 straddle_table j ->
      exists s, memGet 6 4 j straddle_table = Ret s straddle_table /\
                memGet 6 4 j t' = Ret s t'.
Proof.
  apply (memSet_memGet_roundtrip 6 4 straddle_table 12 37).
  - unfold wf_cfg, VCL. lia.
  - unfold VCL. lia.
  - reflexivity.
  - lia.
  - by_eval.
  - lia.
Defined.

Lemma memValueGet_is_memGet_shifted_witness :
  exists s,
    memGet 6 4 12 straddle_table = Ret s straddle_table /\
    0 <= s < 2 ^ VCL 6 4 /\
    memValueGet 6 4 12 straddle_table = Ret (Z.shiftr s 4) straddle_table.
Proof.
  apply (memValueGet_is_memGet_shifted 6 4 straddle_table 12).
  - unfold wf_cfg, VCL. lia.
  - unfold VCL. lia.
  - lia.
  - by_eval.
Defined.

Lemma memValueSet_keeps_control_witness :
  exists s t',
    memGet 6 4 12 straddle_table = Ret s straddle_table /\
    memValueSet 6 4 12 37 straddle_table = Ret tt t' /\
    memGet 6 4 12 t' = Ret (Z.lor (Z.shiftl (37 mod 2 ^ 6) 4) (s mod 2 ^ 4)) t' /\
    memValueGet 6 4 12 t' = Ret (37 mod 2 ^ 6) t' /\
    forall j, 0 <= j < 2 ^ 32 -> j <> 12 -> slot_in_mem 6 4 straddle_table j ->
      exists s', memGet 6 4 j straddle_table = Ret s' straddle_table /\
                 memGet 6 4 j t' = Ret s' t'.
Proof.
  apply (memValueSet_keeps_control 6 4 straddle_table 12 37).
  - unfold wf_cfg, VCL. lia.
  - unfold VCL. lia.
  - reflexivity.
  - lia.
  - by_eval.
  - lia.
Defined.

Lemma memGet_defined_iff_witness :
  (slot_in_mem 6 4 straddle_table 12 <->
     exists r, memGet 6 4 12 straddle_table = Ret r straddle_table) /\
  (~ slot_in_mem 6 4 straddle_table 12 ->
     memGet 6 4 12 straddle_table = Undef OutOfRange).
Proof.
  apply (memGet_defined_iff 6 4 straddle_table 12).
  - unfold wf_cfg, VCL. lia.
  - lia.
Defined.

Lemma fixSingle_composes_by_xor_witness :
  exists t1 t2 t3,
    fixSingle 8 0 1 42 words_1_6 = Ret tt t1 /\
    fixSingle 8 0 1 7 t1 = Ret tt t2 /\
    fixSingle 8 0 1 (Z.lxor 42 7) words_1_6 = Ret tt t3 /\
    mem t2 = mem t3.
Proof.
  apply (fixSingle_composes_by_xor 8 0 words_1_6 1 42 7).
  - unfold wf_cfg, VCL. lia.
  - lia.
  - reflexivity.
  - words_u64.
  - lia.
  - by_eval.
Defined.

Lemma fillSingle_last_wins_witness :
  exists t1 t2 t3,
    fillSingle 6 4 5 12 straddle_table = Ret tt t1 /\
    fillSingle 6 4 37 12 t1 = Ret tt t2 /\
    fillSingle 6 4 37 12 straddle_table = Ret tt t3 /\
    mem t2 = mem t3 /\
    memValueGet 6 4 12 t2 = Ret (37 mod 2 ^ 6) t2.
Proof.
  apply (fillSingle_last_wins 6 4 straddle_table 12 5 37).
  - unfold wf_cfg, VCL. lia.
  - lia.
  - reflexivity.
  - words_u64.
  - lia.
  - by_eval.
  - lia.
  - lia.
Defined.

Lemma fillSingle_commutes_witness :
  exists t',
    bind (fillSingle 8 0 42 1) (fun _ => fillSingle 8 0 7 6) words_1_6 = Ret tt t' /\
    bind (fillSingle 8 0 7 6) (fun _ => fillSingle 8 0 42 1) words_1_6 = Ret tt t'.
Proof.
  apply (fillSingle_commutes 8 0 words_1_6 1 42 6 7).
  - unfold wf_cfg, VCL. lia.
  - reflexivity.
  - words_u64.
  - lia.
  - lia.
  - lia.
  - by_eval.
  - by_eval.
Defined.

Lemma fixHalfTreeByConnectedComponent_any_order_witness :
  exists t',
    fixHalfTreeByConnectedComponent 8 0 [2; 5; 7] 11 words_1_6 = Ret tt t' /\
    fixHalfTreeByConnectedComponent 8 0 [7; 2; 5] 11 words_1_6 = Ret tt t'.
Proof.
  apply (fixHalfTreeByConnectedComponent_any_order 8 0 words_1_6 [2; 5; 7] [7; 2; 5] 11).
  - unfold wf_cfg, VCL. lia.
  - reflexivity.
  - words_u64.
  - repeat (constructor; [split; [lia|by_eval]|]). constructor.
  - apply perm_trans with [2; 7; 5]; [apply perm_skip, perm_swap|apply perm_swap].
Defined.

Lemma run_ops_keeps_geometry_witness :
  exists t',
    run_ops id64 8 0 [OpFillSingle 42 1; OpFixSingle 6 7; OpLookUp 1 tt] words_1_6 =
      Ret tt t' /\
    getMemoryCost t' = getMemoryCost words_1_6 /\
    (forall k, getIndices t' k = getIndices words_1_6 k) /\
    versions t' = versions words_1_6 /\
    length (lock t') = length (lock words_1_6).
Proof.
  eexists. split; [vm_compute; reflexivity|].
  apply (run_ops_keeps_geometry id64 8 0
           [OpFillSingle 42 1; OpFixSingle 6 7; OpLookUp 1 tt] words_1_6).
  vm_compute. reflexivity.
Defined.

Lemma lookUp_spins_while_counter_odd_witness :
  lookUp id64 8 0 7 tt mid_write = Spin.
Proof.
  apply (lookUp_spins_while_counter_odd id64 8 0 7 tt mid_write 1).
  - reflexivity.
  - left. reflexivity.
  - reflexivity.
Defined.

Lemma lookUp_filter_reaches_wild_store_witness :
  exists aa,
    memGet 8 6 (getIndices filter_table tt).1 filter_table = Ret aa filter_table /\
    forall fuel, lookUp id64 8 6 (S fuel) tt filter_table = Undef (WildPointer aa).
Proof.
  apply (lookUp_filter_reaches_wild_store id64 8 6 filter_table tt).
  - lia.
  - unfold wf_cfg, VCL. lia.
  - unfold VCL. lia.
  - split; [reflexivity|]. apply Forall_replicate. reflexivity.
  - by_eval.
  - by_eval.
Defined.

Lemma lookUp_after_component_fix_witness :
  exists v t',
    0 <= v < 2 ^ 8 /\
    fixHalfTreeByConnectedComponent 8 0 [1; 2] 7 words_1_6 = Ret tt t' /\
    forall fuel,
      lookUp id64 8 0 (S fuel) tt words_1_6 = Ret (true, id64 v) words_1_6 /\
      lookUp id64 8 0 (S fuel) tt t' =
        Ret (true,
             id64 (if xorb (bool_decide ((getIndices words_1_6 tt).1 ∈ [1; 2]))
                           (bool_decide ((getIndices words_1_6 tt).2 ∈ [1; 2]))
                   then Z.lxor v (7 mod 2 ^ 8) else v)) t'.
Proof.
  apply (lookUp_after_component_fix id64 8 words_1_6 tt [1; 2] 7).
  - unfold wf_cfg, VCL. lia.
  - lia.
  - lia.
  - lia.
  - split; [reflexivity|]. apply Forall_replicate. reflexivity.
  - apply (bool_decide_unpack _). vm_compute. exact I.
  - repeat (constructor; [split; [lia|by_eval]|]). constructor.
  - by_eval.
  - by_eval.
Defined.

Lemma version_counter_wraps_after_128_writes_witness :
  exists t1 t',
    memValueSet 8 0 1 42 words_1_6 = Ret tt t1 /\
    run_ops id64 8 0 (replicate 128 (OpMemValueSet 1 42)) words_1_6 = Ret tt t' /\
    mem t' = mem t1 /\
    lock t' = lock words_1_6.
Proof.
  apply (version_counter_wraps_after_128_writes id64 8 0 words_1_6 1 42).
  - unfold wf_cfg, VCL. lia.
  - lia.
  - lia.
  - reflexivity.
  - apply Forall_replicate. lia.
  - words_u64.
  - by_eval.
Defined.

Lemma construct_then_lookUp_witness :
  exists t v,
    construct scenario_cp (default_constructed (const_hash 0) (const_hash 0)) = Ret tt t /\
    mem t = cp_mem scenario_cp /\ stable t /\
    getMemoryCost t = to_u64 (Z.of_nat (length (cp_mem scenario_cp)) * 8) /\
    versions t =
      replicate (Z.to_nat (to_u32 (cp_ma scenario_cp + cp_mb scenario_cp))) 0 /\
    0 <= v < 2 ^ 8 /\
    forall fuel, lookUp id64 8 0 (S fuel) tt t = Ret (true, id64 v) t.
Proof.
  apply (construct_then_lookUp id64 8 scenario_cp (const_hash 0) (const_hash 0) tt).
  - unfold wf_cfg, VCL. lia.
  - lia.
  - cbn. lia.
  - cbn. lia.
  - by_eval.
Defined.

Lemma multiply_high_u32_monotone_onto_witness :
  (forall x y, 0 <= x <= y -> y < 2 ^ 32 ->
     multiply_high_u32 x 4 <= multiply_high_u32 y 4) /\
  (forall r, 0 <= r < 4 ->
     exists x, 0 <= x < 2 ^ 32 /\ multiply_high_u32 x 4 = r).
Proof.
  apply (multiply_high_u32_monotone_onto 4). lia.
Defined.
